(** * A shallow embedding of the toy EdgeQL evaluator model

    Source: [edb/tools/toy_eval_model.py].  The development follows the
    layout of the Python module: the value model, internal paths and the
    query input list, the lifted basis functions, the path analyzer, and
    the recursive evaluator.

    Modelling conventions.

    - A Python value ([Data = Any]) is an element of the inductive type
      [Data]; a multiset of the language is a [list Data].
    - An evaluation either returns, or raises a Python exception
      ([Raise]), or leaves the embedded fragment ([Unmodelled]: float
      arithmetic, string formatting, number parsing beyond plain digits).
    - [random.random] reads and advances the global generator; the
      generator is an explicit state threaded through the evaluator. *)

From Stdlib Require Import ZArith NArith List String Ascii Bool Lia.
From Stdlib Require Import Permutation Sorted DecimalString DecimalPos.
From Stdlib Require Import OrderedTypeEx.
Import ListNotations.

Set Implicit Arguments.
Local Open Scope Z_scope.
Local Open Scope string_scope.
Local Open Scope list_scope.

(** ** Outcomes *)

Inductive exn : Type :=
| AssertionError
| TypeError
| ValueError
| KeyError
| IndexError
| ZeroDivisionError
| OverflowError
| RecursionError
| NotImplementedError.

Inductive outcome (A : Type) : Type :=
| Ok (a : A)
| Raise (e : exn)
| Unmodelled.

Arguments Ok {A} a.
Arguments Raise {A} e.
Arguments Unmodelled {A}.

Definition obind {A B : Type} (m : outcome A) (f : A -> outcome B) : outcome B :=
  match m with
  | Ok a => f a
  | Raise e => Raise e
  | Unmodelled => Unmodelled
  end.

Definition omap {A B : Type} (f : A -> B) (m : outcome A) : outcome B :=
  obind m (fun a => Ok (f a)).

(** ** The random generator

    [random.random()] returns the next draw of a process-global generator.
    The generator is modelled as the sequence of its future draws and a
    cursor. *)

Inductive pyfloat : Type :=
| FFinite (m e : Z)        (* the dyadic rational m * 2^e *)
| FInf (negative : bool)
| FNaN (id : N).           (* a NaN; the id tells the NaN objects apart *)

Record Rng : Type := mkRng { draws : nat -> pyfloat; cursor : nat }.

Definition rng_next (r : Rng) : pyfloat * Rng :=
  (draws r (cursor r), mkRng (draws r) (S (cursor r))).

(** ** The evaluation monad: exceptions over generator state

    The interpreter recurses on the query; the embedding bounds the depth
    of that recursion, and [OutOfFuel] reports that the bound was hit. *)

Inductive fueled (A : Type) : Type :=
| Done (o : outcome A)
| OutOfFuel.

Arguments Done {A} o.
Arguments OutOfFuel {A}.

Definition M (A : Type) : Type := Rng -> fueled A * Rng.

Definition liftO {A : Type} (o : outcome A) : M A := fun r => (Done o, r).

Definition ret {A : Type} (a : A) : M A := liftO (Ok a).

Definition raise {A : Type} (e : exn) : M A := liftO (Raise e).

Definition bind {A B : Type} (m : M A) (f : A -> M B) : M B :=
  fun r =>
    match m r with
    | (Done (Ok a), r') => f a r'
    | (Done (Raise e), r') => (Done (Raise e), r')
    | (Done Unmodelled, r') => (Done Unmodelled, r')
    | (OutOfFuel, r') => (OutOfFuel, r')
    end.

Declare Scope monad_scope.
Delimit Scope monad_scope with monad.
Notation "x <- m ;; k" := (bind m (fun x => k))
  (at level 61, m at next level, right associativity) : monad_scope.
Notation "' p <- m ;; k" := (bind m (fun x => match x with p => k end))
  (at level 61, p pattern, m at next level, right associativity) : monad_scope.
Local Open Scope monad_scope.

(** [for x in l: out.extend(f(x))] *)
Fixpoint concatM {A B : Type} (f : A -> M (list B)) (l : list A) : M (list B) :=
  match l with
  | [] => ret []
  | x :: l' => ys <- f x ;; zs <- concatM f l' ;; ret (ys ++ zs)
  end.

(** [[f(x) for x in l]] *)
Fixpoint mapM {A B : Type} (f : A -> M B) (l : list A) : M (list B) :=
  match l with
  | [] => ret []
  | x :: l' => y <- f x ;; ys <- mapM f l' ;; ret (y :: ys)
  end.

(** ** Values *)

Definition uuid : Type := N.

Local Unset Elimination Schemes.

Inductive Data : Type :=
| DNone
| DBool (b : bool)
| DInt (z : Z)
| DFloat (f : pyfloat)
| DStr (s : string)
| DUuid (u : uuid)
| DTuple (l : list Data)
| DList (l : list Data)
| DDict (d : list (string * Data))
| DObj (id : uuid) (shape : list (string * Data)).

Local Set Elimination Schemes.

Definition Row : Type := list Data.
Definition Record : Type := list (string * Data).
Definition DB : Type := list (uuid * Record).

(** [uuid.UUID(f'ffffffff-ffff-ffff-ffff-{n:012x}')], for [n < 2^48]. *)
Definition bsid (n : N) : uuid :=
  (N.lor (N.shiftl (N.ones 80) 48) n)%N.

(** [Obj(id)]: the shape defaults to [{"id": id}]. *)
Definition Obj (id : uuid) : Data := DObj id [("id", DUuid id)].

Definition bslink (n : N) : Data := Obj (bsid n).

(** [d.get(k)] on a dict kept as an association list in insertion order. *)
Fixpoint dict_get {A : Type} (k : string) (d : list (string * A)) : option A :=
  match d with
  | [] => None
  | (k', v) :: d' => if String.eqb k k' then Some v else dict_get k d'
  end.

(** [d[k] = v]: an existing key keeps its position. *)
Fixpoint dict_set {A : Type} (k : string) (v : A) (d : list (string * A))
  : list (string * A) :=
  match d with
  | [] => [(k, v)]
  | (k', v') :: d' =>
      if String.eqb k k' then (k', v) :: d' else (k', v') :: dict_set k v d'
  end.

Fixpoint db_get (k : uuid) (db : DB) : option Record :=
  match db with
  | [] => None
  | (k', v) :: db' => if N.eqb k k' then Some v else db_get k db'
  end.

Fixpoint db_set (k : uuid) (v : Record) (db : DB) : DB :=
  match db with
  | [] => [(k, v)]
  | (k', v') :: db' =>
      if N.eqb k k' then (k', v) :: db' else (k', v') :: db_set k v db'
  end.

(** *** Numbers: [bool], [int] and [float] compare by exact value *)

Definition numeric (d : Data) : option pyfloat :=
  match d with
  | DBool b => Some (FFinite (Z.b2z b) 0)
  | DInt z => Some (FFinite z 0)
  | DFloat f => Some f
  | _ => None
  end.

(** A NaN is unordered: it is neither below, nor equal to, nor above any
    number, itself included. *)
Definition num_compare (a b : pyfloat) : option comparison :=
  match a, b with
  | FNaN _, _ => None
  | _, FNaN _ => None
  | FInf true, FInf true => Some Eq
  | FInf true, _ => Some Lt
  | _, FInf true => Some Gt
  | FInf false, FInf false => Some Eq
  | FInf false, _ => Some Gt
  | _, FInf false => Some Lt
  | FFinite m1 e1, FFinite m2 e2 =>
      let e := Z.min e1 e2 in
      Some (Z.compare (m1 * 2 ^ (e1 - e)) (m2 * 2 ^ (e2 - e)))
  end.

Definition is_Eq (c : option comparison) : bool :=
  match c with Some Eq => true | _ => false end.

(** [a is b or a == b] on numbers: a NaN is itself, and nothing else. *)
Definition num_same (a b : pyfloat) : bool :=
  match a, b with
  | FNaN i, FNaN j => N.eqb i j
  | _, _ => is_Eq (num_compare a b)
  end.

(** *** Equality

    The items of tuples, lists and dicts, the operator [in], [list.index]
    and [dedup] compare two values by [a is b or a == b].  The two differ
    on values that are not equal to themselves only, the NaN floats;
    [py_eq] is this comparison, [py_equal] below is [==] itself. *)

Fixpoint py_eq (a b : Data) {struct a} : bool :=
  match a, b with
  | DNone, DNone => true
  | DStr s, DStr t => String.eqb s t
  | DUuid u, DUuid v => N.eqb u v
  | DTuple l, DTuple m =>
      (fix seq_eq (l m : list Data) {struct l} : bool :=
         match l, m with
         | [], [] => true
         | x :: l', y :: m' => py_eq x y && seq_eq l' m'
         | _, _ => false
         end) l m
  | DList l, DList m =>
      (fix seq_eq (l m : list Data) {struct l} : bool :=
         match l, m with
         | [], [] => true
         | x :: l', y :: m' => py_eq x y && seq_eq l' m'
         | _, _ => false
         end) l m
  | DDict d, DDict e =>
      Nat.eqb (List.length d) (List.length e) &&
      (fix entries (d : list (string * Data)) {struct d} : bool :=
         match d with
         | [] => true
         | (k, v) :: d' =>
             match dict_get k e with
             | Some w => py_eq v w
             | None => false
             end && entries d'
         end) d
  | DObj i _, DObj j _ => N.eqb i j
  | _, _ =>
      match numeric a, numeric b with
      | Some x, Some y => num_same x y
      | _, _ => false
      end
  end.

Definition is_nan (a : Data) : bool :=
  match a with DFloat (FNaN _) => true | _ => false end.

(** [a == b]: a NaN differs from every value, itself included; the items
    of two containers are compared as above. *)
Definition py_equal (a b : Data) : bool := negb (is_nan a) && py_eq a b.

(** *** [bool(x)] *)

Definition truthy (d : Data) : bool :=
  match d with
  | DNone => false
  | DBool b => b
  | DInt z => negb (Z.eqb z 0)
  | DFloat (FFinite m _) => negb (Z.eqb m 0)
  | DFloat (FInf _) => true
  | DFloat (FNaN _) => true
  | DStr s => negb (String.eqb s "")
  | DUuid _ => true
  | DTuple l => negb (Nat.eqb (List.length l) 0)
  | DList l => negb (Nat.eqb (List.length l) 0)
  | DDict d => negb (Nat.eqb (List.length d) 0)
  | DObj _ _ => true
  end.

(** *** Ordering: [<], [<=], [>], [>=] *)

Inductive cmpop : Type := OpLt | OpLe | OpGt | OpGe.

Definition cmp_holds (op : cmpop) (c : comparison) : bool :=
  match op, c with
  | OpLt, Lt => true
  | OpLe, Lt => true
  | OpLe, Eq => true
  | OpGt, Gt => true
  | OpGe, Gt => true
  | OpGe, Eq => true
  | _, _ => false
  end.

Fixpoint py_cmp (op : cmpop) (a b : Data) {struct a} : outcome bool :=
  match a, b with
  | DStr s, DStr t => Ok (cmp_holds op (String.compare s t))
  | DUuid u, DUuid v => Ok (cmp_holds op (N.compare u v))
  | DTuple l, DTuple m =>
      (fix seq_cmp (l m : list Data) {struct l} : outcome bool :=
         match l, m with
         | [], [] => Ok (cmp_holds op Eq)
         | [], _ :: _ => Ok (cmp_holds op Lt)
         | _ :: _, [] => Ok (cmp_holds op Gt)
         | x :: l', y :: m' =>
             if py_eq x y then seq_cmp l' m' else py_cmp op x y
         end) l m
  | DList l, DList m =>
      (fix seq_cmp (l m : list Data) {struct l} : outcome bool :=
         match l, m with
         | [], [] => Ok (cmp_holds op Eq)
         | [], _ :: _ => Ok (cmp_holds op Lt)
         | _ :: _, [] => Ok (cmp_holds op Gt)
         | x :: l', y :: m' =>
             if py_eq x y then seq_cmp l' m' else py_cmp op x y
         end) l m
  | _, _ =>
      match numeric a, numeric b with
      | Some x, Some y =>
          Ok (match num_compare x y with
              | Some c => cmp_holds op c
              | None => false
              end)
      | _, _ => Raise TypeError
      end
  end.

Definition py_lt : Data -> Data -> outcome bool := py_cmp OpLt.
Definition py_gt : Data -> Data -> outcome bool := py_cmp OpGt.

(** ** Generic sequence helpers *)

Definition list_eqb {A : Type} (eqb : A -> A -> bool) : list A -> list A -> bool :=
  fix go (l m : list A) {struct l} : bool :=
    match l, m with
    | [], [] => true
    | x :: l', y :: m' => eqb x y && go l' m'
    | _, _ => false
    end.

Definition option_eqb {A : Type} (eqb : A -> A -> bool) (a b : option A) : bool :=
  match a, b with
  | None, None => true
  | Some x, Some y => eqb x y
  | _, _ => false
  end.

(** [t1 < t2] on Python tuples: the first position where the items differ
    under [==] decides, otherwise the shorter tuple is the smaller. *)
Definition tuple_lt {A : Type} (eqb : A -> A -> bool) (lt : A -> A -> outcome bool)
  : list A -> list A -> outcome bool :=
  fix go (l m : list A) {struct l} : outcome bool :=
    match l, m with
    | [], [] => Ok false
    | [], _ :: _ => Ok true
    | _ :: _, [] => Ok false
    | x :: l', y :: m' => if eqb x y then go l' m' else lt x y
    end.

(** ** The query AST

    The node classes of [edb.edgeql.ast] that the evaluator dispatches on,
    with the attributes it reads.  [OtherNode] stands for any node class
    without a registered handler. *)

Inductive step (E : Type) : Type :=
| ObjectRef (name : string)
| Ptr (name : string) (direction : option string)
| TypeIntersection (type_name : string)
| ExprStep (e : E).

Arguments ObjectRef {E} name.
Arguments Ptr {E} name direction.
Arguments TypeIntersection {E} type_name.
Arguments ExprStep {E} e.

Record SortExpr (E : Type) : Type := mkSortExpr {
  sort_path : E;
  sort_direction : option string;
  sort_nones_order : option string
}.

Local Unset Elimination Schemes.

Inductive expr : Type :=
| SelectQuery (aliases : list (string * expr)) (result : expr)
    (where_ : option expr) (orderby : list (SortExpr expr))
    (offset limit : option expr) (result_alias : option string)
| ForQuery (iterator_alias : string) (iterator result : expr)
| BinOp (op : string) (lhs rhs : expr)
| UnaryOp (op : string) (operand : expr)
| FunctionCall (func : string) (args : list expr)
| IfElse (if_expr condition else_expr : expr)
| StringConstant (value : string)
| IntegerConstant (value : string) (is_negative : bool)
| BooleanConstant (value : string)
| FloatConstant (value : string) (is_negative : bool)
| SetLit (elements : list expr)
| Tuple (elements : list expr)
| NamedTuple (elements : list (string * expr))
| TypeCast (type_name : string) (e : expr)
| Path (partial : bool) (steps : list (step expr))
| OtherNode (children : list expr).

Local Set Elimination Schemes.

(** Equality of AST nodes, as consulted when two [IExpr] path elements are
    compared. *)
Fixpoint expr_eqb (a b : expr) {struct a} : bool :=
  match a, b with
  | SelectQuery al r w o off lim ra, SelectQuery al' r' w' o' off' lim' ra' =>
      list_eqb (fun x y => String.eqb (fst x) (fst y) && expr_eqb (snd x) (snd y)) al al'
      && expr_eqb r r'
      && option_eqb expr_eqb w w'
      && list_eqb (fun x y =>
                     expr_eqb (sort_path x) (sort_path y)
                     && option_eqb String.eqb (sort_direction x) (sort_direction y)
                     && option_eqb String.eqb (sort_nones_order x) (sort_nones_order y))
           o o'
      && option_eqb expr_eqb off off'
      && option_eqb expr_eqb lim lim'
      && option_eqb String.eqb ra ra'
  | ForQuery ia i r, ForQuery ia' i' r' =>
      String.eqb ia ia' && expr_eqb i i' && expr_eqb r r'
  | BinOp op l r, BinOp op' l' r' =>
      String.eqb op op' && expr_eqb l l' && expr_eqb r r'
  | UnaryOp op e, UnaryOp op' e' => String.eqb op op' && expr_eqb e e'
  | FunctionCall f args, FunctionCall f' args' =>
      String.eqb f f' && list_eqb expr_eqb args args'
  | IfElse x c y, IfElse x' c' y' =>
      expr_eqb x x' && expr_eqb c c' && expr_eqb y y'
  | StringConstant v, StringConstant v' => String.eqb v v'
  | IntegerConstant v n, IntegerConstant v' n' => String.eqb v v' && Bool.eqb n n'
  | BooleanConstant v, BooleanConstant v' => String.eqb v v'
  | FloatConstant v n, FloatConstant v' n' => String.eqb v v' && Bool.eqb n n'
  | SetLit es, SetLit es' => list_eqb expr_eqb es es'
  | Tuple es, Tuple es' => list_eqb expr_eqb es es'
  | NamedTuple es, NamedTuple es' =>
      list_eqb (fun x y => String.eqb (fst x) (fst y) && expr_eqb (snd x) (snd y)) es es'
  | TypeCast t e, TypeCast t' e' => String.eqb t t' && expr_eqb e e'
  | Path p ss, Path p' ss' =>
      Bool.eqb p p'
      && list_eqb (fun s s' =>
                     match s, s' with
                     | ObjectRef n, ObjectRef n' => String.eqb n n'
                     | Ptr n d, Ptr n' d' => String.eqb n n' && option_eqb String.eqb d d'
                     | TypeIntersection t, TypeIntersection t' => String.eqb t t'
                     | ExprStep e, ExprStep e' => expr_eqb e e'
                     | _, _ => false
                     end) ss ss'
  | OtherNode ks, OtherNode ks' => list_eqb expr_eqb ks ks'
  | _, _ => false
  end.

(** ** Sorting

    [sorted] and [list.sort] use [<] only.  When [<] orders the keys
    consistently (a strict weak ordering) the outcome is the one stable
    arrangement in rising order, that of a stable insertion sort.  When it
    does not - a NaN among the keys is enough - the outcome depends on the
    comparisons that the algorithm happens to make: a list of fewer than
    64 items is sorted by binary insertion after its first run, which is
    followed here; longer lists are merged in ways that are left outside
    the fragment, and so are lists with keys that cannot be compared. *)

Section Sorting.
Variable A : Type.
Variable lt : A -> A -> outcome bool.

Definition comparable (x y : A) : bool :=
  match lt x y with Ok _ => true | _ => false end.

Definition ltb_of (x y : A) : bool :=
  match lt x y with Ok b => b | _ => false end.

(** [x] goes in front of the first element it is not greater than, so
    that it stays before the elements equal to it that came after it. *)
Fixpoint insert_sorted (x : A) (l : list A) : list A :=
  match l with
  | [] => [x]
  | y :: l' => if ltb_of y x then y :: insert_sorted x l' else x :: y :: l'
  end.

Fixpoint isort (l : list A) : list A :=
  match l with
  | [] => []
  | x :: l' => insert_sorted x (isort l')
  end.

Definition all_comparable (l : list A) : bool :=
  forallb (fun x => forallb (comparable x) l) l.

(** Neither of the two is below the other. *)
Definition unordered (x y : A) : bool := negb (ltb_of x y) && negb (ltb_of y x).

(** [<] is a strict weak ordering of the items: nothing is below itself,
    and both [<] and being unordered are transitive. *)
Definition consistent (l : list A) : bool :=
  forallb
    (fun x =>
       negb (ltb_of x x)
       && forallb
            (fun y =>
               forallb
                 (fun z =>
                    implb (ltb_of x y && ltb_of y z) (ltb_of x z)
                    && implb (unordered x y && unordered y z) (unordered x z))
                 l)
            l)
    l.

(** [count_run]: the length of the run that starts the list, and whether
    it descends; [prev] is the item before [l]. *)
Fixpoint run_length (descending : bool) (prev : A) (l : list A) : nat :=
  match l with
  | [] => 0%nat
  | x :: l' =>
      if Bool.eqb (ltb_of x prev) descending
      then S (run_length descending x l')
      else 0%nat
  end.

Definition count_run (l : list A) : nat * bool :=
  match l with
  | [] => (0%nat, false)
  | [_] => (1%nat, false)
  | x :: y :: l' =>
      let descending := ltb_of y x in
      (S (S (run_length descending y l')), descending)
  end.

(** The binary search of [binarysort] for the place of [pivot] among the
    sorted items [pre], between the positions [l] and [r]. *)
Fixpoint search_place (steps : nat) (pivot : A) (pre : list A) (l r : nat) : nat :=
  match steps with
  | O => l
  | S steps' =>
      if (l <? r)%nat then
        let p := (l + Nat.div2 (r - l))%nat in
        match nth_error pre p with
        | Some y =>
            if ltb_of pivot y then search_place steps' pivot pre l p
            else search_place steps' pivot pre (S p) r
        | None => l
        end
      else l
  end.

(** [binarysort]: the items of [rest] are inserted, one after the other,
    into the sorted items [pre]. *)
Fixpoint binary_insertion (pre rest : list A) : list A :=
  match rest with
  | [] => pre
  | pivot :: rest' =>
      let k := search_place (List.length pre) pivot pre 0 (List.length pre) in
      binary_insertion (firstn k pre ++ pivot :: skipn k pre) rest'
  end.

(** [list.sort] on fewer than 64 items: the first run, turned round if it
    descends, then binary insertion of the other items. *)
Definition run_sort (l : list A) : list A :=
  let (n, descending) := count_run l in
  let run := firstn n l in
  binary_insertion (if descending then rev run else run) (skipn n l).

(** With [reverse=True] the list is reversed before and after. *)
Definition py_sorted (reverse : bool) (l : list A) : outcome (list A) :=
  if all_comparable l then
    if consistent l then Ok (if reverse then rev (isort (rev l)) else isort l)
    else if (List.length l <? 64)%nat
         then Ok (if reverse then rev (run_sort (rev l)) else run_sort l)
         else Unmodelled
  else Unmodelled.
End Sorting.

(** ** Internal paths *)

Section Paths.
Variable node : Type.
Variable node_eqb : node -> node -> bool.

Inductive IPathElement : Type :=
| IPartial
| IExpr (e : node)
| IORef (name : string)
| ITypeIntersection (typ : string)
| IPtr (ptr : string) (direction : option string).

Definition IPath : Type := list IPathElement.

(** The path elements are [NamedTuple]s: [==], [<] and hashing see only
    the tuple of field values, not the class. *)
Inductive field : Type :=
| FStr (s : string)
| FNone
| FNode (e : node).

Definition fields (x : IPathElement) : list field :=
  match x with
  | IPartial => []
  | IExpr e => [FNode e]
  | IORef name => [FStr name]
  | ITypeIntersection typ => [FStr typ]
  | IPtr ptr None => [FStr ptr; FNone]
  | IPtr ptr (Some d) => [FStr ptr; FStr d]
  end.

Definition field_eqb (a b : field) : bool :=
  match a, b with
  | FStr s, FStr t => String.eqb s t
  | FNone, FNone => true
  | FNode e, FNode e' => node_eqb e e'
  | _, _ => false
  end.

Definition field_lt (a b : field) : outcome bool :=
  match a, b with
  | FStr s, FStr t => Ok (String.ltb s t)
  | _, _ => Raise TypeError
  end.

Definition elem_eqb (x y : IPathElement) : bool :=
  list_eqb field_eqb (fields x) (fields y).

Definition elem_lt (x y : IPathElement) : outcome bool :=
  tuple_lt field_eqb field_lt (fields x) (fields y).

Definition path_eqb (p q : IPath) : bool := list_eqb elem_eqb p q.

Definition path_lt (p q : IPath) : outcome bool := tuple_lt elem_eqb elem_lt p q.

(** [p in l] *)
Definition path_in (p : IPath) (l : list IPath) : bool :=
  existsb (path_eqb p) l.

(** [l.index(p)], for [p in l] *)
Fixpoint path_index (p : IPath) (l : list IPath) : nat :=
  match l with
  | [] => 0%nat
  | q :: l' => if path_eqb p q then 0%nat else S (path_index p l')
  end.

Fixpoint longest_common_prefix (p1 p2 : IPath) : IPath :=
  match p1, p2 with
  | a :: p1', b :: p2' =>
      if elem_eqb a b then a :: longest_common_prefix p1' p2' else []
  | _, _ => []
  end.

(** A [set] of paths, kept as the list of its elements in the order in
    which they were first added. *)
Definition set_add (p : IPath) (s : list IPath) : list IPath :=
  if path_in p s then s else s ++ [p].

Definition is_nonempty {X : Type} (l : list X) : bool :=
  match l with [] => false | _ :: _ => true end.

(** The inner loop of [find_common_prefixes] for one [x]. *)
Definition scan_peers (x : IPath) (ys : list IPath) (prefixes : list IPath)
  : list IPath * bool :=
  fold_left
    (fun (st : list IPath * bool) (y : IPath) =>
       let pfx := longest_common_prefix x y in
       if is_nonempty pfx then (set_add pfx (fst st), true) else st)
    ys (prefixes, false).

Fixpoint find_common_prefixes_from (prefixes : list IPath)
         (direct_refs subquery_refs : list IPath) : list IPath :=
  match direct_refs with
  | [] => prefixes
  | x :: rest =>
      let '(prefixes', added) :=
        scan_peers x (direct_refs ++ subquery_refs) prefixes in
      find_common_prefixes_from
        (if added then prefixes' else set_add x prefixes')
        rest subquery_refs
  end.

Definition find_common_prefixes (direct_refs subquery_refs : list IPath)
  : list IPath :=
  find_common_prefixes_from [] direct_refs subquery_refs.

(** [[x for x in direct_refs if isinstance(x[0], IORef)]] *)
Fixpoint filter_objref_paths (direct_refs : list IPath) : outcome (list IPath) :=
  match direct_refs with
  | [] => Ok []
  | [] :: _ => Raise IndexError
  | (IORef n :: p) :: rest =>
      obind (filter_objref_paths rest) (fun r => Ok ((IORef n :: p) :: r))
  | (_ :: _) :: rest => filter_objref_paths rest
  end.

Definition make_query_input_list
           (direct_refs subquery_refs old : list IPath) : outcome (list IPath) :=
  obind (filter_objref_paths direct_refs) (fun direct_refs' =>
  let qil := find_common_prefixes direct_refs' subquery_refs in
  py_sorted path_lt false (filter (fun x => negb (path_in x old)) qil)).

End Paths.

(** ** Scalar primitives

    The Python callables that the basis tables wrap ([operator.add],
    [len], [int], ...), applied to the positional arguments [*args]. *)

Definition int_like (d : Data) : option Z :=
  match d with
  | DBool b => Some (Z.b2z b)
  | DInt z => Some z
  | _ => None
  end.

Definition is_zero (d : Data) : bool :=
  match numeric d with
  | Some x => is_Eq (num_compare x (FFinite 0 0))
  | None => false
  end.

(** Integer arithmetic; an operation that involves a float leaves the
    fragment, an operand that is not a number is a [TypeError]. *)
Definition int_arith (op : Z -> Z -> outcome Data) (a b : Data) : outcome Data :=
  match int_like a, int_like b with
  | Some x, Some y => op x y
  | _, _ =>
      match numeric a, numeric b with
      | Some _, Some _ => Unmodelled
      | _, _ => Raise TypeError
      end
  end.

Fixpoint repeat_list {A : Type} (n : nat) (l : list A) : list A :=
  match n with
  | O => []
  | S n' => l ++ repeat_list n' l
  end.

Fixpoint repeat_string (n : nat) (s : string) : string :=
  match n with
  | O => ""
  | S n' => s ++ repeat_string n' s
  end.

Definition py_add (a b : Data) : outcome Data :=
  match a, b with
  | DStr s, DStr t => Ok (DStr (s ++ t))
  | DTuple l, DTuple m => Ok (DTuple (l ++ m))
  | DList l, DList m => Ok (DList (l ++ m))
  | _, _ => int_arith (fun x y => Ok (DInt (x + y))) a b
  end.

Definition py_sub (a b : Data) : outcome Data :=
  int_arith (fun x y => Ok (DInt (x - y))) a b.

Definition py_mul (a b : Data) : outcome Data :=
  match a, b with
  | DStr s, (DInt _ | DBool _) =>
      match int_like b with
      | Some n => Ok (DStr (repeat_string (Z.to_nat n) s))
      | None => Raise TypeError
      end
  | (DInt _ | DBool _), DStr s =>
      match int_like a with
      | Some n => Ok (DStr (repeat_string (Z.to_nat n) s))
      | None => Raise TypeError
      end
  | DTuple l, (DInt _ | DBool _) =>
      match int_like b with
      | Some n => Ok (DTuple (repeat_list (Z.to_nat n) l))
      | None => Raise TypeError
      end
  | (DInt _ | DBool _), DTuple l =>
      match int_like a with
      | Some n => Ok (DTuple (repeat_list (Z.to_nat n) l))
      | None => Raise TypeError
      end
  | DList l, (DInt _ | DBool _) =>
      match int_like b with
      | Some n => Ok (DList (repeat_list (Z.to_nat n) l))
      | None => Raise TypeError
      end
  | (DInt _ | DBool _), DList l =>
      match int_like a with
      | Some n => Ok (DList (repeat_list (Z.to_nat n) l))
      | None => Raise TypeError
      end
  | _, _ => int_arith (fun x y => Ok (DInt (x * y))) a b
  end.

Definition py_truediv (a b : Data) : outcome Data :=
  match numeric a, numeric b with
  | Some _, Some _ => if is_zero b then Raise ZeroDivisionError else Unmodelled
  | _, _ => Raise TypeError
  end.

Definition py_floordiv (a b : Data) : outcome Data :=
  match numeric a, numeric b with
  | Some _, Some _ =>
      if is_zero b then Raise ZeroDivisionError
      else int_arith (fun x y => Ok (DInt (x / y))) a b
  | _, _ => Raise TypeError
  end.

Definition py_mod (a b : Data) : outcome Data :=
  match a with
  | DStr _ => Unmodelled          (* printf-style formatting *)
  | _ =>
      match numeric a, numeric b with
      | Some _, Some _ =>
          if is_zero b then Raise ZeroDivisionError
          else int_arith (fun x y => Ok (DInt (x mod y))) a b
      | _, _ => Raise TypeError
      end
  end.

Definition py_pow (a b : Data) : outcome Data :=
  int_arith
    (fun x y =>
       if (0 <=? y)%Z then Ok (DInt (x ^ y))
       else if (x =? 0)%Z then Raise ZeroDivisionError
       else Unmodelled)
    a b.

Definition py_or (a b : Data) : outcome Data :=
  match a, b with
  | DBool x, DBool y => Ok (DBool (x || y))
  | DDict _, DDict _ => Unmodelled
  | _, _ =>
      match int_like a, int_like b with
      | Some x, Some y => Ok (DInt (Z.lor x y))
      | _, _ => Raise TypeError
      end
  end.

Definition py_and (a b : Data) : outcome Data :=
  match a, b with
  | DBool x, DBool y => Ok (DBool (x && y))
  | _, _ =>
      match int_like a, int_like b with
      | Some x, Some y => Ok (DInt (Z.land x y))
      | _, _ => Raise TypeError
      end
  end.

Definition py_neg (a : Data) : outcome Data :=
  match a with
  | DBool b => Ok (DInt (- Z.b2z b))
  | DInt z => Ok (DInt (- z))
  | DFloat (FFinite m e) => Ok (DFloat (FFinite (- m) e))
  | DFloat (FInf s) => Ok (DFloat (FInf (negb s)))
  | DFloat (FNaN _) => Unmodelled      (* a new NaN object *)
  | _ => Raise TypeError
  end.

Definition py_pos (a : Data) : outcome Data :=
  match a with
  | DBool b => Ok (DInt (Z.b2z b))
  | DInt z => Ok (DInt z)
  | DFloat f => Ok (DFloat f)
  | _ => Raise TypeError
  end.

(** *** Casts *)

Definition is_digit (c : ascii) : bool :=
  let n := N_of_ascii c in ((48 <=? n) && (n <=? 57))%N.

(** Characters that may occur in a spelling accepted by [int(str)] other
    than a plain digit string: signs, underscores and blanks. *)
Definition is_int_punct (c : ascii) : bool :=
  let n := N_of_ascii c in
  ((n =? 43) || (n =? 45) || (n =? 95) || (n =? 32) || ((9 <=? n) && (n <=? 13)))%N.

Fixpoint string_forallb (f : ascii -> bool) (s : string) : bool :=
  match s with
  | EmptyString => true
  | String c s' => f c && string_forallb f s'
  end.

Fixpoint digits_value (acc : Z) (s : string) : Z :=
  match s with
  | EmptyString => acc
  | String c s' => digits_value (10 * acc + (Z.of_N (N_of_ascii c) - 48)) s'
  end.

(** Strings are kept as their UTF-8 bytes; a byte below 128 is an ASCII
    character. *)
Definition is_ascii (c : ascii) : bool := (N_of_ascii c <? 128)%N.

(** [sys.get_int_max_str_digits()]: the longest numeral that [int] reads
    and [str] writes; longer ones raise [ValueError]. *)
Definition int_max_str_digits : Z := 4300.

(** [int(s)]: a plain digit string is read as its value; a string with an
    ASCII character that no numeral contains is a [ValueError]; the other
    spellings accepted by [int] (signs, underscores, blanks, digits of
    other scripts) are left outside the fragment. *)
Definition int_of_str (s : string) : outcome Z :=
  match s with
  | EmptyString => Raise ValueError
  | _ =>
      if string_forallb is_digit s then
        if (Z.of_nat (String.length s) <=? int_max_str_digits)%Z
        then Ok (digits_value 0 s)
        else Raise ValueError
      else if string_forallb
                (fun c => is_digit c || is_int_punct c || negb (is_ascii c)) s
           then Unmodelled
           else Raise ValueError
  end.

Definition py_int (a : Data) : outcome Data :=
  match a with
  | DBool b => Ok (DInt (Z.b2z b))
  | DInt z => Ok (DInt z)
  | DFloat (FFinite m e) =>
      Ok (DInt (if (0 <=? e)%Z then m * 2 ^ e else Z.quot m (2 ^ (- e))))
  | DFloat (FInf _) => Raise OverflowError
  | DFloat (FNaN _) => Raise ValueError
  | DStr s => omap DInt (int_of_str s)
  | DUuid u => Ok (DInt (Z.of_N u))
  | _ => Raise TypeError
  end.

(** The decimal numeral of an integer, and the number of its digits. *)
Definition numeral (z : Z) : string :=
  DecimalString.NilZero.string_of_int (Z.to_int z).

Definition num_digits (z : Z) : Z :=
  Z.of_nat (String.length (numeral (Z.abs z))).

Definition py_str (a : Data) : outcome Data :=
  match a with
  | DStr s => Ok (DStr s)
  | DNone => Ok (DStr "None")
  | DBool true => Ok (DStr "True")
  | DBool false => Ok (DStr "False")
  | DInt z =>
      if (num_digits z <=? int_max_str_digits)%Z then Ok (DStr (numeral z))
      else Raise ValueError
  | _ => Unmodelled
  end.

(** *** [len], [in] *)

(** [len] of a string counts characters: the number of bytes, for a
    string of ASCII characters. *)
Definition py_len (a : Data) : outcome Data :=
  match a with
  | DStr s =>
      if string_forallb is_ascii s then Ok (DInt (Z.of_nat (String.length s)))
      else Unmodelled
  | DTuple l => Ok (DInt (Z.of_nat (List.length l)))
  | DList l => Ok (DInt (Z.of_nat (List.length l)))
  | DDict d => Ok (DInt (Z.of_nat (List.length d)))
  | _ => Raise TypeError
  end.

Fixpoint is_substring_fuel (n : nat) (t s : string) : bool :=
  String.prefix t s ||
  match n, s with
  | S n', String _ s' => is_substring_fuel n' t s'
  | _, _ => false
  end.

Definition is_substring (t s : string) : bool :=
  is_substring_fuel (String.length s) t s.

(** Instances of a class that defines [__eq__] without [__hash__], lists
    and dicts cannot be hashed. *)
Fixpoint hashable (a : Data) : bool :=
  match a with
  | DList _ => false
  | DDict _ => false
  | DObj _ _ => false
  | DTuple l =>
      (fix all (l : list Data) : bool :=
         match l with
         | [] => true
         | x :: l' => hashable x && all l'
         end) l
  | _ => true
  end.

(** [operator.contains(a, b)], i.e. [b in a] *)
Definition py_contains (a b : Data) : outcome Data :=
  match a with
  | DStr s =>
      match b with
      | DStr t => Ok (DBool (is_substring t s))
      | _ => Raise TypeError
      end
  | DTuple l => Ok (DBool (existsb (py_eq b) l))
  | DList l => Ok (DBool (existsb (py_eq b) l))
  | DDict d =>
      if hashable b then
        Ok (DBool (match b with
                   | DStr k => match dict_get k d with Some _ => true | None => false end
                   | _ => false
                   end))
      else Raise TypeError
  | _ => Raise TypeError
  end.

Definition py_round (args : list Data) : outcome Data :=
  match args with
  | [DBool b] => Ok (DInt (Z.b2z b))
  | [DInt z] => Ok (DInt z)
  | [DFloat _] => Unmodelled
  | [a; _] => match numeric a with Some _ => Unmodelled | None => Raise TypeError end
  | _ => Raise TypeError
  end.

(** Fixed-arity callables applied to [*args]. *)
Definition unary (f : Data -> outcome Data) (args : list Data) : M Data :=
  match args with
  | [a] => liftO (f a)
  | _ => raise TypeError
  end.

Definition binary (f : Data -> Data -> outcome Data) (args : list Data) : M Data :=
  match args with
  | [a; b] => liftO (f a b)
  | _ => raise TypeError
  end.

(** [random.random()] *)
Definition py_random (args : list Data) : M Data :=
  match args with
  | [] => fun r => let (x, r') := rng_next r in (Done (Ok (DFloat x)), r')
  | _ => raise TypeError
  end.

(** ** The basis: type modifiers and lifted implementations *)

Inductive TypeModifier : Type := SET_OF | OPTIONAL | SINGLETON.

Definition TypeModifier_eqb (a b : TypeModifier) : bool :=
  match a, b with
  | SET_OF, SET_OF => true
  | OPTIONAL, OPTIONAL => true
  | SINGLETON, SINGLETON => true
  | _, _ => false
  end.

Definition BASIS : list (string * list TypeModifier) :=
  [ ("count", [SET_OF]);
    ("sum", [SET_OF]);
    ("min", [SET_OF]);
    ("max", [SET_OF]);
    ("all", [SET_OF]);
    ("any", [SET_OF]);
    ("enumerate", [SET_OF]);
    ("IN", [SINGLETON; SET_OF]);
    ("??", [OPTIONAL; SET_OF]);
    ("EXISTS", [SET_OF]);
    ("DISTINCT", [SET_OF]);
    ("IF", [SET_OF; SINGLETON; SET_OF]);
    ("UNION", [SET_OF; SET_OF]);
    ("?=", [OPTIONAL; OPTIONAL]);
    ("?!=", [OPTIONAL; OPTIONAL]) ].

Definition LiftedFunc : Type := list (list Data) -> M (list Data).

(** [itertools.product] of the argument multisets: the rightmost argument
    advances fastest. *)
Fixpoint product {A : Type} (args : list (list A)) : list (list A) :=
  match args with
  | [] => [[]]
  | xs :: rest => flat_map (fun x => map (cons x) (product rest)) xs
  end.

(** [out.extend(val)] for a list, [out.append(val)] otherwise. *)
Definition splice (val : Data) : list Data :=
  match val with
  | DList l => l
  | _ => [val]
  end.

Definition lift (f : list Data -> M Data) : LiftedFunc :=
  fun args =>
    concatM (fun args1 => val <- f args1 ;; ret (splice val)) (product args).

Definition lift_set_of (f : list (list Data) -> outcome Data) : LiftedFunc :=
  fun args => v <- liftO (f args) ;; ret [v].

Definition py_eq_op (a b : Data) : outcome Data := Ok (DBool (py_equal a b)).
Definition py_ne_op (a b : Data) : outcome Data := Ok (DBool (negb (py_equal a b))).
Definition py_cmp_op (op : cmpop) (a b : Data) : outcome Data :=
  omap DBool (py_cmp op a b).
Definition py_not (a : Data) : outcome Data := Ok (DBool (negb (truthy a))).

(** [dedup]: keep an element unless an equal one was kept before. *)
Definition dedup_by {A : Type} (eqb : A -> A -> bool) (old : list A) : list A :=
  fold_left (fun new x => if existsb (eqb x) new then new else new ++ [x]) old [].

Definition dedup : list Data -> list Data := dedup_by py_eq.

Definition opt_eq : LiftedFunc :=
  fun args =>
    match args with
    | [x; y] =>
        if negb (is_nonempty x) || negb (is_nonempty y)
        then ret [DBool (Nat.eqb (List.length x) (List.length y))]
        else lift (binary py_eq_op) [x; y]
    | _ => raise TypeError
    end.

Definition opt_ne : LiftedFunc :=
  fun args =>
    match args with
    | [x; y] =>
        if negb (is_nonempty x) || negb (is_nonempty y)
        then ret [DBool (negb (Nat.eqb (List.length x) (List.length y)))]
        else lift (binary py_ne_op) [x; y]
    | _ => raise TypeError
    end.

Definition contains : LiftedFunc :=
  fun args =>
    match args with
    | [es; s] => ret (map (fun e => DBool (existsb (py_eq e) s)) es)
    | _ => raise TypeError
    end.

Definition coalesce : LiftedFunc :=
  fun args =>
    match args with
    | [x; y] => ret (if is_nonempty x then x else y)
    | _ => raise TypeError
    end.

Definition distinct : LiftedFunc :=
  fun args =>
    match args with
    | [x] => ret (dedup x)
    | _ => raise TypeError
    end.

Definition union : LiftedFunc :=
  fun args =>
    match args with
    | [x; y] => ret (x ++ y)
    | _ => raise TypeError
    end.

Fixpoint enumerate_from (i : Z) (x : list Data) : list Data :=
  match x with
  | [] => []
  | v :: x' => DTuple [DInt i; v] :: enumerate_from (i + 1) x'
  end.

Definition enumerate_ : LiftedFunc :=
  fun args =>
    match args with
    | [x] => ret (enumerate_from 0 x)
    | _ => raise TypeError
    end.

Definition if_ : LiftedFunc :=
  fun args =>
    match args with
    | [x; bs; y] => ret (flat_map (fun b => if truthy b then x else y) bs)
    | _ => raise TypeError
    end.

(** *** Aggregates, applied to [*args] *)

Definition agg_len (args : list (list Data)) : outcome Data :=
  match args with
  | [m] => Ok (DInt (Z.of_nat (List.length m)))
  | _ => Raise TypeError
  end.

Fixpoint sum_from (acc : Data) (m : list Data) : outcome Data :=
  match m with
  | [] => Ok acc
  | x :: m' => obind (py_add acc x) (fun acc' => sum_from acc' m')
  end.

Definition agg_sum (args : list (list Data)) : outcome Data :=
  match args with
  | [m] => sum_from (DInt 0) m
  | [m; start] => sum_from (DList start) m
  | _ => Raise TypeError
  end.

(** [min]/[max] keep the current extreme and replace it by an item that
    compares strictly below/above it. *)
Fixpoint extreme_from (op : cmpop) (cur : Data) (m : list Data) : outcome Data :=
  match m with
  | [] => Ok cur
  | x :: m' =>
      obind (py_cmp op x cur) (fun b => extreme_from op (if b then x else cur) m')
  end.

Definition extreme (op : cmpop) (items : list Data) : outcome Data :=
  match items with
  | [] => Raise ValueError
  | x :: m' => extreme_from op x m'
  end.

Definition agg_extreme (op : cmpop) (args : list (list Data)) : outcome Data :=
  match args with
  | [] => Raise TypeError
  | [m] => extreme op m
  | _ => extreme op (map DList args)
  end.

Definition agg_min : list (list Data) -> outcome Data := agg_extreme OpLt.
Definition agg_max : list (list Data) -> outcome Data := agg_extreme OpGt.

Definition agg_all (args : list (list Data)) : outcome Data :=
  match args with
  | [m] => Ok (DBool (forallb truthy m))
  | _ => Raise TypeError
  end.

Definition agg_any (args : list (list Data)) : outcome Data :=
  match args with
  | [m] => Ok (DBool (existsb truthy m))
  | _ => Raise TypeError
  end.

Definition agg_bool (args : list (list Data)) : outcome Data :=
  match args with
  | [] => Ok (DBool false)
  | [m] => Ok (DBool (is_nonempty m))
  | _ => Raise TypeError
  end.

(** *** The implementation tables *)

Definition _BASIS_BINOP_IMPLS : list (string * LiftedFunc) :=
  [ ("+", lift (binary py_add));
    ("-", lift (binary py_sub));
    ("*", lift (binary py_mul));
    ("/", lift (binary py_truediv));
    ("//", lift (binary py_floordiv));
    ("%", lift (binary py_mod));
    ("++", lift (binary py_add));
    ("=", lift (binary py_eq_op));
    ("!=", lift (binary py_ne_op));
    ("<", lift (binary (py_cmp_op OpLt)));
    ("<=", lift (binary (py_cmp_op OpLe)));
    (">", lift (binary (py_cmp_op OpGt)));
    (">=", lift (binary (py_cmp_op OpGe)));
    ("^", lift (binary py_pow));
    ("OR", lift (binary py_or));
    ("AND", lift (binary py_and));
    ("?=", opt_eq);
    ("?!=", opt_ne);
    ("IN", contains);
    ("??", coalesce);
    ("UNION", union);
    ("IF", if_) ].

Definition _BASIS_UNOP_IMPLS : list (string * LiftedFunc) :=
  [ ("-", lift (unary py_neg));
    ("+", lift (unary py_pos));
    ("NOT", lift (unary py_not));
    ("EXISTS", lift_set_of agg_bool);
    ("DISTINCT", distinct) ].

Definition _BASIS_CAST_IMPLS : list (string * LiftedFunc) :=
  [ ("str", lift (unary py_str));
    ("int32", lift (unary py_int));
    ("int64", lift (unary py_int)) ].

Definition _BASIS_FUNC_IMPLS : list (string * LiftedFunc) :=
  [ ("enumerate", enumerate_);
    ("count", lift_set_of agg_len);
    ("sum", lift_set_of agg_sum);
    ("min", lift_set_of agg_min);
    ("max", lift_set_of agg_max);
    ("all", lift_set_of agg_all);
    ("any", lift_set_of agg_any);
    ("len", lift (unary py_len));
    ("random", lift py_random);
    ("contains", lift (binary py_contains));
    ("round", lift (fun args => liftO (py_round args))) ].

Definition BASIS_IMPLS : list (string * string * LiftedFunc) :=
  flat_map
    (fun ti : string * list (string * LiftedFunc) =>
       map (fun ki : string * LiftedFunc => (fst ti, fst ki, snd ki)) (snd ti))
    [ ("binop", _BASIS_BINOP_IMPLS);
      ("unop", _BASIS_UNOP_IMPLS);
      ("cast", _BASIS_CAST_IMPLS);
      ("func", _BASIS_FUNC_IMPLS) ].

(** [BASIS_IMPLS[typ, op]] *)
Fixpoint impls_get (typ op : string) (t : list (string * string * LiftedFunc))
  : option LiftedFunc :=
  match t with
  | [] => None
  | (typ', op', f) :: t' =>
      if String.eqb typ typ' && String.eqb op op' then Some f
      else impls_get typ op t'
  end.

(** ** Path analysis *)

Abbreviation EPathElement := (IPathElement expr).
Abbreviation EPath := (list (IPathElement expr)).

Definition epath_eqb : EPath -> EPath -> bool := path_eqb expr_eqb.
Definition epath_in : EPath -> list EPath -> bool := path_in expr_eqb.

(** An entry of [PathFinder.paths]: the [qlast.Path] node and the two
    flags under which it was met. *)
Record found_path : Type := mkFound {
  fp_partial : bool;
  fp_steps : list (step expr);
  fp_optional : bool;
  fp_subquery : bool
}.

Definition oconcat_map {A B : Type} (f : A -> outcome (list B))
  : list A -> outcome (list B) :=
  fix go (l : list A) : outcome (list B) :=
    match l with
    | [] => Ok []
    | x :: l' => obind (f x) (fun ys => obind (go l') (fun zs => Ok (ys ++ zs)))
    end.

Definition omap_list {A B : Type} (f : A -> outcome B) : list A -> outcome (list B) :=
  fix go (l : list A) : outcome (list B) :=
    match l with
    | [] => Ok []
    | x :: l' => obind (f x) (fun y => obind (go l') (fun ys => Ok (y :: ys)))
    end.

Definition upper_ascii (c : ascii) : ascii :=
  let n := N_of_ascii c in
  if ((97 <=? n) && (n <=? 122))%N then ascii_of_N (n - 32) else c.

(** [str.upper], on ASCII letters *)
Fixpoint upper (s : string) : string :=
  match s with
  | EmptyString => EmptyString
  | String c s' => String (upper_ascii c) (upper s')
  end.

(** The flags under which argument [i] of [op] is visited. *)
Definition arg_flags (arg_specs : option (list TypeModifier)) (i : nat)
           (in_optional in_subquery : bool) : outcome (bool * bool) :=
  match arg_specs with
  | Some ((_ :: _) as specs) =>
      match nth_error specs i with
      | None => Raise IndexError
      | Some SET_OF => Ok (in_optional, true)
      | Some OPTIONAL => Ok (true, in_subquery)
      | Some SINGLETON => Ok (in_optional, in_subquery)
      end
  | _ => Ok (in_optional, in_subquery)
  end.

(** [PathFinder.visit].  Modelled from the spec: the generic traversal of
    [edb.common.ast.NodeVisitor] is not part of the sources; child nodes
    are taken in the order of the constructor arguments, flags unchanged. *)
Fixpoint visit (e : expr) (in_optional in_subquery : bool) {struct e}
  : outcome (list found_path) :=
  let visit_args (op : string) :=
    fix go (i : nat) (args : list expr) {struct args} : outcome (list found_path) :=
      match args with
      | [] => Ok []
      | arg :: args' =>
          obind (arg_flags (dict_get op BASIS) i in_optional in_subquery) (fun fl =>
          obind (visit arg (fst fl) (snd fl)) (fun ys =>
          obind (go (S i) args') (fun zs => Ok (ys ++ zs))))
      end in
  let visit_opt (o : option expr) (s : bool) : outcome (list found_path) :=
    match o with
    | None => Ok []
    | Some x => visit x in_optional s
    end in
  match e with
  | Path partial steps =>
      obind
        (oconcat_map
           (fun s => match s with
                     | ExprStep x => visit x in_optional in_subquery
                     | _ => Ok []
                     end) steps)
        (fun inner => Ok (mkFound partial steps in_optional in_subquery :: inner))
  | SelectQuery aliases result where_ orderby offset limit _ =>
      obind (oconcat_map (fun a => visit (snd a) in_optional true) aliases) (fun p1 =>
      obind (visit result in_optional true) (fun p2 =>
      obind (visit_opt where_ true) (fun p3 =>
      obind (oconcat_map (fun s => visit (sort_path s) in_optional true) orderby) (fun p4 =>
      obind (visit_opt offset true) (fun p5 =>
      obind (visit_opt limit true) (fun p6 =>
      Ok (p1 ++ p2 ++ p3 ++ p4 ++ p5 ++ p6)))))))
  | ForQuery _ iterator result =>
      obind (visit iterator in_optional true) (fun p1 =>
      obind (visit result in_optional true) (fun p2 => Ok (p1 ++ p2)))
  | BinOp op lhs rhs => visit_args (upper op) 0%nat [lhs; rhs]
  | UnaryOp op operand => visit_args (upper op) 0%nat [operand]
  | FunctionCall func args => visit_args func 0%nat args
  | IfElse if_expr condition else_expr =>
      visit_args "IF" 0%nat [if_expr; condition; else_expr]
  | StringConstant _ => Ok []
  | IntegerConstant _ _ => Ok []
  | BooleanConstant _ => Ok []
  | FloatConstant _ _ => Ok []
  | SetLit elements => oconcat_map (fun x => visit x in_optional in_subquery) elements
  | Tuple elements => oconcat_map (fun x => visit x in_optional in_subquery) elements
  | NamedTuple elements =>
      oconcat_map (fun x => visit (snd x) in_optional in_subquery) elements
  | TypeCast _ x => visit x in_optional in_subquery
  | OtherNode children =>
      oconcat_map (fun x => visit x in_optional in_subquery) children
  end.

Definition find_paths (e : expr) (extra_subqs : list (option expr))
  : outcome (list found_path) :=
  obind (visit e false false) (fun p1 =>
  obind (oconcat_map
           (fun o => match o with
                     | None => Ok []
                     | Some x => visit x false true
                     end) extra_subqs) (fun p2 =>
  Ok (p1 ++ p2))).

Fixpoint simplify_steps (spath : EPath) (steps : list (step expr)) : outcome EPath :=
  match steps with
  | [] => Ok spath
  | ObjectRef name :: steps' =>
      if is_nonempty spath then Raise AssertionError
      else simplify_steps (spath ++ [IORef expr name]) steps'
  | Ptr name direction :: steps' =>
      simplify_steps (spath ++ [IPtr expr name direction]) steps'
  | TypeIntersection t :: steps' =>
      simplify_steps (spath ++ [ITypeIntersection expr t]) steps'
  | ExprStep x :: steps' =>
      if is_nonempty spath then Raise AssertionError
      else simplify_steps (spath ++ [IExpr x]) steps'
  end.

Definition simplify_path (partial : bool) (steps : list (step expr)) : outcome EPath :=
  simplify_steps (if partial then [IPartial expr] else []) steps.

(** [path[:i] for i in range(1, len(path) + 1)] *)
Definition path_prefixes (p : EPath) : list EPath :=
  map (fun i => firstn i p) (seq 1 (List.length p)).

(** [always_optional] is a [defaultdict] with default [True]; it is kept
    as the list of the keys that were set to [False]. *)
Definition always_optional_get (never_optional : list EPath) (p : EPath) : bool :=
  negb (epath_in p never_optional).

Definition classify_paths (paths_opt : list (EPath * bool * bool))
  : list EPath * list EPath * list EPath :=
  fold_left
    (fun (acc : list EPath * list EPath * list EPath) (x : EPath * bool * bool) =>
       let '(direct_paths, subquery_paths, never_optional) := acc in
       let '(path, optional, subquery) := x in
       if subquery then (direct_paths, subquery_paths ++ [path], never_optional)
       else (direct_paths ++ [path], subquery_paths,
             if optional then never_optional
             else never_optional ++ path_prefixes path))
    paths_opt ([], [], []).

Definition analyze_paths (q : expr) (extra_subqs : list (option expr))
  : outcome (list EPath * list EPath * list EPath) :=
  obind (find_paths q extra_subqs) (fun found =>
  obind (omap_list
           (fun f => omap (fun p => (p, fp_optional f, fp_subquery f))
                          (simplify_path (fp_partial f) (fp_steps f)))
           found) (fun paths_opt =>
  Ok (classify_paths paths_opt))).

(** ** The evaluator *)

Record EvalContext : Type := mkCtx {
  query_input_list : list EPath;
  input_tuple : Row;
  aliases : list (string * list Data);
  db : DB
}.

Definition with_input (ctx : EvalContext) (qil : list EPath) (row : Row) : EvalContext :=
  mkCtx qil row (aliases ctx) (db ctx).

Definition with_aliases (ctx : EvalContext) (al : list (string * list Data))
  : EvalContext :=
  mkCtx (query_input_list ctx) (input_tuple ctx) al (db ctx).

(** [l[i]] with Python's negative indices *)
Definition py_index {A : Type} (l : list A) (i : Z) : outcome A :=
  let n := Z.of_nat (List.length l) in
  let j := if (i <? 0)%Z then i + n else i in
  if ((j <? 0) || (n <=? j))%Z then Raise IndexError
  else match nth_error l (Z.to_nat j) with
       | Some x => Ok x
       | None => Raise IndexError
       end.

(** [l[n:]] and [l[:n]] *)
Definition slice_from {A : Type} (n : Z) (l : list A) : list A :=
  let len := Z.of_nat (List.length l) in
  skipn (Z.to_nat (if (n <? 0)%Z then Z.max 0 (len + n) else n)) l.

Definition slice_to {A : Type} (n : Z) (l : list A) : list A :=
  let len := Z.of_nat (List.length l) in
  firstn (Z.to_nat (if (n <? 0)%Z then Z.max 0 (len + n) else n)) l.

(** [row[-1]] *)
Definition last_col (row : Row) : outcome Data := py_index row (-1).

Definition get_links (obj : Record) (key : string) : list Data :=
  match dict_get key obj with
  | None => []
  | Some (DList l) => l
  | Some out => [out]
  end.

(** [Obj(obj["id"])] *)
Definition obj_of_record (obj : Record) : outcome Data :=
  match dict_get "id" obj with
  | None => Raise KeyError
  | Some (DUuid u) => Ok (Obj u)
  | Some _ => Unmodelled
  end.

Definition eval_fwd_ptr (base : Data) (ptr : string) (ctx : EvalContext)
  : outcome (list Data) :=
  match base with
  | DTuple l =>
      obind (int_of_str ptr) (fun i => obind (py_index l i) (fun x => Ok [x]))
  | DObj id _ =>
      match db_get id (db ctx) with
      | None => Raise KeyError
      | Some obj => Ok (get_links obj ptr)
      end
  | DDict d =>
      match dict_get ptr d with
      | Some v => Ok [v]
      | None => Raise KeyError
      end
  | _ => Raise TypeError
  end.

Definition eval_bwd_ptr (base : Data) (ptr : string) (ctx : EvalContext)
  : outcome (list Data) :=
  oconcat_map
    (fun kv : uuid * Record =>
       if existsb (py_eq base) (get_links (snd kv) ptr)
       then obind (obj_of_record (snd kv)) (fun o => Ok [o])
       else Ok [])
    (db ctx).

Definition eval_ptr (base : Data) (ptr : string) (direction : option string)
           (ctx : EvalContext) : outcome (list Data) :=
  match direction with
  | Some ">" => eval_fwd_ptr base ptr ctx
  | _ => eval_bwd_ptr base ptr ctx
  end.

Definition eval_intersect (base : Data) (typ : string) (ctx : EvalContext)
  : outcome (list Data) :=
  match base with
  | DDict d =>
      match dict_get "id" d with
      | None => Raise KeyError
      | Some (DUuid u) =>
          match db_get u (db ctx) with
          | None => Raise KeyError
          | Some obj =>
              match dict_get "__type__" obj with
              | None => Raise KeyError
              | Some t => Ok (if py_equal t (DStr typ) then [base] else [])
              end
          end
      | Some k => if hashable k then Raise KeyError else Raise TypeError
      end
  | _ => Raise TypeError       (* [base["id"]] on an [Obj], a tuple, a scalar *)
  end.

Definition eval_objref (name : string) (ctx : EvalContext) : outcome (list Data) :=
  match dict_get name (aliases ctx) with
  | Some vals => Ok vals
  | None =>
      oconcat_map
        (fun kv : uuid * Record =>
           match dict_get "__type__" (snd kv) with
           | None => Raise KeyError
           | Some t =>
               if py_equal t (DStr name)
               then obind (obj_of_record (snd kv)) (fun o => Ok [o])
               else Ok []
           end)
        (db ctx)
  end.

Definition is_Obj (d : Data) : bool :=
  match d with DObj _ _ => true | _ => false end.

Definition head_is_Obj (l : list Data) : bool :=
  match l with x :: _ => is_Obj x | [] => false end.

(** The slot of a bound path: [None] is the marker of a missing value. *)
Definition bound_value (obj : Data) : list Data :=
  match obj with
  | DNone => []
  | _ => [obj]
  end.

Section Evaluator.
(** The recursive call [eval(node, ctx)]. *)
Variable ev : expr -> EvalContext -> M (list Data).

(** The case [len(path) == 1] of [eval_path]. *)
Definition eval_path_base (head : EPathElement) (ctx : EvalContext) : M (list Data) :=
  match head with
  | IORef _ name => liftO (eval_objref name ctx)
  | IExpr e => ev e ctx
  | _ => raise AssertionError
  end.

(** The last case of [eval_path]: apply the last element to each value of
    the path without it ... *)
Definition navigate_raw (ptr : EPathElement) (base : list Data) (ctx : EvalContext)
  : outcome (list Data) :=
  match ptr with
  | IPtr _ p direction => oconcat_map (fun obj => eval_ptr obj p direction ctx) base
  | ITypeIntersection _ typ => oconcat_map (fun obj => eval_intersect obj typ ctx) base
  | _ => Raise AssertionError
  end.

(** ... and deduplicate links. *)
Definition navigate (ptr : EPathElement) (base : list Data) (ctx : EvalContext)
  : M (list Data) :=
  out <- liftO (navigate_raw ptr base ctx) ;;
  ret (if head_is_Obj base && head_is_Obj out then dedup out else out).

(** [eval_path], by recursion on the reversed path: [rpath] is
    [reversed(path)], so that [path[:-1]] is its tail. *)
Fixpoint eval_path_rev (rpath : EPath) (ctx : EvalContext) {struct rpath}
  : M (list Data) :=
  if epath_in (rev rpath) (query_input_list ctx) then
    match nth_error (input_tuple ctx)
            (path_index expr_eqb (rev rpath) (query_input_list ctx)) with
    | None => raise IndexError
    | Some obj => ret (bound_value obj)
    end
  else
    match rpath with
    | [] => raise RecursionError
    | ptr :: rbase =>
        match rbase with
        | [] => eval_path_base ptr ctx
        | _ :: _ => base <- eval_path_rev rbase ctx ;; navigate ptr base ctx
        end
    end.

Definition eval_path (path : EPath) (ctx : EvalContext) : M (list Data) :=
  eval_path_rev (rev path) ctx.

(** One column of [build_input_tuples]: extend every row by the values
    of [in_path], or by the missing marker. *)
Definition extend_row (out : list Data) (optional : bool) (row : Row) : list Row :=
  map (fun val => row ++ [val]) out
  ++ (if negb (is_nonempty out) && optional then [row ++ [DNone]] else []).

Fixpoint build_columns (done todo : list EPath) (never_optional : list EPath)
         (ctx : EvalContext) (data : list Row) : M (list Row) :=
  match todo with
  | [] => ret data
  | in_path :: todo' =>
      let new_qil := query_input_list ctx ++ done in
      new_data <- concatM
                    (fun row =>
                       out <- eval_path in_path (with_input ctx new_qil row) ;;
                       ret (extend_row out (always_optional_get never_optional in_path) row))
                    data ;;
      build_columns (done ++ [in_path]) todo' never_optional ctx new_data
  end.

Definition build_input_tuples (qil : list EPath) (never_optional : list EPath)
           (ctx : EvalContext) : M (list Row) :=
  build_columns [] qil never_optional ctx [input_tuple ctx].

Definition subquery_full (q : expr) (extra_subqs : list (option expr))
           (ctx : EvalContext) : M (list EPath * list Row) :=
  '(direct_paths, subquery_paths, never_optional) <-
     liftO (analyze_paths q extra_subqs) ;;
  qil <- liftO (make_query_input_list expr_eqb direct_paths subquery_paths
                  (query_input_list ctx)) ;;
  in_tuples <- build_input_tuples qil never_optional ctx ;;
  let new_qil := query_input_list ctx ++ qil in
  out <- concatM
           (fun row =>
              vals <- ev q (with_input ctx new_qil row) ;;
              ret (map (fun val => row ++ [val]) vals))
           in_tuples ;;
  ret (new_qil, out).

Definition subquery (q : expr) (ctx : EvalContext) : M (list Data) :=
  '(_, rows) <- subquery_full q [] ctx ;;
  liftO (omap_list last_col rows).

Definition eval_filter (where_ : option expr) (qil : list EPath)
           (out : list Row) (ctx : EvalContext) : M (list Row) :=
  match where_ with
  | None => ret out
  | Some w =>
      concatM
        (fun row =>
           vals <- subquery w (with_input ctx qil row) ;;
           ret (if existsb truthy vals then [row] else []))
        out
  end.

Definition nones_bigger (sort : SortExpr expr) : bool :=
  (option_eqb String.eqb (sort_direction sort) (Some "ASC")
   && option_eqb String.eqb (sort_nones_order sort) (Some "last"))
  || (option_eqb String.eqb (sort_direction sort) (Some "DESC")
      && option_eqb String.eqb (sort_nones_order sort) (Some "first")).

(** The sort key of a row: [((tag, value),)] or [((tag,),)]. *)
Definition sort_key (nb : bool) (vals : list Data) : Data :=
  DTuple [match vals with
          | v :: _ => DTuple [DBool (negb nb); v]
          | [] => DTuple [DBool nb]
          end].

Definition decorate_row (sort : SortExpr expr) (qil : list EPath)
           (ctx : EvalContext) (row : Row) : M (Row * Data) :=
  vals <- subquery (sort_path sort) (with_input ctx qil row) ;;
  if (List.length vals <=? 1)%nat
  then ret (row, sort_key (nones_bigger sort) vals)
  else raise AssertionError.

Definition decorate (sort : SortExpr expr) (qil : list EPath)
           (out : list Row) (ctx : EvalContext) : M (list (Row * Data)) :=
  mapM (decorate_row sort qil ctx) out.

Definition key_lt (x y : Row * Data) : outcome bool := py_lt (snd x) (snd y).

Definition orderby_pass (sort : SortExpr expr) (qil : list EPath)
           (out : list Row) (ctx : EvalContext) : M (list Row) :=
  new <- decorate sort qil out ctx ;;
  sorted <- liftO (py_sorted key_lt
                     (option_eqb String.eqb (sort_direction sort) (Some "DESC"))
                     new) ;;
  ret (map fst sorted).

Definition eval_orderby (orderby : list (SortExpr expr)) (qil : list EPath)
           (out : list Row) (ctx : EvalContext) : M (list Row) :=
  fold_left
    (fun (acc : M (list Row)) (sort : SortExpr expr) =>
       out' <- acc ;; orderby_pass sort qil out' ctx)
    (rev orderby) (ret out).

(** [int(res[0])] of a clause that must yield exactly one value *)
Definition clause_int (res : list Data) : outcome Z :=
  match res with
  | [v] =>
      obind (py_int v) (fun d =>
      match d with DInt n => Ok n | _ => Raise TypeError end)
  | _ => Raise AssertionError
  end.

Definition eval_offset (offset : option expr) (out : list Row)
           (ctx : EvalContext) : M (list Row) :=
  match offset with
  | None => ret out
  | Some e =>
      res <- subquery e ctx ;;
      n <- liftO (clause_int res) ;;
      ret (slice_from n out)
  end.

Definition eval_limit (limit : option expr) (out : list Row)
           (ctx : EvalContext) : M (list Row) :=
  match limit with
  | None => ret out
  | Some e =>
      res <- subquery e ctx ;;
      n <- liftO (clause_int res) ;;
      ret (slice_to n out)
  end.

Fixpoint bind_aliases (al : list (string * expr)) (ctx : EvalContext)
  : M EvalContext :=
  match al with
  | [] => ret ctx
  | (alias, e) :: al' =>
      vals <- subquery e ctx ;;
      bind_aliases al' (with_aliases ctx (dict_set alias vals (aliases ctx)))
  end.

Definition truthy_name (o : option string) : option string :=
  match o with
  | Some "" => None
  | _ => o
  end.

Definition eval_Select (aliases_ : list (string * expr)) (result : expr)
           (where_ : option expr) (orderby : list (SortExpr expr))
           (offset limit : option expr) (result_alias : option string)
           (ctx : EvalContext) : M (list Data) :=
  ctx <- bind_aliases aliases_ ctx ;;
  let subqs := where_ :: map (fun x => Some (sort_path x)) orderby in
  '(new_qil, out) <- subquery_full result subqs ctx ;;
  let new_qil := new_qil ++ [[IPartial expr]] in
  '(new_qil, out) <-
     match truthy_name result_alias with
     | Some a =>
         out' <- liftO (omap_list
                          (fun row => omap (fun x => row ++ [x]) (last_col row))
                          out) ;;
         ret (new_qil ++ [[IORef expr a]], out')
     | None => ret (new_qil, out)
     end ;;
  out <- eval_filter where_ new_qil out ctx ;;
  out <- eval_orderby orderby new_qil out ctx ;;
  out <- eval_offset offset out ctx ;;
  out <- eval_limit limit out ctx ;;
  liftO (omap_list last_col out).

Definition eval_For (iterator_alias : string) (iterator result : expr)
           (ctx : EvalContext) : M (list Data) :=
  iter_vals <- subquery iterator ctx ;;
  let qil := query_input_list ctx ++ [[IORef expr iterator_alias]] in
  concatM
    (fun val =>
       subquery result (with_input ctx qil (input_tuple ctx ++ [val])))
    iter_vals.

(** Whether argument [i] of [op] is evaluated as a subquery. *)
Definition arg_is_set_of (arg_specs : option (list TypeModifier)) (i : nat)
  : outcome bool :=
  match arg_specs with
  | Some ((_ :: _) as specs) =>
      match nth_error specs i with
      | None => Raise IndexError
      | Some m => Ok (TypeModifier_eqb m SET_OF)
      end
  | _ => Ok false
  end.

Fixpoint eval_args (arg_specs : option (list TypeModifier)) (i : nat)
         (args : list expr) (ctx : EvalContext) : M (list (list Data)) :=
  match args with
  | [] => ret []
  | arg :: args' =>
      set_of <- liftO (arg_is_set_of arg_specs i) ;;
      res <- (if set_of then subquery arg ctx else ev arg ctx) ;;
      rest <- eval_args arg_specs (S i) args' ctx ;;
      ret (res :: rest)
  end.

Definition eval_func_or_op (op : string) (args : list expr) (typ : string)
           (ctx : EvalContext) : M (list Data) :=
  results <- eval_args (dict_get op BASIS) 0%nat args ctx ;;
  match impls_get typ op BASIS_IMPLS with
  | None => raise KeyError
  | Some f => f results
  end.

Definition sign (is_negative : bool) : Z := if is_negative then -1 else 1.

(** The handlers registered on [_eval], by node class. *)
Definition eval_node (node : expr) (ctx : EvalContext) : M (list Data) :=
  match node with
  | SelectQuery al result where_ orderby offset limit result_alias =>
      eval_Select al result where_ orderby offset limit result_alias ctx
  | ForQuery iterator_alias iterator result =>
      eval_For iterator_alias iterator result ctx
  | BinOp op lhs rhs => eval_func_or_op (upper op) [lhs; rhs] "binop" ctx
  | UnaryOp op operand => eval_func_or_op (upper op) [operand] "unop" ctx
  | FunctionCall func args => eval_func_or_op func args "func" ctx
  | IfElse if_expr condition else_expr =>
      eval_func_or_op "IF" [if_expr; condition; else_expr] "binop" ctx
  | StringConstant value => ret [DStr value]
  | IntegerConstant value is_negative =>
      n <- liftO (int_of_str value) ;; ret [DInt (n * sign is_negative)]
  | BooleanConstant value => ret [DBool (String.eqb value "true")]
  | FloatConstant _ _ => liftO Unmodelled
  | SetLit elements => concatM (fun elem => ev elem ctx) elements
  | Tuple elements =>
      args <- mapM (fun arg => ev arg ctx) elements ;;
      lift (fun va => ret (DTuple va)) args
  | NamedTuple elements =>
      let names := map fst elements in
      args <- mapM (fun arg => ev (snd arg) ctx) elements ;;
      lift (fun va =>
              ret (DDict (fold_left (fun d kv => dict_set (fst kv) (snd kv) d)
                                    (combine names va) [])))
           args
  | TypeCast typ e =>
      match impls_get "cast" typ BASIS_IMPLS with
      | None => raise KeyError
      | Some f => vals <- ev e ctx ;; f [vals]
      end
  | Path partial steps =>
      path <- liftO (simplify_path partial steps) ;;
      eval_path path ctx
  | OtherNode _ => raise NotImplementedError
  end.
End Evaluator.

(** [eval]: the dispatch, with a bound on the depth of the recursion. *)
Fixpoint eval (fuel : nat) (node : expr) (ctx : EvalContext) : M (list Data) :=
  match fuel with
  | O => fun r => (OutOfFuel, r)
  | S fuel' => eval_node (eval fuel') node ctx
  end.

(** *** Cleaning and the entry point *)

Fixpoint clean_data (x : Data) : Data :=
  match x with
  | DObj _ shape =>
      DDict ((fix go (d : list (string * Data)) : list (string * Data) :=
                match d with
                | [] => []
                | (k, v) :: d' => (k, clean_data v) :: go d'
                end) shape)
  | DDict d =>
      DDict ((fix go (d : list (string * Data)) : list (string * Data) :=
                match d with
                | [] => []
                | (k, v) :: d' => (k, clean_data v) :: go d'
                end) d)
  | DTuple l => DTuple (map clean_data l)
  | DList l => DList (map clean_data l)
  | _ => x
  end.

Definition empty_ctx (db : DB) : EvalContext := mkCtx [] [] [] db.

Definition go_fuel (fuel : nat) (q : expr) (db : DB) : M (list Data) :=
  out <- subquery (eval fuel) q (empty_ctx db) ;;
  ret (map clean_data out).

(** The depth of a query bounds the depth of the recursion of [eval]. *)
Definition list_max (l : list nat) : nat := fold_right Nat.max 0%nat l.

Fixpoint expr_depth (e : expr) : nat :=
  let opt (o : option expr) : nat :=
    match o with Some x => expr_depth x | None => 0%nat end in
  S (match e with
     | SelectQuery al r w o off lim _ =>
         list_max [list_max (map (fun a => expr_depth (snd a)) al);
                   expr_depth r; opt w;
                   list_max (map (fun s => expr_depth (sort_path s)) o);
                   opt off; opt lim]
     | ForQuery _ i r => Nat.max (expr_depth i) (expr_depth r)
     | BinOp _ l r => Nat.max (expr_depth l) (expr_depth r)
     | UnaryOp _ x => expr_depth x
     | FunctionCall _ args => list_max (map expr_depth args)
     | IfElse x c y => list_max [expr_depth x; expr_depth c; expr_depth y]
     | StringConstant _ => 0%nat
     | IntegerConstant _ _ => 0%nat
     | BooleanConstant _ => 0%nat
     | FloatConstant _ _ => 0%nat
     | SetLit es => list_max (map expr_depth es)
     | Tuple es => list_max (map expr_depth es)
     | NamedTuple es => list_max (map (fun a => expr_depth (snd a)) es)
     | TypeCast _ x => expr_depth x
     | Path _ steps =>
         list_max (map (fun s => match s with
                                 | ExprStep x => expr_depth x
                                 | _ => 0%nat
                                 end) steps)
     | OtherNode ks => list_max (map expr_depth ks)
     end).

(** [go(q, db)] *)
Definition go (q : expr) (db : DB) : M (list Data) :=
  go_fuel (expr_depth q) q db.

(** ** The toy database *)

(** [mk_db]: [{x["id"]: x for x in data}] *)
Fixpoint mk_db_from (acc : DB) (data : list Record) : outcome DB :=
  match data with
  | [] => Ok acc
  | x :: data' =>
      match dict_get "id" x with
      | None => Raise KeyError
      | Some (DUuid u) => mk_db_from (db_set u x acc) data'
      | Some _ => Unmodelled
      end
  end.

Definition mk_db (data : list Record) : outcome DB := mk_db_from [] data.

Definition PersonT : string := "Person".
Definition NoteT : string := "Note".

Definition DB1_data : list Record :=
  [ (* Person *)
    [("id", DUuid (bsid 0x10)); ("__type__", DStr PersonT);
     ("name", DStr "Phil Emarg");
     ("notes", DList [bslink 0x20; bslink 0x21])];
    [("id", DUuid (bsid 0x11)); ("__type__", DStr PersonT);
     ("name", DStr "Madeline Hatch"); ("notes", DList [bslink 0x21])];
    [("id", DUuid (bsid 0x12)); ("__type__", DStr PersonT);
     ("name", DStr "Emmanuel Villip")];
    (* Note *)
    [("id", DUuid (bsid 0x20)); ("__type__", DStr NoteT); ("name", DStr "boxing")];
    [("id", DUuid (bsid 0x21)); ("__type__", DStr NoteT); ("name", DStr "unboxing");
     ("note", DStr "lolol")];
    [("id", DUuid (bsid 0x22)); ("__type__", DStr NoteT); ("name", DStr "dynamic");
     ("note", DStr "blarg")] ].

Definition DB1 : DB :=
  match mk_db DB1_data with
  | Ok d => d
  | _ => []
  end.

(** A generator whose draws are all zero, for runs that never call it. *)
Definition rng0 : Rng := mkRng (fun _ => FFinite 0 0) 0.

(** *** Some queries, as the parser builds them *)

Definition path_of (name : string) (ptrs : list string) : expr :=
  Path false (ObjectRef name :: map (fun p => Ptr p (Some ">")) ptrs).

Definition select (result : expr) : expr :=
  SelectQuery [] result None [] None None None.

(** [SELECT (Person.name, Person.name)] *)
Definition q_name_pairs : expr :=
  select (Tuple [path_of "Person" ["name"]; path_of "Person" ["name"]]).

(** [SELECT count(Person.notes)] *)
Definition q_count_notes : expr :=
  select (FunctionCall "count" [path_of "Person" ["notes"]]).

(** * Properties *)

(** ** Induction on values *)

Section DataInduction.
Variable P : Data -> Prop.
Hypothesis HNone : P DNone.
Hypothesis HBool : forall b, P (DBool b).
Hypothesis HInt : forall z, P (DInt z).
Hypothesis HFloat : forall f, P (DFloat f).
Hypothesis HStr : forall s, P (DStr s).
Hypothesis HUuid : forall u, P (DUuid u).
Hypothesis HTuple : forall l, Forall P l -> P (DTuple l).
Hypothesis HList : forall l, Forall P l -> P (DList l).
Hypothesis HDict : forall d, Forall (fun kv => P (snd kv)) d -> P (DDict d).
Hypothesis HObj :
  forall id shape, Forall (fun kv => P (snd kv)) shape -> P (DObj id shape).

Fixpoint Data_ind (x : Data) : P x :=
  let all :=
    fix all (l : list Data) : Forall P l :=
      match l with
      | [] => Forall_nil P
      | y :: l' => Forall_cons y (Data_ind y) (all l')
      end in
  let entries :=
    fix entries (d : list (string * Data)) : Forall (fun kv => P (snd kv)) d :=
      match d with
      | [] => Forall_nil _
      | kv :: d' =>
          Forall_cons (P := fun kv => P (snd kv)) kv (Data_ind (snd kv)) (entries d')
      end in
  match x with
  | DNone => HNone
  | DBool b => HBool b
  | DInt z => HInt z
  | DFloat f => HFloat f
  | DStr s => HStr s
  | DUuid u => HUuid u
  | DTuple l => HTuple (all l)
  | DList l => HList (all l)
  | DDict d => HDict (entries d)
  | DObj id shape => HObj id (entries shape)
  end.
End DataInduction.

(** ** Equality of values *)

(** Python dicts have no repeated key. *)
Fixpoint keys_unique (x : Data) : Prop :=
  match x with
  | DTuple l =>
      (fix all (l : list Data) : Prop :=
         match l with [] => True | y :: l' => keys_unique y /\ all l' end) l
  | DList l =>
      (fix all (l : list Data) : Prop :=
         match l with [] => True | y :: l' => keys_unique y /\ all l' end) l
  | DDict d =>
      NoDup (map fst d) /\
      (fix all (d : list (string * Data)) : Prop :=
         match d with [] => True | kv :: d' => keys_unique (snd kv) /\ all d' end) d
  | _ => True
  end.

Lemma num_same_refl (x : pyfloat) : num_same x x = true.
Proof.
  destruct x as [m e | [] | i]; simpl; try reflexivity.
  - now rewrite Z.compare_refl.
  - apply N.eqb_refl.
Qed.

Lemma dict_get_In {A : Type} (k : string) (v : A) (d : list (string * A)) :
  NoDup (map fst d) -> In (k, v) d -> dict_get k d = Some v.
Proof.
  induction d as [| [k' v'] d IH]; simpl; intros Hnd Hin; [contradiction |].
  inversion Hnd as [| ? ? Hnotin Hnd']; subst.
  destruct Hin as [Heq | Hin].
  - inversion Heq; subst. now rewrite String.eqb_refl.
  - destruct (String.eqb_spec k k') as [-> | _]; auto.
    exfalso. apply Hnotin. change k' with (fst (k', v)). now apply in_map.
Qed.

Lemma py_eq_refl (x : Data) : keys_unique x -> py_eq x x = true.
Proof.
  induction x as [| b | z | f | s | u | l IH | l IH | d IH | id shape IH]
    using Data_ind; intros Hwf.
  - reflexivity.
  - simpl. now rewrite Z.compare_refl.
  - simpl. now rewrite Z.compare_refl.
  - simpl. apply num_same_refl.
  - simpl. apply String.eqb_refl.
  - simpl. apply N.eqb_refl.
  - simpl in *. induction IH as [| y l Hy _ IHl]; [reflexivity |].
    destruct Hwf as [Hy' Hl']. now rewrite Hy, IHl.
  - simpl in *. induction IH as [| y l Hy _ IHl]; [reflexivity |].
    destruct Hwf as [Hy' Hl']. now rewrite Hy, IHl.
  - simpl in *. rewrite Nat.eqb_refl. simpl.
    destruct Hwf as [Hnd Hall].
    rewrite Forall_forall in IH.
    match goal with
    | |- ?F d = true =>
        match type of Hall with
        | ?G d =>
            assert (Hgen : forall d0, incl d0 d -> G d0 -> F d0 = true)
        end
    end.
    { induction d0 as [| [k v] d0 IHd]; intros Hsub Hall0; [reflexivity |].
      destruct Hall0 as [Hv Hall0].
      rewrite (dict_get_In k v d Hnd (Hsub _ (or_introl eq_refl))).
      pose proof (IH (k, v) (Hsub _ (or_introl eq_refl)) Hv) as Hkv.
      simpl in Hkv. rewrite Hkv. simpl.
      apply IHd; auto. intros kv Hin. apply Hsub. now right. }
    apply Hgen; auto. apply incl_refl.
  - simpl. apply N.eqb_refl.
Qed.

(** ** The monad on computations that do not touch the generator *)

Lemma concatM_ok {A B : Type} (f : A -> M (list B)) (g : A -> list B) (l : list A) :
  (forall x r, In x l -> f x r = (Done (Ok (g x)), r)) ->
  forall r, concatM f l r = (Done (Ok (flat_map g l)), r).
Proof.
  induction l as [| x l IH]; intros Hf r; [reflexivity |].
  simpl. unfold bind. rewrite Hf by now left.
  rewrite IH by (intros; apply Hf; now right). reflexivity.
Qed.

Lemma concatM_nil {A B : Type} (f : A -> M (list B)) (r : Rng) :
  concatM f [] r = (Done (Ok []), r).
Proof. reflexivity. Qed.

(** ** Element-wise lifting *)

Definition sizes_product (args : list (list Data)) : nat :=
  fold_right (fun m n => (List.length m * n)%nat) 1%nat args.

Lemma product_length {A : Type} (args : list (list A)) :
  List.length (product args)
  = fold_right (fun m n => (List.length m * n)%nat) 1%nat args.
Proof.
  induction args as [| xs rest IH]; [reflexivity |].
  simpl. rewrite <- IH. clear IH.
  induction xs as [| x xs IHx]; [reflexivity |].
  simpl. rewrite length_app, length_map, IHx. reflexivity.
Qed.

Lemma product_empty_arg {A : Type} (args : list (list A)) :
  In [] args -> product args = [].
Proof.
  induction args as [| xs rest IH]; intros Hin; [contradiction |].
  destruct Hin as [-> | Hin]; [reflexivity |].
  simpl. rewrite (IH Hin). clear. induction xs; simpl; auto.
Qed.

Lemma flat_map_singletons {A B : Type} (g : A -> list B) (l : list A) :
  (forall x, In x l -> List.length (g x) = 1%nat) ->
  List.length (flat_map g l) = List.length l.
Proof.
  induction l as [| x l IH]; intros Hg; [reflexivity |].
  simpl. rewrite length_app, Hg by now left.
  rewrite IH by (intros; apply Hg; now right). reflexivity.
Qed.

Definition is_DList (v : Data) : bool :=
  match v with DList _ => true | _ => false end.

Lemma splice_scalar (v : Data) : is_DList v = false -> splice v = [v].
Proof. destruct v; simpl; intros H; try reflexivity; discriminate. Qed.

(** A function that returns on every combination of arguments. *)
Lemma lift_ok (f : list Data -> M Data) (g : list Data -> Data)
      (args : list (list Data)) :
  (forall a r, In a (product args) -> f a r = (Done (Ok (g a)), r)) ->
  forall r,
    lift f args r = (Done (Ok (flat_map (fun a => splice (g a)) (product args))), r).
Proof.
  intros Hf r. unfold lift. apply concatM_ok.
  intros a r' Hin. unfold bind. now rewrite Hf.
Qed.

Lemma product_pair {A : Type} (x y : list A) :
  product [x; y] = flat_map (fun a => map (fun b => [a; b]) y) x.
Proof.
  assert (Hy : product [y] = map (fun b => [b]) y).
  { simpl. induction y as [| b y IH]; simpl; congruence. }
  change (product [x; y]) with (flat_map (fun a => map (cons a) (product [y])) x).
  rewrite Hy. apply flat_map_ext. intros a. now rewrite map_map.
Qed.

Lemma flat_map_flat_map {A B C : Type} (f : A -> list B) (g : B -> list C)
      (l : list A) :
  flat_map g (flat_map f l) = flat_map (fun a => flat_map g (f a)) l.
Proof.
  induction l as [| a l IH]; [reflexivity |].
  simpl. now rewrite flat_map_app, IH.
Qed.

Lemma flat_map_map_singleton {A B : Type} (f : A -> B) (l : list A) :
  flat_map (fun a => [f a]) l = map f l.
Proof. induction l; simpl; congruence. Qed.

(** The lifting of a total binary operation with scalar results. *)
Lemma lift_binary_ok (f : Data -> Data -> outcome Data) (g : Data -> Data -> Data)
      (x y : list Data) (r : Rng) :
  (forall a b, f a b = Ok (g a b)) ->
  (forall a b, is_DList (g a b) = false) ->
  lift (binary f) [x; y] r
  = (Done (Ok (flat_map (fun a => map (fun b => g a b) y) x)), r).
Proof.
  intros Hf Hg.
  rewrite (lift_ok (binary f)
             (fun a => match a with [a; b] => g a b | _ => DNone end)).
  - rewrite product_pair, flat_map_flat_map. do 3 f_equal.
    apply flat_map_ext. intros a.
    rewrite flat_map_concat_map, map_map, <- flat_map_concat_map.
    rewrite <- flat_map_map_singleton. apply flat_map_ext. intros b.
    now apply splice_scalar.
  - intros a r' Hin. rewrite product_pair in Hin.
    apply in_flat_map in Hin. destruct Hin as [a0 [_ Hin]].
    apply in_map_iff in Hin. destruct Hin as [b0 [<- _]].
    simpl. unfold liftO. now rewrite Hf.
Qed.

(** ** C5: optional equality *)

Lemma py_equal_refl (v : Data) : keys_unique v -> py_equal v v = negb (is_nan v).
Proof.
  intros Hv. unfold py_equal. rewrite (py_eq_refl v Hv). apply andb_true_r.
Qed.

(** A database with one object whose [score] is a NaN, and
    [SELECT Rec.score ?= Rec.score] *)
Definition db_nan : DB :=
  [ (bsid 1, [("id", DUuid (bsid 1)); ("__type__", DStr "Rec");
              ("score", DFloat (FNaN 0))]) ].

Definition q_score_opt_eq : expr :=
  select (BinOp "?=" (path_of "Rec" ["score"]) (path_of "Rec" ["score"])).

(** C5.  [x ?= y] is the one-element multiset [[len(x) == len(y)]] when
    [x] or [y] is empty and the element-wise lifting of [=] over the
    Cartesian product otherwise, and dually for [?!=]; in particular
    [{} ?= {}] is [[true]], [{} ?= {v}] is [[false]], and [{v} ?= {v}] is
    [[true]] unless [v] is a NaN, for which it is [[false]]. *)
Theorem opt_eq_spec (x y : list Data) (r : Rng) :
  impls_get "binop" "?=" BASIS_IMPLS = Some opt_eq
  /\ impls_get "binop" "?!=" BASIS_IMPLS = Some opt_ne
  /\ impls_get "binop" "=" BASIS_IMPLS = Some (lift (binary py_eq_op))
  /\ impls_get "binop" "!=" BASIS_IMPLS = Some (lift (binary py_ne_op))
  /\ (x = [] \/ y = [] ->
      opt_eq [x; y] r
      = (Done (Ok [DBool (Nat.eqb (List.length x) (List.length y))]), r)
      /\ opt_ne [x; y] r
         = (Done (Ok [DBool (negb (Nat.eqb (List.length x) (List.length y)))]), r))
  /\ (x <> [] -> y <> [] ->
      opt_eq [x; y] r = lift (binary py_eq_op) [x; y] r
      /\ opt_eq [x; y] r
         = (Done (Ok (flat_map (fun a => map (fun b => DBool (py_equal a b)) y) x)), r)
      /\ opt_ne [x; y] r = lift (binary py_ne_op) [x; y] r
      /\ opt_ne [x; y] r
         = (Done (Ok (flat_map (fun a => map (fun b => DBool (negb (py_equal a b))) y) x)),
            r))
  /\ opt_eq [[]; []] r = (Done (Ok [DBool true]), r)
  /\ (forall v, opt_eq [[]; [v]] r = (Done (Ok [DBool false]), r))
  /\ (forall v, keys_unique v ->
                opt_eq [[v]; [v]] r = (Done (Ok [DBool (negb (is_nan v))]), r))
  /\ (forall v, keys_unique v -> is_nan v = false ->
                opt_eq [[v]; [v]] r = (Done (Ok [DBool true]), r)).
Proof.
  assert (Hvv : forall v, keys_unique v ->
                  opt_eq [[v]; [v]] r = (Done (Ok [DBool (negb (is_nan v))]), r)).
  { intros v Hv.
    change (opt_eq [[v]; [v]] r) with (lift (binary py_eq_op) [[v]; [v]] r).
    rewrite (lift_binary_ok py_eq_op (fun a b => DBool (py_equal a b))) by auto.
    simpl. now rewrite py_equal_refl. }
  repeat split; try reflexivity.
  - destruct H as [-> | ->]; [reflexivity |]. destruct x; reflexivity.
  - destruct H as [-> | ->]; [reflexivity |]. destruct x; reflexivity.
  - destruct x; [congruence |]. destruct y; [congruence |]. reflexivity.
  - destruct x as [| a x]; [congruence |]. destruct y as [| b y]; [congruence |].
    change (opt_eq [a :: x; b :: y] r)
      with (lift (binary py_eq_op) [a :: x; b :: y] r).
    now apply lift_binary_ok.
  - destruct x; [congruence |]. destruct y; [congruence |]. reflexivity.
  - destruct x as [| a x]; [congruence |]. destruct y as [| b y]; [congruence |].
    change (opt_ne [a :: x; b :: y] r)
      with (lift (binary py_ne_op) [a :: x; b :: y] r).
    now apply lift_binary_ok.
  - exact Hvv.
  - intros v Hv Hnan. rewrite (Hvv v Hv), Hnan. reflexivity.
Qed.

Lemma opt_eq_spec_witness :
  opt_eq [[DInt 1; DInt 2]; []] rng0 = (Done (Ok [DBool false]), rng0)
  /\ opt_eq [[DInt 1; DInt 2]; [DInt 2]] rng0
     = (Done (Ok [DBool false; DBool true]), rng0)
  /\ opt_eq [[DStr "a"]; [DStr "a"]] rng0 = (Done (Ok [DBool true]), rng0).
Proof.
  split; [| split].
  - apply (opt_eq_spec [DInt 1; DInt 2] [] rng0). now right.
  - apply (opt_eq_spec [DInt 1; DInt 2] [DInt 2] rng0); discriminate.
  - apply (opt_eq_spec [] [] rng0); [exact I | reflexivity].
Defined.

(** A NaN is not equal to itself: [{nan} ?= {nan}] is [[false]], also
    when both operands are the same stored value. *)
Lemma opt_eq_spec_counterexample :
  opt_eq [[DFloat (FNaN 0)]; [DFloat (FNaN 0)]] rng0 = (Done (Ok [DBool false]), rng0)
  /\ opt_eq [[DFloat (FNaN 0)]; [DFloat (FNaN 0)]] rng0
     <> (Done (Ok [DBool true]), rng0)
  /\ go q_score_opt_eq db_nan rng0 = (Done (Ok [DBool false]), rng0).
Proof.
  split; [reflexivity |]. split; [discriminate | reflexivity].
Qed.

(** ** C4: cardinality of the element-wise lifting *)

Lemma concatM_singletons {A B : Type} (f : A -> M (list B)) (l : list A) :
  (forall x r, In x l ->
     exists ys r', f x r = (Done (Ok ys), r') /\ List.length ys = 1%nat) ->
  forall r, exists out r',
    concatM f l r = (Done (Ok out), r') /\ List.length out = List.length l.
Proof.
  induction l as [| x l IH]; intros Hf r.
  - exists [], r. split; reflexivity.
  - destruct (Hf x r (or_introl eq_refl)) as [ys [r1 [Hx Hlen]]].
    destruct (IH (fun y r0 Hy => Hf y r0 (or_intror Hy)) r1) as [out [r2 [Hl Hout]]].
    exists (ys ++ out), r2. simpl. unfold bind. rewrite Hx, Hl. split; [reflexivity |].
    rewrite length_app, Hlen, Hout. reflexivity.
Qed.

(** C4, as the code has it.  When the lifted function returns a value that
    is not a list on every combination of the arguments, the result has
    [s1 * ... * sn] elements (a list result is spliced into the output
    instead); and whatever the function, an empty argument gives the empty
    result without calling it. *)
Theorem lift_cardinality (f : list Data -> M Data) (args : list (list Data)) (r : Rng) :
  ((forall a r0, In a (product args) ->
      exists v r1, f a r0 = (Done (Ok v), r1) /\ is_DList v = false) ->
   exists out r', lift f args r = (Done (Ok out), r')
                  /\ List.length out = sizes_product args)
  /\ (In [] args -> sizes_product args = 0%nat
                    /\ lift f args r = (Done (Ok []), r)).
Proof.
  split.
  - intros Hf. unfold lift, sizes_product. rewrite <- product_length.
    apply concatM_singletons. intros a r0 Hin.
    destruct (Hf a r0 Hin) as [v [r1 [Hv Hscalar]]].
    exists (splice v), r1. unfold bind. rewrite Hv. split; [reflexivity |].
    now rewrite splice_scalar.
  - intros Hin. split.
    + unfold sizes_product. rewrite <- product_length.
      now rewrite product_empty_arg.
    + unfold lift. now rewrite product_empty_arg.
Qed.

Lemma lift_cardinality_witness :
  (exists out r', lift (binary py_add) [[DInt 1; DInt 2]; [DInt 10]] rng0
                  = (Done (Ok out), r')
                  /\ List.length out = 2%nat)
  /\ lift (binary py_add) [[DInt 1; DInt 2]; []] rng0 = (Done (Ok []), rng0).
Proof.
  split.
  - apply (lift_cardinality (binary py_add) [[DInt 1; DInt 2]; [DInt 10]] rng0).
    intros a r0 Hin. simpl in Hin.
    destruct Hin as [<- | [<- | []]]; eexists; eexists; split; reflexivity.
  - apply (lift_cardinality (binary py_add) [[DInt 1; DInt 2]; []] rng0).
    simpl. auto.
Defined.

(** The claim as stated fails where the lifted function returns a list:
    [+] on two one-element multisets of lists yields two values. *)
Lemma lift_cardinality_counterexample :
  impls_get "binop" "+" BASIS_IMPLS = Some (lift (binary py_add))
  /\ lift (binary py_add) [[DList [DInt 1]]; [DList [DInt 2]]] rng0
     = (Done (Ok [DInt 1; DInt 2]), rng0)
  /\ List.length [DInt 1; DInt 2]
     <> sizes_product [[DList [DInt 1]]; [DList [DInt 2]]].
Proof.
  repeat split; try reflexivity. simpl. discriminate.
Qed.

(** ** C3: cardinality of the aggregates *)

Lemma sum_from_ints (m : list Data) :
  Forall (fun v => int_like v <> None) m ->
  forall acc, exists z, sum_from (DInt acc) m = Ok (DInt z).
Proof.
  induction 1 as [| v m Hv _ IH]; intros acc; simpl.
  - now exists acc.
  - destruct v; simpl in Hv; try congruence; simpl; apply IH.
Qed.

Lemma extreme_from_In (op : cmpop) (m : list Data) :
  forall cur,
    (forall a b, In a (cur :: m) -> In b (cur :: m) -> exists c, py_cmp op a b = Ok c) ->
    exists v, In v (cur :: m) /\ extreme_from op cur m = Ok v.
Proof.
  induction m as [| x m IH]; intros cur Hcmp; simpl.
  - exists cur. auto.
  - destruct (Hcmp x cur) as [c Hc]; [now right; left | now left |].
    rewrite Hc. simpl.
    destruct (IH (if c then x else cur)) as [v [Hin Hv]].
    + intros a b Ha Hb. apply Hcmp.
      * destruct Ha as [<- | Ha]; [destruct c; simpl; auto | simpl; auto].
      * destruct Hb as [<- | Hb]; [destruct c; simpl; auto | simpl; auto].
    + exists v. split; [| exact Hv].
      destruct Hin as [<- | Hin]; [destruct c; simpl; auto | simpl; auto].
Qed.




(** ** Evaluation of paths *)

Section PathEvaluation.
Variable ev : expr -> EvalContext -> M (list Data).

(** The base case of [eval_path]: a path of the query input list. *)
Lemma eval_path_rev_bound (rpath : EPath) (ctx : EvalContext) :
  epath_in (rev rpath) (query_input_list ctx) = true ->
  eval_path_rev ev rpath ctx
  = match nth_error (input_tuple ctx)
            (path_index expr_eqb (rev rpath) (query_input_list ctx)) with
    | None => raise IndexError
    | Some obj => ret (bound_value obj)
    end.
Proof.
  intros Hin. destruct rpath; cbn [eval_path_rev]; rewrite Hin; reflexivity.
Qed.

Lemma eval_path_bound (path : EPath) (ctx : EvalContext) :
  epath_in path (query_input_list ctx) = true ->
  eval_path ev path ctx
  = match nth_error (input_tuple ctx)
            (path_index expr_eqb path (query_input_list ctx)) with
    | None => raise IndexError
    | Some obj => ret (bound_value obj)
    end.
Proof.
  intros Hin. unfold eval_path.
  rewrite eval_path_rev_bound; rewrite rev_involutive; auto.
Qed.

Lemma eval_path_rev_step (ptr b : EPathElement) (rbase : EPath) (ctx : EvalContext) :
  epath_in (rev (ptr :: b :: rbase)) (query_input_list ctx) = false ->
  eval_path_rev ev (ptr :: b :: rbase) ctx
  = (base <- eval_path_rev ev (b :: rbase) ctx ;; navigate ptr base ctx).
Proof.
  intros Hin. cbn [eval_path_rev]. now rewrite Hin.
Qed.

Lemma eval_path_step (base_path : EPath) (b ptr : EPathElement) (ctx : EvalContext) :
  epath_in ((b :: base_path) ++ [ptr]) (query_input_list ctx) = false ->
  eval_path ev ((b :: base_path) ++ [ptr]) ctx
  = (base <- eval_path ev (b :: base_path) ctx ;; navigate ptr base ctx).
Proof.
  intros Hin. unfold eval_path. rewrite rev_app_distr.
  change (rev [ptr] ++ rev (b :: base_path)) with (ptr :: rev (b :: base_path)).
  remember (rev (b :: base_path)) as rb eqn:Hrev.
  destruct rb as [| b' rb].
  - apply (f_equal (@List.length _)) in Hrev. rewrite length_rev in Hrev.
    discriminate.
  - rewrite eval_path_rev_step; [reflexivity |].
    change (rev (ptr :: b' :: rb)) with (rev (b' :: rb) ++ [ptr]).
    rewrite Hrev, rev_involutive. exact Hin.
Qed.

End PathEvaluation.

(** ** C10: the missing marker *)

Definition db_tag_none : DB :=
  [ (bsid 1, [("id", DUuid (bsid 1)); ("__type__", DStr "Person"); ("tag", DNone)]) ].

Definition db_tag_absent : DB :=
  [ (bsid 1, [("id", DUuid (bsid 1)); ("__type__", DStr "Person")]) ].

(** [SELECT Person.tag ?? 'x'] *)
Definition q_tag_or_x : expr :=
  select (BinOp "??" (path_of "Person" ["tag"]) (StringConstant "x")).

(** C10.  The missing marker of an input tuple is [None]: a path of the
    query input list evaluates to the empty multiset exactly when its slot
    holds [None], and to the one-element multiset of the slot otherwise.
    Hence a column built from an attribute whose stored value is [None] is
    the same column that a missing value under OPTIONAL gives. *)
Theorem missing_marker_is_None
        (ev : expr -> EvalContext -> M (list Data))
        (path : EPath) (ctx : EvalContext) (r : Rng) (obj : Data) :
  epath_in path (query_input_list ctx) = true ->
  nth_error (input_tuple ctx)
    (path_index expr_eqb path (query_input_list ctx)) = Some obj ->
  (exists vals,
      eval_path ev path ctx r = (Done (Ok vals), r)
      /\ (vals = [] <-> obj = DNone)
      /\ (obj <> DNone -> vals = [obj]))
  /\ (forall row optional,
         extend_row [DNone] optional row = [row ++ [DNone]]
         /\ extend_row [] true row = [row ++ [DNone]])
  /\ get_links [("id", DUuid (bsid 1)); ("tag", DNone)] "tag" = [DNone]
  /\ fst (build_input_tuples ev [[IORef expr "Person"; IPtr expr "tag" (Some ">")]]
            [] (empty_ctx db_tag_none) r)
     = fst (build_input_tuples ev [[IORef expr "Person"; IPtr expr "tag" (Some ">")]]
              [] (empty_ctx db_tag_absent) r)
  /\ fst (go q_tag_or_x db_tag_none r) = Done (Ok [DStr "x"])
  /\ fst (go q_tag_or_x db_tag_absent r) = Done (Ok [DStr "x"]).
Proof.
  intros Hin Hslot. repeat split.
  - exists (bound_value obj). rewrite eval_path_bound by exact Hin.
    rewrite Hslot. split; [reflexivity |].
    split; [| destruct obj; simpl; intros H; congruence].
    destruct obj; simpl; split; intros H; congruence.
Qed.

Lemma missing_marker_is_None_witness :
  exists vals,
    eval_path (eval 0) [IORef expr "x"]
      (mkCtx [[IORef expr "x"]] [DNone] [] []) rng0 = (Done (Ok vals), rng0)
    /\ (vals = [] <-> DNone = DNone)
    /\ (DNone <> DNone -> vals = [DNone]).
Proof.
  apply (@missing_marker_is_None (eval 0) [IORef expr "x"]
           (mkCtx [[IORef expr "x"]] [DNone] [] []) rng0 DNone);
    reflexivity.
Defined.

(** ** References to bound paths *)

Lemma eval_Path_bound (fuel : nat) (partial : bool) (steps : list (step expr))
      (p : EPath) (ctx : EvalContext) (r : Rng) (v : Data) :
  simplify_path partial steps = Ok p ->
  epath_in p (query_input_list ctx) = true ->
  nth_error (input_tuple ctx) (path_index expr_eqb p (query_input_list ctx)) = Some v ->
  v <> DNone ->
  eval (S fuel) (Path partial steps) ctx r = (Done (Ok [v]), r).
Proof.
  intros Hp Hin Hslot Hv. simpl. unfold bind, liftO. rewrite Hp.
  rewrite eval_path_bound by exact Hin. rewrite Hslot.
  destruct v; try reflexivity. congruence.
Qed.

(** ** Deduplication *)

Section FirstOccurrences.
Variable A : Type.
Variable eqb : A -> A -> bool.

(** Deduplication in the words of the specification: an element is kept
    when no element equal to it occurred before it. *)
Fixpoint first_occurrences (seen l : list A) : list A :=
  match l with
  | [] => []
  | x :: l' =>
      if existsb (eqb x) seen then first_occurrences seen l'
      else x :: first_occurrences (seen ++ [x]) l'
  end.

Lemma dedup_fold_first_occurrences (l acc : list A) :
  fold_left (fun new x => if existsb (eqb x) new then new else new ++ [x]) l acc
  = acc ++ first_occurrences acc l.
Proof.
  revert acc. induction l as [| x l IH]; intros acc; simpl.
  - now rewrite app_nil_r.
  - destruct (existsb (eqb x) acc); rewrite IH; [reflexivity |].
    now rewrite <- app_assoc.
Qed.

Lemma dedup_by_first_occurrences (l : list A) :
  dedup_by eqb l = first_occurrences [] l.
Proof. unfold dedup_by. now rewrite dedup_fold_first_occurrences. Qed.

Lemma first_occurrences_incl (l seen : list A) :
  incl (first_occurrences seen l) l.
Proof.
  revert seen. induction l as [| x l IH]; intros seen; simpl.
  - apply incl_refl.
  - destruct (existsb (eqb x) seen).
    + apply incl_tl, IH.
    + apply incl_cons; [now left | apply incl_tl, IH].
Qed.

Lemma first_occurrences_unseen (l seen : list A) (x : A) :
  In x (first_occurrences seen l) -> existsb (eqb x) seen = false.
Proof.
  revert seen. induction l as [| y l IH]; intros seen; simpl; [contradiction |].
  destruct (existsb (eqb y) seen) eqn:Hy.
  - apply IH.
  - intros [<- | Hin]; [exact Hy |].
    apply IH in Hin. rewrite existsb_app in Hin.
    now apply orb_false_iff in Hin.
Qed.

(** No kept element is equal to an element kept before it. *)
Lemma first_occurrences_distinct (l seen : list A) :
  ForallOrdPairs (fun x y => eqb y x = false) (first_occurrences seen l).
Proof.
  revert seen. induction l as [| x l IH]; intros seen; simpl.
  - constructor.
  - destruct (existsb (eqb x) seen); [apply IH |].
    constructor; [| apply IH].
    apply Forall_forall. intros y Hin.
    apply first_occurrences_unseen in Hin. rewrite existsb_app in Hin.
    apply orb_false_iff in Hin. destruct Hin as [_ Hin]. simpl in Hin.
    now rewrite orb_false_r in Hin.
Qed.

(** Every element has an equal element that is seen or kept. *)
Lemma first_occurrences_complete (l seen : list A) (x : A) :
  (forall y, In y l -> eqb y y = true) ->
  In x l ->
  existsb (eqb x) seen = true
  \/ exists y, In y (first_occurrences seen l) /\ eqb x y = true.
Proof.
  revert seen. induction l as [| z l IH]; intros seen Hrefl Hin; [contradiction |].
  simpl. destruct Hin as [-> | Hin].
  - destruct (existsb (eqb x) seen) eqn:Hx; [now left | right].
    exists x. split; [now left | apply Hrefl; now left].
  - assert (Hrefl' : forall y, In y l -> eqb y y = true)
      by (intros; apply Hrefl; now right).
    destruct (existsb (eqb z) seen) eqn:Hz.
    + destruct (IH seen Hrefl' Hin) as [H | [y [Hy Hxy]]]; [now left | right].
      exists y. auto.
    + destruct (IH (seen ++ [z]) Hrefl' Hin) as [H | [y [Hy Hxy]]].
      * rewrite existsb_app in H. apply orb_true_iff in H.
        destruct H as [H | H]; [now left | right].
        simpl in H. rewrite orb_false_r in H.
        exists z. split; [now left | exact H].
      * right. exists y. split; [now right | exact Hxy].
Qed.
End FirstOccurrences.

Lemma py_eq_Obj_refl (x : Data) : is_Obj x = true -> py_eq x x = true.
Proof. destruct x; simpl; try discriminate. intros _. apply N.eqb_refl. Qed.

Lemma head_is_Obj_all (l : list Data) :
  l <> [] -> Forall (fun x => is_Obj x = true) l -> head_is_Obj l = true.
Proof. destruct l; [congruence |]. intros _ H. now inversion H. Qed.

Lemma head_is_Obj_none (l : list Data) :
  Forall (fun x => is_Obj x = false) l -> head_is_Obj l = false.
Proof. destruct l; [reflexivity |]. intros H. now inversion H. Qed.

Lemma navigate_raw_nil (ptr : EPathElement) (ctx : EvalContext) (out : list Data) :
  navigate_raw ptr [] ctx = Ok out -> out = [].
Proof. destruct ptr; simpl; congruence. Qed.

(** ** C6: deduplication in path navigation *)

(** C6, as the code has it.  When the last element of a path maps object
    references to object references, the result is deduplicated in order,
    the first occurrence of each object winning; when the navigation
    yields no object reference, every duplicate is kept.  Over [DB1],
    [SELECT count(Person.notes)] yields [[2]]: two distinct notes are
    linked from a person. *)
Theorem path_navigation_dedup
        (ev : expr -> EvalContext -> M (list Data))
        (b : EPathElement) (base_path : EPath) (ptr : EPathElement)
        (ctx : EvalContext) (r r1 : Rng) (base out : list Data) :
  epath_in ((b :: base_path) ++ [ptr]) (query_input_list ctx) = false ->
  eval_path ev (b :: base_path) ctx r = (Done (Ok base), r1) ->
  navigate_raw ptr base ctx = Ok out ->
  (Forall (fun x => is_Obj x = true) base ->
   Forall (fun x => is_Obj x = true) out ->
   eval_path ev ((b :: base_path) ++ [ptr]) ctx r = (Done (Ok (dedup out)), r1)
   /\ forall x, In x out -> exists y, In y (dedup out) /\ py_eq x y = true)
  /\ (Forall (fun x => is_Obj x = false) out ->
      eval_path ev ((b :: base_path) ++ [ptr]) ctx r = (Done (Ok out), r1))
  /\ dedup out = first_occurrences py_eq [] out
  /\ ForallOrdPairs (fun x y => py_eq y x = false) (dedup out)
  /\ incl (dedup out) out
  /\ fst (go (select (path_of "Person" ["notes"])) DB1 r)
     = Done (Ok [clean_data (bslink 0x20); clean_data (bslink 0x21)])
  /\ fst (go q_count_notes DB1 r) = Done (Ok [DInt 2])
  /\ fst (go (select (path_of "Person" ["__type__"])) DB1 r)
     = Done (Ok [DStr "Person"; DStr "Person"; DStr "Person"]).
Proof.
  intros Hin Hbase Hout.
  assert (Hstep : eval_path ev ((b :: base_path) ++ [ptr]) ctx r
                  = (Done (Ok (if head_is_Obj base && head_is_Obj out
                               then dedup out else out)), r1)).
  { rewrite eval_path_step by exact Hin.
    unfold bind at 1. rewrite Hbase. unfold navigate, bind, liftO.
    now rewrite Hout. }
  assert (Hfo : dedup out = first_occurrences py_eq [] out)
    by apply dedup_by_first_occurrences.
  split; [| split; [| split; [| split; [| split; [| repeat split]]]]].
  - intros Hb Ho. split.
    + rewrite Hstep. destruct base as [| b0 base].
      * apply navigate_raw_nil in Hout. now subst out.
      * destruct out as [| o0 out]; [now rewrite andb_false_r |].
        now rewrite !head_is_Obj_all.
    + intros x Hx. rewrite Hfo.
      destruct (@first_occurrences_complete _ py_eq out [] x) as [H | H];
        [| exact Hx | discriminate H | exact H].
      intros y Hy. apply py_eq_Obj_refl.
      rewrite Forall_forall in Ho. now apply Ho.
  - intros Ho. rewrite Hstep, (head_is_Obj_none Ho).
    now rewrite andb_false_r.
  - exact Hfo.
  - rewrite Hfo. apply first_occurrences_distinct.
  - rewrite Hfo. apply first_occurrences_incl.
Qed.

Lemma path_navigation_dedup_witness :
  eval_path (eval 0) ([IORef expr "Person"] ++ [IPtr expr "notes" (Some ">")])
    (empty_ctx DB1) rng0
  = (Done (Ok (dedup [bslink 0x20; bslink 0x21; bslink 0x21])), rng0).
Proof.
  apply (@path_navigation_dedup (eval 0) (IORef expr "Person") []
           (IPtr expr "notes" (Some ">")) (empty_ctx DB1) rng0 rng0
           [bslink 0x10; bslink 0x11; bslink 0x12]
           [bslink 0x20; bslink 0x21; bslink 0x21]);
    try reflexivity; repeat constructor.
Defined.

(** The scenario of the specification gives [[3]]; the evaluator gives
    [[2]]. *)
Lemma path_navigation_dedup_counterexample :
  fst (go q_count_notes DB1 rng0) = Done (Ok [DInt 2])
  /\ fst (go q_count_notes DB1 rng0) <> Done (Ok [DInt 3]).
Proof.
  split; [reflexivity | discriminate].
Qed.

(** ** C7: cardinality of the clauses *)

Lemma int_of_str_not_assertion (s : string) :
  int_of_str s <> Raise AssertionError.
Proof.
  unfold int_of_str. destruct s; [discriminate |].
  destruct (string_forallb is_digit _).
  - destruct (_ <=? _)%Z; discriminate.
  - destruct (string_forallb _ _); discriminate.
Qed.

Lemma clause_int_singleton (v : Data) :
  clause_int [v] <> Raise AssertionError.
Proof.
  unfold clause_int.
  destruct v as [| b | z | [m e | sg | i] | s | u | l | l | d | id shape];
    simpl; try discriminate.
  pose proof (int_of_str_not_assertion s) as Hs.
  unfold omap. destruct (int_of_str s); simpl; congruence.
Qed.

Lemma clause_int_assertion (res : list Data) :
  clause_int res = Raise AssertionError <-> List.length res <> 1%nat.
Proof.
  destruct res as [| v [| w res]]; simpl.
  - split; [discriminate | reflexivity].
  - split; [| congruence]. intros H. now apply clause_int_singleton in H.
  - split; [discriminate | reflexivity].
Qed.

(** [SELECT 1] with the given OFFSET, LIMIT and ORDER BY expressions *)
Definition select_one (orderby : list expr) (offset limit : option expr) : expr :=
  SelectQuery [] (IntegerConstant "1" false) None
    (map (fun e => mkSortExpr e (Some "ASC") None) orderby) offset limit None.

Definition one_two : expr :=
  SetLit [IntegerConstant "1" false; IntegerConstant "2" false].

(** C7, as the code has it.  The offset clause and the limit clause raise
    an assertion error exactly when their expression produces a number of
    values other than one, zero values included; a sort key does exactly
    when it produces more than one value for a row; the error ends the
    evaluation of the SELECT. *)
Theorem clause_cardinality
        (ev : expr -> EvalContext -> M (list Data))
        (ctx : EvalContext) (r r1 : Rng) (e : expr) (res : list Data) :
  subquery ev e ctx r = (Done (Ok res), r1) ->
  (forall out,
      fst (eval_offset ev (Some e) out ctx r) = Done (Raise AssertionError)
      <-> List.length res <> 1%nat)
  /\ (forall out,
         fst (eval_limit ev (Some e) out ctx r) = Done (Raise AssertionError)
         <-> List.length res <> 1%nat)
  /\ (forall direction nones qil row ctx0,
         ctx = with_input ctx0 qil row ->
         fst (decorate_row ev (mkSortExpr e direction nones) qil ctx0 row r)
         = Done (Raise AssertionError)
         <-> (1 < List.length res)%nat)
  /\ (forall out, eval_offset ev None out ctx r = (Done (Ok out), r))
  /\ (forall out, eval_limit ev None out ctx r = (Done (Ok out), r))
  /\ (forall qil out, eval_orderby ev [] qil out ctx r = (Done (Ok out), r))
  /\ fst (go (select_one [] (Some one_two) None) DB1 r) = Done (Raise AssertionError)
  /\ fst (go (select_one [] (Some (SetLit [])) None) DB1 r)
     = Done (Raise AssertionError)
  /\ fst (go (select_one [] None (Some one_two)) DB1 r) = Done (Raise AssertionError)
  /\ fst (go (select_one [] None (Some (SetLit []))) DB1 r)
     = Done (Raise AssertionError)
  /\ fst (go (select_one [one_two] None None) DB1 r) = Done (Raise AssertionError)
  /\ fst (go (select_one [SetLit []] None None) DB1 r) = Done (Ok [DInt 1])
  /\ fst (go (select_one [SetLit []] (Some (IntegerConstant "0" false))
                (Some (IntegerConstant "1" false))) DB1 r)
     = Done (Ok [DInt 1]).
Proof.
  intros Hres.
  split; [| split; [| split; [| repeat split]]].
  - intros out. unfold eval_offset, bind, liftO. rewrite Hres.
    rewrite <- clause_int_assertion.
    destruct (clause_int res) as [n | x |]; simpl; split; congruence.
  - intros out. unfold eval_limit, bind, liftO. rewrite Hres.
    rewrite <- clause_int_assertion.
    destruct (clause_int res) as [n | x |]; simpl; split; congruence.
  - intros direction nones qil row ctx0 Hctx.
    unfold decorate_row, bind. simpl sort_path. rewrite <- Hctx, Hres.
    destruct (Nat.leb_spec (List.length res) 1) as [Hle | Hgt]; simpl.
    + split; [discriminate | lia].
    + split; [intros _; exact Hgt | reflexivity].
Qed.

Lemma clause_cardinality_witness :
  fst (eval_offset (eval 2) (Some one_two) [[DInt 1]] (empty_ctx DB1) rng0)
  = Done (Raise AssertionError)
  <-> List.length [DInt 1; DInt 2] <> 1%nat.
Proof.
  apply (@clause_cardinality (eval 2) (empty_ctx DB1) rng0 rng0 one_two
           [DInt 1; DInt 2]).
  reflexivity.
Defined.

(** The claim as stated fails for a clause that produces no value: the
    offset expression of [SELECT 1 OFFSET {}] yields the empty multiset,
    which is at most one value, and the SELECT raises. *)
Lemma clause_cardinality_counterexample :
  fst (subquery (eval 1) (SetLit []) (empty_ctx DB1) rng0) = Done (Ok [])
  /\ (List.length (@nil Data) <= 1)%nat
  /\ fst (go (select_one [] (Some (SetLit [])) None) DB1 rng0)
     = Done (Raise AssertionError).
Proof.
  repeat split. simpl. lia.
Qed.

(** ** Stability of sorting *)

Section StableSort.
Variable A : Type.
Variable lt : A -> A -> outcome bool.

Lemma insert_sorted_perm (x : A) (l : list A) :
  Permutation (insert_sorted lt x l) (x :: l).
Proof.
  induction l as [| y l IH]; simpl; [reflexivity |].
  destruct (ltb_of lt y x); [| reflexivity].
  rewrite IH. apply perm_swap.
Qed.

Lemma isort_perm (l : list A) : Permutation (isort lt l) l.
Proof.
  induction l as [| x l IH]; simpl; [reflexivity |].
  rewrite insert_sorted_perm. now constructor.
Qed.

(** Inserting [x] moves it only past elements strictly below it. *)
Lemma filter_insert_sorted (Q : A -> bool) (x : A) (l : list A) :
  (forall y, In y l -> Q x = true -> Q y = true -> ltb_of lt y x = false) ->
  filter Q (insert_sorted lt x l) = filter Q (x :: l).
Proof.
  induction l as [| y l IH]; intros Hno; [reflexivity |].
  simpl insert_sorted. destruct (ltb_of lt y x) eqn:Hyx; [| reflexivity].
  simpl filter at 1. rewrite IH by (intros; apply Hno; auto; now right).
  simpl. destruct (Q x) eqn:Hx; [| reflexivity].
  destruct (Q y) eqn:Hy; [| reflexivity].
  rewrite (Hno y) in Hyx; auto; [discriminate | now left].
Qed.

Lemma filter_isort (Q : A -> bool) (l : list A) :
  NoDup l ->
  (forall x y, In x l -> In y l -> x <> y ->
               Q x = true -> Q y = true -> ltb_of lt y x = false) ->
  filter Q (isort lt l) = filter Q l.
Proof.
  induction l as [| x l IH]; intros Hnd Hno; [reflexivity |].
  inversion Hnd as [| ? ? Hnotin Hnd']; subst.
  simpl isort. rewrite filter_insert_sorted.
  - simpl. rewrite IH; [reflexivity | exact Hnd' |].
    intros a b Ha Hb. apply Hno; now right.
  - intros y Hy.
    assert (Hy' : In y l) by (apply (Permutation_in _ (isort_perm l)); exact Hy).
    apply Hno; [now left | now right |]. intros ->. contradiction.
Qed.

(** A consistent ordering of a list orders every selection of its items
    consistently. *)
Lemma consistent_incl (l l' : list A) :
  incl l' l -> consistent lt l = true -> consistent lt l' = true.
Proof.
  unfold consistent. rewrite !forallb_forall. intros Hsub H x Hx.
  specialize (H x (Hsub x Hx)). apply andb_true_iff in H. destruct H as [H1 H2].
  rewrite H1. cbn [andb]. rewrite forallb_forall in H2 |- *. intros y Hy.
  specialize (H2 y (Hsub y Hy)). rewrite forallb_forall in H2 |- *.
  intros z Hz. apply H2. now apply Hsub.
Qed.

Lemma binary_insertion_perm (rest : list A) :
  forall pre, Permutation (binary_insertion lt pre rest) (pre ++ rest).
Proof.
  induction rest as [| pivot rest IH]; intros pre; cbn [binary_insertion].
  - now rewrite app_nil_r.
  - rewrite IH.
    set (k := search_place lt (List.length pre) pivot pre 0 (List.length pre)).
    transitivity ((pivot :: pre) ++ rest).
    + apply Permutation_app_tail. symmetry.
      pose proof (Permutation_middle (firstn k pre) (skipn k pre) pivot) as H.
      now rewrite firstn_skipn in H.
    + cbn [app]. apply Permutation_middle.
Qed.

Lemma run_sort_perm (l : list A) : Permutation (run_sort lt l) l.
Proof.
  unfold run_sort. destruct (count_run lt l) as [n descending].
  rewrite binary_insertion_perm.
  transitivity (firstn n l ++ skipn n l); [| now rewrite firstn_skipn].
  apply Permutation_app_tail.
  destruct descending; [symmetry; apply Permutation_rev | reflexivity].
Qed.

(** The result of [sorted] is a rearrangement of the list. *)
Lemma py_sorted_perm (reverse : bool) (l s : list A) :
  py_sorted lt reverse l = Ok s -> Permutation l s.
Proof.
  unfold py_sorted. destruct (all_comparable lt l); [| discriminate].
  destruct (consistent lt l).
  - intros H. inversion H. destruct reverse.
    + rewrite <- Permutation_rev, isort_perm, <- Permutation_rev. reflexivity.
    + now rewrite isort_perm.
  - destruct (List.length l <? 64)%nat; [| discriminate].
    intros H. inversion H. destruct reverse.
    + rewrite <- Permutation_rev, run_sort_perm, <- Permutation_rev. reflexivity.
    + now rewrite run_sort_perm.
Qed.

(** [sorted] and [list.sort], also with [reverse=True], keep the elements
    of a class whose keys do not order one below the other in their
    original order, provided that [<] orders the keys consistently. *)
Lemma py_sorted_stable (reverse : bool) (l s : list A) :
  NoDup l ->
  consistent lt l = true ->
  py_sorted lt reverse l = Ok s ->
  Permutation l s
  /\ forall Q : A -> bool,
      (forall x y, In x l -> In y l -> x <> y ->
                   Q x = true -> Q y = true -> lt x y = Ok false) ->
      filter Q s = filter Q l.
Proof.
  intros Hnd Hcons Hsorted. split; [exact (@py_sorted_perm reverse l s Hsorted) |].
  revert Hsorted. unfold py_sorted. rewrite Hcons.
  destruct (all_comparable lt l); [| discriminate].
  intros Hs. inversion Hs as [Hs']. clear Hs.
  - intros Q Hno.
    assert (Hltb : forall x y, In x l -> In y l -> x <> y ->
                               Q x = true -> Q y = true -> ltb_of lt y x = false).
    { intros x y Hx Hy Hxy Qx Qy. unfold ltb_of. rewrite (Hno y x); auto. }
    destruct reverse.
    + rewrite filter_rev, filter_isort, filter_rev, rev_involutive; auto.
      * now apply NoDup_rev.
      * intros x y Hx Hy. apply Hltb; now apply in_rev.
    + now apply filter_isort.
Qed.
End StableSort.

(** Sorting tagged elements: the tags ride along with the keys. *)
Section SortTagged.
Variables A B : Type.
Variable lt : A -> A -> outcome bool.
Variable f : B -> A.

Definition lt_via (x y : B) : outcome bool := lt (f x) (f y).

Lemma insert_sorted_map (x : B) (l : list B) :
  map f (insert_sorted lt_via x l) = insert_sorted lt (f x) (map f l).
Proof.
  induction l as [| y l IH]; [reflexivity |].
  simpl. unfold ltb_of, lt_via at 1. fold (ltb_of lt (f y) (f x)).
  destruct (ltb_of lt (f y) (f x)); simpl; [now rewrite IH | reflexivity].
Qed.

Lemma isort_map (l : list B) : map f (isort lt_via l) = isort lt (map f l).
Proof.
  induction l as [| x l IH]; [reflexivity |].
  simpl. now rewrite insert_sorted_map, IH.
Qed.

Lemma all_comparable_map (l : list B) :
  all_comparable lt (map f l) = all_comparable lt_via l.
Proof.
  assert (Hmap : forall (g : A -> bool) (m : list B),
             forallb g (map f m) = forallb (fun b => g (f b)) m).
  { intros g m. induction m as [| b m IH]; simpl; congruence. }
  assert (Hext : forall (g h : B -> bool) (m : list B),
             (forall b, g b = h b) -> forallb g m = forallb h m).
  { intros g h m Hgh. induction m as [| b m IH]; simpl; congruence. }
  unfold all_comparable. rewrite Hmap.
  apply Hext. intros x. now rewrite Hmap.
Qed.

Lemma forallb_map_via (g : A -> bool) (m : list B) :
  forallb g (map f m) = forallb (fun b => g (f b)) m.
Proof. induction m as [| b m IH]; simpl; congruence. Qed.

Lemma consistent_map (l : list B) :
  consistent lt (map f l) = consistent lt_via l.
Proof.
  assert (Hext : forall (g h : B -> bool) (m : list B),
             (forall b, g b = h b) -> forallb g m = forallb h m).
  { intros g h m Hgh. induction m as [| b m IH]; simpl; congruence. }
  unfold consistent. rewrite forallb_map_via. apply Hext. intros x.
  f_equal. rewrite forallb_map_via. apply Hext. intros y.
  rewrite forallb_map_via. apply Hext. intros z. reflexivity.
Qed.

Lemma run_length_map (descending : bool) (l : list B) :
  forall prev,
    run_length lt_via descending prev l = run_length lt descending (f prev) (map f l).
Proof.
  induction l as [| x l IH]; intros prev; [reflexivity |].
  cbn [run_length map].
  change (ltb_of lt_via x prev) with (ltb_of lt (f x) (f prev)).
  destruct (Bool.eqb _ _); [now rewrite IH | reflexivity].
Qed.

Lemma count_run_map (l : list B) : count_run lt_via l = count_run lt (map f l).
Proof.
  destruct l as [| x [| y l]]; try reflexivity.
  cbn [count_run map].
  change (ltb_of lt_via y x) with (ltb_of lt (f y) (f x)).
  now rewrite run_length_map.
Qed.

Lemma search_place_map (pivot : B) (pre : list B) (steps : nat) :
  forall l r,
    search_place lt_via steps pivot pre l r
    = search_place lt steps (f pivot) (map f pre) l r.
Proof.
  induction steps as [| steps IH]; intros l r; [reflexivity |].
  cbn [search_place]. destruct (l <? r)%nat; [| reflexivity].
  cbv zeta. rewrite nth_error_map.
  destruct (nth_error pre (l + Nat.div2 (r - l))) as [y |]; [| reflexivity].
  cbn [option_map].
  change (ltb_of lt_via pivot y) with (ltb_of lt (f pivot) (f y)).
  destruct (ltb_of lt (f pivot) (f y)); apply IH.
Qed.

Lemma binary_insertion_map (rest : list B) :
  forall pre,
    map f (binary_insertion lt_via pre rest)
    = binary_insertion lt (map f pre) (map f rest).
Proof.
  induction rest as [| pivot rest IH]; intros pre; [reflexivity |].
  cbn [binary_insertion map]. cbv zeta.
  rewrite IH, search_place_map, length_map.
  now rewrite map_app, firstn_map, skipn_map.
Qed.

Lemma run_sort_map (l : list B) : map f (run_sort lt_via l) = run_sort lt (map f l).
Proof.
  unfold run_sort. rewrite <- count_run_map.
  destruct (count_run lt_via l) as [n descending].
  rewrite binary_insertion_map, skipn_map.
  destruct descending; [now rewrite map_rev, firstn_map | now rewrite firstn_map].
Qed.

Lemma py_sorted_map (reverse : bool) (l : list B) :
  py_sorted lt reverse (map f l) = omap (map f) (py_sorted lt_via reverse l).
Proof.
  unfold py_sorted. rewrite all_comparable_map, consistent_map, length_map.
  destruct (all_comparable lt_via l); [| reflexivity].
  destruct (consistent lt_via l).
  - simpl. destruct reverse; [| now rewrite isort_map].
    now rewrite <- map_rev, <- isort_map, map_rev.
  - destruct (List.length l <? 64)%nat; [| reflexivity].
    simpl. destruct reverse; [| now rewrite run_sort_map].
    now rewrite <- map_rev, <- run_sort_map, map_rev.
Qed.
End SortTagged.

(** ** Sort keys *)

Lemma py_eq_tuple_not_lt (a b : list Data) :
  py_eq (DTuple a) (DTuple b) = true -> py_lt (DTuple a) (DTuple b) = Ok false.
Proof.
  unfold py_lt. simpl. revert b.
  induction a as [| x a IH]; intros [| y b]; try discriminate; [reflexivity |].
  intros H. apply andb_true_iff in H. destruct H as [Hxy Hab].
  rewrite Hxy. now apply IH.
Qed.

Lemma sort_key_eq_not_lt (nb nb' : bool) (vals vals' : list Data) :
  py_eq (sort_key nb vals) (sort_key nb' vals') = true ->
  py_lt (sort_key nb vals) (sort_key nb' vals') = Ok false.
Proof. apply py_eq_tuple_not_lt. Qed.

Lemma mapM_ok {A B : Type} (f : A -> M B) (l : list A) :
  forall r ys r',
    mapM f l r = (Done (Ok ys), r') ->
    Forall2 (fun x y => exists ra rb, f x ra = (Done (Ok y), rb)) l ys.
Proof.
  induction l as [| x l IH]; intros r ys r' H; simpl in H.
  - inversion H. constructor.
  - unfold bind in H. destruct (f x r) as [[[y | e |] |] r1] eqn:Hx; try discriminate.
    destruct (mapM f l r1) as [[[ys' | e |] |] r2] eqn:Hl; try discriminate.
    inversion H; subst. constructor; [now exists r, r1 | now apply (IH r1 ys' r')].
Qed.

Section OrderBy.
Variable ev : expr -> EvalContext -> M (list Data).
Variable qil : list EPath.
Variable ctx : EvalContext.

(** The key that [decorate] computed for a row, in some state of the
    generator. *)
Definition key_of (sort : SortExpr expr) (row : Row) (k : Data) : Prop :=
  exists ra rb, decorate_row ev sort qil ctx row ra = (Done (Ok (row, k)), rb).

Lemma decorate_row_ok (sort : SortExpr expr) (row : Row) (x : Row * Data) (ra rb : Rng) :
  decorate_row ev sort qil ctx row ra = (Done (Ok x), rb) ->
  fst x = row /\ exists vals, snd x = sort_key (nones_bigger sort) vals.
Proof.
  unfold decorate_row, bind.
  destruct (subquery ev _ _ ra) as [[[vals | e |] |] r1]; try discriminate.
  destruct (List.length vals <=? 1)%nat; [| discriminate].
  intros H. inversion H; subst. simpl. split; [reflexivity | now exists vals].
Qed.

Lemma decorate_ok (sort : SortExpr expr) (out : list Row) (new : list (Row * Data))
      (r r' : Rng) :
  decorate ev sort qil out ctx r = (Done (Ok new), r') ->
  map fst new = out
  /\ Forall2 (key_of sort) out (map snd new)
  /\ Forall (fun x => exists vals, snd x = sort_key (nones_bigger sort) vals) new.
Proof.
  intros H. apply mapM_ok in H.
  induction H as [| row x out new [ra [rb Hx]] _ IH]; simpl.
  - repeat split; constructor.
  - destruct (decorate_row_ok _ _ _ Hx) as [Hrow Hkey].
    destruct IH as [IH1 [IH2 IH3]]. repeat split.
    + now rewrite Hrow, IH1.
    + constructor; [| exact IH2].
      exists ra, rb. rewrite Hx. destruct x; simpl in *; now subst.
    + constructor; assumption.
Qed.

(** The passes of [eval_orderby], in the order in which they run. *)
Definition run_passes (passes : list (SortExpr expr)) (out : list Row)
  : M (list Row) :=
  fold_left
    (fun (acc : M (list Row)) (sort : SortExpr expr) =>
       out' <- acc ;; orderby_pass ev sort qil out' ctx)
    passes (ret out).

Lemma eval_orderby_passes (orderby : list (SortExpr expr)) (out : list Row) :
  eval_orderby ev orderby qil out ctx = run_passes (rev orderby) out.
Proof. reflexivity. Qed.

Lemma run_passes_snoc (passes : list (SortExpr expr)) (sort : SortExpr expr)
      (out : list Row) :
  run_passes (passes ++ [sort]) out
  = (out' <- run_passes passes out ;; orderby_pass ev sort qil out' ctx).
Proof. unfold run_passes. now rewrite fold_left_app. Qed.

End OrderBy.

(** ** Rows tagged with their position *)

Definition tag_rows (out : list Row) : list (Row * nat) :=
  combine out (seq 0 (List.length out)).

(** Forget the tag of a decorated row. *)
Definition untag (x : Row * nat * Data) : Row * Data := (fst (fst x), snd x).

Lemma map_fst_combine {A B : Type} (l : list A) (ks : list B) :
  List.length ks = List.length l -> map fst (combine l ks) = l.
Proof.
  revert ks. induction l as [| x l IH]; intros [| k ks] H; simpl in *;
    try discriminate; [reflexivity |]. f_equal. apply IH. now inversion H.
Qed.

Lemma map_snd_combine {A B : Type} (l : list A) (ks : list B) :
  List.length ks = List.length l -> map snd (combine l ks) = ks.
Proof.
  revert ks. induction l as [| x l IH]; intros [| k ks] H; simpl in *;
    try discriminate; [reflexivity |]. f_equal. apply IH. now inversion H.
Qed.

Lemma untag_combine (t : list (Row * nat)) (new : list (Row * Data)) :
  map fst new = map fst t ->
  map untag (combine t (map snd new)) = new.
Proof.
  revert new. induction t as [| [row i] t IH]; intros [| [row' k] new] H;
    simpl in *; try discriminate; [reflexivity |].
  inversion H; subst. unfold untag at 1. simpl. f_equal. now apply IH.
Qed.

Lemma in_combine_key {A B : Type} (l : list A) (ks : list B) (x : A) :
  List.length ks = List.length l -> In x l -> exists k, In (x, k) (combine l ks).
Proof.
  revert ks. induction l as [| y l IH]; intros [| k ks] Hlen Hin; simpl in *;
    try discriminate; try contradiction.
  destruct Hin as [-> | Hin]; [exists k; now left |].
  destruct (IH ks) as [k' Hk']; [now inversion Hlen | exact Hin |].
  exists k'. now right.
Qed.

Lemma Forall2_combine {A B : Type} (P : A -> B -> Prop) (l : list A) (ks : list B) :
  Forall2 P l ks -> forall x k, In (x, k) (combine l ks) -> P x k.
Proof.
  induction 1 as [| y k' l ks Hy _ IH]; intros x k Hin; simpl in Hin;
    [contradiction |].
  destruct Hin as [Heq | Hin]; [now inversion Heq; subst | now apply IH].
Qed.

Section OrderByTagged.
Variable ev : expr -> EvalContext -> M (list Data).
Variable qil : list EPath.
Variable ctx : EvalContext.

(** One pass, seen on rows that carry a tag. *)
Lemma orderby_pass_tagged (sort : SortExpr expr) (t : list (Row * nat))
      (r r2 : Rng) (out2 : list Row) :
  NoDup (map snd t) ->
  orderby_pass ev sort qil (map fst t) ctx r = (Done (Ok out2), r2) ->
  exists (t2 : list (Row * nat)) (ks : list Data),
    List.length ks = List.length t
    /\ map fst t2 = out2
    /\ Permutation t t2
    /\ Forall2 (fun x k => key_of ev qil ctx sort (fst x) k) t ks
    /\ (consistent py_lt ks = true ->
        forall Q : Row * nat -> bool,
          (forall x y kx ky,
              In (x, kx) (combine t ks) -> In (y, ky) (combine t ks) ->
              snd x <> snd y ->
              Q x = true -> Q y = true -> py_eq kx ky = true) ->
          filter Q t2 = filter Q t).
Proof.
  intros Htags. unfold orderby_pass, bind.
  destruct (decorate ev sort qil (map fst t) ctx r)
    as [[[new | e |] |] r1] eqn:Hdec; try discriminate.
  pose proof Hdec as Hd. apply decorate_ok in Hd.
  destruct Hd as [Hrows [Hkeys Hshape]].
  set (ks := map snd new).
  assert (Hlen : List.length ks = List.length t).
  { unfold ks. rewrite length_map.
    apply (f_equal (@List.length _)) in Hrows. now rewrite !length_map in Hrows. }
  pose proof (untag_combine t new Hrows) as Hun. fold ks in Hun.
  unfold liftO. rewrite <- Hun at 1. rewrite py_sorted_map.
  destruct (py_sorted (lt_via key_lt untag) _ (combine t ks)) as [ts | e |] eqn:Hs;
    simpl; try discriminate.
  intros H. inversion H; subst out2 r2. clear H.
  assert (Hnd : NoDup (combine t ks)).
  { apply (NoDup_map_inv (fun p : Row * nat * Data => snd (fst p))).
    now rewrite <- map_map with (f := fst) (g := snd), map_fst_combine. }
  pose proof (@py_sorted_perm _ _ _ _ _ Hs) as Hperm.
  exists (map fst ts), ks. split; [exact Hlen |]. split; [| split; [| split]].
  - rewrite !map_map. reflexivity.
  - rewrite <- (map_fst_combine t ks Hlen) at 1. now apply Permutation_map.
  - clear - Hkeys. revert Hkeys. unfold ks. generalize (map snd new) as l.
    induction t as [| x t IH]; intros l H; inversion H; subst; constructor; auto.
  - intros Hcons Q HQ.
    assert (Hcons' : consistent (lt_via key_lt untag) (combine t ks) = true).
    { change (consistent (lt_via key_lt untag) (combine t ks))
        with (consistent (lt_via py_lt (@snd (Row * nat) Data)) (combine t ks)).
      now rewrite <- consistent_map, map_snd_combine. }
    destruct (@py_sorted_stable _ _ _ _ _ Hnd Hcons' Hs) as [_ Hstable].
    rewrite filter_map_swap, Hstable, <- filter_map_swap.
    + now rewrite map_fst_combine.
    + intros [x kx] [y ky] Hx Hy Hxy Qx Qy. unfold lt_via, key_lt, untag. simpl.
      assert (Htag : snd x <> snd y).
      { intros Heq. apply Hxy.
        assert (Hk : forall p q : Row * nat * Data,
                   In p (combine t ks) -> In q (combine t ks) ->
                   snd (fst p) = snd (fst q) -> p = q).
        { assert (Htk : NoDup (map (fun p : Row * nat * Data => snd (fst p))
                                   (combine t ks)))
            by now rewrite <- map_map with (f := fst) (g := snd), map_fst_combine.
          clear - Htk. induction (combine t ks) as [| a l IH]; intros p q Hp Hq E;
            [contradiction |].
          simpl in Htk. inversion Htk as [| ? ? Hn Htk']; subst.
          destruct Hp as [<- | Hp]; destruct Hq as [<- | Hq]; auto.
          - exfalso. apply Hn. rewrite E.
            now apply (in_map (fun p : Row * nat * Data => snd (fst p))).
          - exfalso. apply Hn. rewrite <- E.
            now apply (in_map (fun p : Row * nat * Data => snd (fst p))). }
        now apply Hk. }
      assert (Hsx : exists vals, kx = sort_key (nones_bigger sort) vals).
      { apply in_combine_r in Hx. unfold ks in Hx. apply in_map_iff in Hx.
        destruct Hx as [p [<- Hp]]. rewrite Forall_forall in Hshape.
        now apply Hshape. }
      assert (Hsy : exists vals, ky = sort_key (nones_bigger sort) vals).
      { apply in_combine_r in Hy. unfold ks in Hy. apply in_map_iff in Hy.
        destruct Hy as [p [<- Hp]]. rewrite Forall_forall in Hshape.
        now apply Hshape. }
      destruct Hsx as [vx ->]. destruct Hsy as [vy ->].
      apply sort_key_eq_not_lt. now apply (HQ x y).
Qed.

End OrderByTagged.

(** The key that a pass gave to the row tagged [i]. *)
Definition key_at (tk : list (Row * nat * Data)) (i : nat) : Data :=
  match find (fun p => Nat.eqb (snd (fst p)) i) tk with
  | Some p => snd p
  | None => DNone
  end.

Lemma key_at_In (tk : list (Row * nat * Data)) (x : Row * nat) (k : Data) :
  NoDup (map (fun p => snd (fst p)) tk) ->
  In (x, k) tk -> key_at tk (snd x) = k.
Proof.
  unfold key_at. induction tk as [| p tk IH]; intros Hnd Hin; [contradiction |].
  simpl in Hnd. inversion Hnd as [| ? ? Hnotin Hnd']; subst.
  simpl. destruct (Nat.eqb_spec (snd (fst p)) (snd x)) as [Heq | Hne].
  - destruct Hin as [-> | Hin]; [reflexivity |].
    exfalso. apply Hnotin. rewrite Heq.
    change (snd x) with ((fun p : Row * nat * Data => snd (fst p)) (x, k)).
    now apply in_map.
  - destruct Hin as [-> | Hin]; [now simpl in Hne | now apply IH].
Qed.

Lemma tag_rows_fst (out : list Row) : map fst (tag_rows out) = out.
Proof. unfold tag_rows. apply map_fst_combine. apply length_seq. Qed.

Lemma tag_rows_NoDup (out : list Row) : NoDup (map snd (tag_rows out)).
Proof.
  unfold tag_rows. rewrite map_snd_combine by apply length_seq. apply seq_NoDup.
Qed.

(** The keys that a pass gave to the [n] rows are ordered consistently
    by [<]. *)
Definition ordered_keys (n : nat) (k : nat -> Data) : Prop :=
  consistent py_lt (map k (seq 0 n)) = true.

Lemma in_combine_value {A B : Type} (l : list A) (ks : list B) (k : B) :
  List.length ks = List.length l -> In k ks -> exists x, In (x, k) (combine l ks).
Proof.
  revert ks. induction l as [| y l IH]; intros [| k' ks] Hlen Hin; simpl in *;
    try discriminate; try contradiction.
  destruct Hin as [-> | Hin]; [exists y; now left |].
  destruct (IH ks) as [x Hx]; [now inversion Hlen | exact Hin |].
  exists x. now right.
Qed.

Section OrderByStable.
Variable ev : expr -> EvalContext -> M (list Data).
Variable qil : list EPath.
Variable ctx : EvalContext.

(** What a run of sorting passes does to the rows [out]: [t'] lists the
    result with the original positions, [K] gives for each pass the key of
    the row at each original position, and, when the keys of every pass
    are ordered consistently, every class [Q] of rows whose keys agree in
    every pass is in its original order. *)
Definition stable_run (passes : list (SortExpr expr)) (out out' : list Row)
           (t' : list (Row * nat)) (K : list (nat -> Data)) : Prop :=
  map fst t' = out'
  /\ Permutation (tag_rows out) t'
  /\ Forall2 (fun sort k =>
                forall x, In x (tag_rows out) ->
                          key_of ev qil ctx sort (fst x) (k (snd x)))
             passes K
  /\ (Forall (ordered_keys (List.length out)) K ->
      forall Q : Row * nat -> bool,
        (forall x y, In x (tag_rows out) -> In y (tag_rows out) ->
                     snd x <> snd y ->
                     Q x = true -> Q y = true ->
                     Forall (fun k => py_eq (k (snd x)) (k (snd y)) = true) K) ->
        filter Q t' = filter Q (tag_rows out)).

Lemma run_passes_stable (passes : list (SortExpr expr)) :
  forall (out out' : list Row) (r r' : Rng),
    run_passes ev qil ctx passes out r = (Done (Ok out'), r') ->
    exists t' K, stable_run passes out out' t' K.
Proof.
  induction passes as [| sort passes IH] using rev_ind; intros out out' r r' Hrun.
  - inversion Hrun; subst. exists (tag_rows out'), [].
    split; [apply tag_rows_fst |]. split; [reflexivity |].
    split; [constructor | reflexivity].
  - rewrite run_passes_snoc in Hrun. unfold bind in Hrun.
    destruct (run_passes ev qil ctx passes out r) as [[[out1 | e |] |] r1] eqn:H1;
      try discriminate.
    destruct (IH _ _ _ _ H1) as [t1 [K [Hfst [Hperm [Hkeys Hstable]]]]].
    rewrite <- Hfst in Hrun.
    assert (Htags : NoDup (map snd t1))
      by apply (Permutation_NoDup (Permutation_map snd Hperm)), tag_rows_NoDup.
    apply orderby_pass_tagged in Hrun; [| exact Htags].
    destruct Hrun as [t2 [ks [Hlen [Hfst2 [Hperm2 [Hks Hstable2]]]]]].
    assert (Hnd : NoDup (map (fun p : Row * nat * Data => snd (fst p)) (combine t1 ks)))
      by now rewrite <- map_map with (f := fst) (g := snd), map_fst_combine.
    exists t2, (K ++ [key_at (combine t1 ks)]).
    split; [exact Hfst2 |]. split; [now rewrite Hperm |]. split.
    + apply Forall2_app; [exact Hkeys |]. constructor; [| constructor].
      intros x Hx. apply (Permutation_in _ Hperm) in Hx.
      destruct (in_combine_key t1 ks x Hlen Hx) as [k Hk].
      rewrite (key_at_In _ _ _ Hnd Hk).
      now apply (Forall2_combine Hks).
    + intros Hord Q HQ. apply Forall_app in Hord. destruct Hord as [HordK Hord1].
      inversion Hord1 as [| ? ? Hord _]; subst. unfold ordered_keys in Hord.
      assert (Hcons : consistent py_lt ks = true).
      { apply (@consistent_incl _ py_lt
                 (map (key_at (combine t1 ks)) (seq 0 (List.length out))) ks);
          [| exact Hord].
        intros kx Hkx.
        destruct (in_combine_value t1 ks kx Hlen Hkx) as [x Hx].
        rewrite <- (key_at_In _ _ _ Hnd Hx). apply in_map.
        assert (Hin : In (snd x) (map snd t1))
          by (apply in_map; now apply in_combine_l in Hx).
        apply (Permutation_in _ (Permutation_sym (Permutation_map snd Hperm))) in Hin.
        unfold tag_rows in Hin.
        now rewrite map_snd_combine in Hin by apply length_seq. }
      rewrite (Hstable2 Hcons).
      * apply (Hstable HordK). intros x y Hx Hy Hxy Qx Qy.
        pose proof (HQ x y Hx Hy Hxy Qx Qy) as HK.
        apply Forall_app in HK. tauto.
      * intros x y kx ky Hx Hy Hxy Qx Qy.
        assert (Hx' : In x (tag_rows out)).
        { apply (Permutation_in _ (Permutation_sym Hperm)).
          now apply in_combine_l in Hx. }
        assert (Hy' : In y (tag_rows out)).
        { apply (Permutation_in _ (Permutation_sym Hperm)).
          now apply in_combine_l in Hy. }
        pose proof (HQ x y Hx' Hy' Hxy Qx Qy) as HK.
        apply Forall_app in HK. destruct HK as [_ HK].
        inversion HK as [| ? ? Hk _]; subst.
        now rewrite (key_at_In _ _ _ Hnd Hx), (key_at_In _ _ _ Hnd Hy) in Hk.
Qed.

End OrderByStable.

(** The rows at two positions of a tagged list. *)
Definition tagged_either (i j : nat) (x : Row * nat) : bool :=
  Nat.eqb (snd x) i || Nat.eqb (snd x) j.

Lemma filter_tags_none (out : list Row) (i j : nat) :
  forall s, (i < s)%nat -> (j < s)%nat ->
            filter (tagged_either i j) (combine out (seq s (List.length out))) = [].
Proof.
  induction out as [| a out IH]; intros s Hi Hj; [reflexivity |].
  simpl. unfold tagged_either at 1. simpl.
  destruct (Nat.eqb_spec s i); [lia |]. destruct (Nat.eqb_spec s j); [lia |].
  simpl. apply IH; lia.
Qed.

Lemma filter_tags_one (out : list Row) (i s : nat) :
  forall j rj,
    (i < s)%nat -> nth_error out j = Some rj ->
    filter (tagged_either i (s + j)) (combine out (seq s (List.length out)))
    = [(rj, (s + j)%nat)].
Proof.
  revert s. induction out as [| a out IH]; intros s j rj Hi Hj.
  - destruct j; discriminate.
  - simpl. unfold tagged_either at 1. simpl.
    destruct (Nat.eqb_spec s i); [lia |]. destruct j as [| j]; simpl in Hj.
    + inversion Hj; subst. rewrite Nat.add_0_r, Nat.eqb_refl. simpl.
      f_equal. apply filter_tags_none; lia.
    + destruct (Nat.eqb_spec s (s + S j)); [lia |]. simpl.
      rewrite <- Nat.add_succ_comm. apply IH; [lia | exact Hj].
Qed.

Lemma filter_tags_two (out : list Row) :
  forall s i j ri rj,
    (i < j)%nat -> nth_error out i = Some ri -> nth_error out j = Some rj ->
    filter (tagged_either (s + i) (s + j)) (combine out (seq s (List.length out)))
    = [(ri, (s + i)%nat); (rj, (s + j)%nat)].
Proof.
  induction out as [| a out IH]; intros s i j ri rj Hij Hi Hj.
  - destruct i; discriminate.
  - simpl. unfold tagged_either at 1. simpl.
    destruct j as [| j]; [lia |]. simpl in Hj.
    destruct (Nat.eqb_spec s (s + S j)); [lia |].
    destruct i as [| i]; simpl in Hi.
    + inversion Hi; subst. rewrite Nat.add_0_r, Nat.eqb_refl. simpl.
      f_equal. rewrite <- Nat.add_succ_comm. apply filter_tags_one; [lia | exact Hj].
    + destruct (Nat.eqb_spec s (s + S i)); [lia |]. simpl.
      rewrite <- !Nat.add_succ_comm. apply IH; [lia | exact Hi | exact Hj].
Qed.

(** ** Paths of the query input list start at an object reference *)

Section PathHeads.
Variable node : Type.
Variable node_eqb : node -> node -> bool.

Definition head_is_ORef (p : IPath node) : bool :=
  match p with
  | IORef _ _ :: _ => true
  | _ => false
  end.

Lemma longest_common_prefix_head (x y : IPath node) :
  is_nonempty (longest_common_prefix node_eqb x y) = true ->
  head_is_ORef (longest_common_prefix node_eqb x y) = head_is_ORef x.
Proof.
  destruct x as [| a x], y as [| b y]; simpl; try discriminate.
  destruct (elem_eqb node_eqb a b); [reflexivity | discriminate].
Qed.

Lemma set_add_In (p q : IPath node) (s : list (IPath node)) :
  In p (set_add node_eqb q s) -> p = q \/ In p s.
Proof.
  unfold set_add. destruct (path_in node_eqb q s); [now right |].
  intros H. apply in_app_or in H. destruct H as [H | [H | []]]; auto.
Qed.

Lemma scan_peers_heads (x : IPath node) (ys : list (IPath node)) :
  head_is_ORef x = true ->
  forall prefixes,
    Forall (fun p => head_is_ORef p = true) prefixes ->
    Forall (fun p => head_is_ORef p = true) (fst (scan_peers node_eqb x ys prefixes)).
Proof.
  intros Hx. unfold scan_peers.
  assert (Hgen : forall st : list (IPath node) * bool,
             Forall (fun p => head_is_ORef p = true) (fst st) ->
             Forall (fun p => head_is_ORef p = true)
                    (fst (fold_left
                            (fun (st : list (IPath node) * bool) (y : IPath node) =>
                               let pfx := longest_common_prefix node_eqb x y in
                               if is_nonempty pfx
                               then (set_add node_eqb pfx (fst st), true)
                               else st)
                            ys st))).
  { induction ys as [| y ys IH]; intros st Hst; [exact Hst |].
    simpl. apply IH.
    destruct (is_nonempty (longest_common_prefix node_eqb x y)) eqn:Hne;
      [| exact Hst].
    simpl. apply Forall_forall. intros p Hp.
    apply set_add_In in Hp. destruct Hp as [-> | Hp].
    - now rewrite longest_common_prefix_head.
    - rewrite Forall_forall in Hst. now apply Hst. }
  intros prefixes Hp. now apply Hgen.
Qed.

Lemma find_common_prefixes_from_heads (direct_refs subquery_refs : list (IPath node)) :
  Forall (fun p => head_is_ORef p = true) direct_refs ->
  forall prefixes,
    Forall (fun p => head_is_ORef p = true) prefixes ->
    Forall (fun p => head_is_ORef p = true)
           (find_common_prefixes_from node_eqb prefixes direct_refs subquery_refs).
Proof.
  induction 1 as [| x rest Hx Hrest IH]; intros prefixes Hp; [exact Hp |].
  simpl.
  pose proof (@scan_peers_heads x (x :: rest ++ subquery_refs) Hx prefixes Hp)
    as Hscan.
  destruct (scan_peers node_eqb x (x :: rest ++ subquery_refs) prefixes)
    as [prefixes' added].
  simpl in Hscan. apply IH. destruct added; [exact Hscan |].
  apply Forall_forall. intros p Hin. apply set_add_In in Hin.
  destruct Hin as [-> | Hin]; [exact Hx |].
  rewrite Forall_forall in Hscan. now apply Hscan.
Qed.

Lemma filter_objref_paths_heads (direct_refs kept : list (IPath node)) :
  filter_objref_paths direct_refs = Ok kept ->
  Forall (fun p => head_is_ORef p = true) kept.
Proof.
  revert kept. induction direct_refs as [| x rest IH]; intros kept H; simpl in H.
  - inversion H. constructor.
  - destruct x as [| [| e | n | t | p d] x]; try discriminate; auto.
    destruct (filter_objref_paths rest) as [kept' | e |]; try discriminate.
    inversion H; subst. constructor; [reflexivity | now apply IH].
Qed.

Lemma make_query_input_list_heads (direct_refs subquery_refs old qil : list (IPath node)) :
  make_query_input_list node_eqb direct_refs subquery_refs old = Ok qil ->
  Forall (fun p => head_is_ORef p = true) qil.
Proof.
  unfold make_query_input_list.
  destruct (filter_objref_paths direct_refs) as [kept | e |] eqn:Hk; try discriminate.
  simpl. intros Hs. apply py_sorted_perm in Hs.
  apply Forall_forall. intros p Hp.
  apply (Permutation_in _ (Permutation_sym Hs)) in Hp.
  apply filter_In in Hp. destruct Hp as [Hp _].
  pose proof (@find_common_prefixes_from_heads kept subquery_refs
                (filter_objref_paths_heads _ Hk) [] (Forall_nil _)) as Hall.
  rewrite Forall_forall in Hall. now apply Hall.
Qed.
End PathHeads.

(** ** Computations that neither read nor advance the generator *)

Definition Pure {A : Type} (m : M A) : Prop :=
  exists o : fueled A, forall r, m r = (o, r).

Lemma Pure_liftO {A : Type} (o : outcome A) : Pure (liftO o).
Proof. now exists (Done o). Qed.

Lemma Pure_ret {A : Type} (a : A) : Pure (ret a).
Proof. apply Pure_liftO. Qed.

Lemma Pure_raise {A : Type} (e : exn) : Pure (@raise A e).
Proof. apply Pure_liftO. Qed.

Lemma Pure_bind {A B : Type} (m : M A) (f : A -> M B) :
  Pure m -> (forall a, Pure (f a)) -> Pure (bind m f).
Proof.
  intros [o Ho] Hf. unfold bind.
  destruct o as [[a | e |] |].
  - destruct (Hf a) as [o' Ho']. exists o'. intros r. now rewrite Ho, Ho'.
  - exists (Done (Raise e)). intros r. now rewrite Ho.
  - exists (Done Unmodelled). intros r. now rewrite Ho.
  - exists OutOfFuel. intros r. now rewrite Ho.
Qed.

Lemma Pure_concatM {A B : Type} (f : A -> M (list B)) (l : list A) :
  (forall x, In x l -> Pure (f x)) -> Pure (concatM f l).
Proof.
  induction l as [| x l IH]; intros Hf; simpl; [apply Pure_ret |].
  apply Pure_bind; [apply Hf; now left |]. intros ys.
  apply Pure_bind; [apply IH; intros; apply Hf; now right |].
  intros zs. apply Pure_ret.
Qed.

Lemma Pure_mapM {A B : Type} (f : A -> M B) (l : list A) :
  (forall x, In x l -> Pure (f x)) -> Pure (mapM f l).
Proof.
  induction l as [| x l IH]; intros Hf; simpl; [apply Pure_ret |].
  apply Pure_bind; [apply Hf; now left |]. intros y.
  apply Pure_bind; [apply IH; intros; apply Hf; now right |].
  intros ys. apply Pure_ret.
Qed.

Lemma Pure_lift (f : list Data -> M Data) (args : list (list Data)) :
  (forall a, Pure (f a)) -> Pure (lift f args).
Proof.
  intros Hf. unfold lift. apply Pure_concatM. intros a _.
  apply Pure_bind; [apply Hf |]. intros v. apply Pure_ret.
Qed.

Lemma Pure_unary (f : Data -> outcome Data) (args : list Data) : Pure (unary f args).
Proof. destruct args as [| a [| b args]]; apply Pure_liftO. Qed.

Lemma Pure_binary (f : Data -> Data -> outcome Data) (args : list Data) :
  Pure (binary f args).
Proof. destruct args as [| a [| b [| c args]]]; apply Pure_liftO. Qed.

Lemma Pure_lift_set_of (f : list (list Data) -> outcome Data) (args : list (list Data)) :
  Pure (lift_set_of f args).
Proof.
  unfold lift_set_of. apply Pure_bind; [apply Pure_liftO |].
  intros v. apply Pure_ret.
Qed.

Lemma Pure_opt_eq (args : list (list Data)) : Pure (opt_eq args).
Proof.
  unfold opt_eq. destruct args as [| x [| y [| z args]]]; try apply Pure_raise.
  destruct (_ || _); [apply Pure_ret |].
  apply Pure_lift. intros a. apply Pure_binary.
Qed.

Lemma Pure_opt_ne (args : list (list Data)) : Pure (opt_ne args).
Proof.
  unfold opt_ne. destruct args as [| x [| y [| z args]]]; try apply Pure_raise.
  destruct (_ || _); [apply Pure_ret |].
  apply Pure_lift. intros a. apply Pure_binary.
Qed.

Lemma Pure_fixed_arity (args : list (list Data)) :
  Pure (contains args) /\ Pure (coalesce args) /\ Pure (distinct args)
  /\ Pure (union args) /\ Pure (enumerate_ args) /\ Pure (if_ args).
Proof.
  unfold contains, coalesce, distinct, union, enumerate_, if_.
  destruct args as [| x [| y [| z [| w args]]]];
    repeat split; apply Pure_liftO.
Qed.

Lemma impls_get_In (typ op : string) (f : LiftedFunc)
      (t : list (string * string * LiftedFunc)) :
  impls_get typ op t = Some f -> In (typ, op, f) t.
Proof.
  induction t as [| [[typ' op'] g] t IH]; simpl; [discriminate |].
  destruct (String.eqb_spec typ typ') as [-> | _]; simpl; auto.
  destruct (String.eqb_spec op op') as [-> | _]; simpl; auto.
  intros H. inversion H. now left.
Qed.

(** Every implementation of the basis other than [random] is pure. *)
Lemma Pure_basis (typ op : string) (f : LiftedFunc) (args : list (list Data)) :
  impls_get typ op BASIS_IMPLS = Some f ->
  (String.eqb typ "func" && String.eqb op "random") = false ->
  Pure (f args).
Proof.
  intros Hget Hrandom.
  destruct (Pure_fixed_arity args) as (Hc & Hco & Hd & Hu & He & Hi).
  apply impls_get_In in Hget.
  cbv [BASIS_IMPLS flat_map map app fst snd _BASIS_BINOP_IMPLS _BASIS_UNOP_IMPLS
       _BASIS_CAST_IMPLS _BASIS_FUNC_IMPLS In] in Hget.
  repeat (destruct Hget as [Hget | Hget];
          [ inversion Hget; subst typ op f; clear Hget;
            try discriminate Hrandom;
            solve
              [ apply Pure_lift; intros a;
                first [ apply Pure_binary | apply Pure_unary | apply Pure_liftO ]
              | apply Pure_lift_set_of
              | apply Pure_opt_eq | apply Pure_opt_ne
              | assumption ]
          | ]).
  contradiction.
Qed.

(** ** Queries that do not call [random] *)

Fixpoint random_free (e : expr) : bool :=
  let opt (o : option expr) : bool :=
    match o with Some x => random_free x | None => true end in
  match e with
  | SelectQuery al r w o off lim _ =>
      forallb (fun a => random_free (snd a)) al
      && random_free r && opt w
      && forallb (fun s => random_free (sort_path s)) o
      && opt off && opt lim
  | ForQuery _ i r => random_free i && random_free r
  | BinOp _ l r => random_free l && random_free r
  | UnaryOp _ x => random_free x
  | FunctionCall f args => negb (String.eqb f "random") && forallb random_free args
  | IfElse x c y => random_free x && random_free c && random_free y
  | StringConstant _ => true
  | IntegerConstant _ _ => true
  | BooleanConstant _ => true
  | FloatConstant _ _ => true
  | SetLit es => forallb random_free es
  | Tuple es => forallb random_free es
  | NamedTuple es => forallb (fun a => random_free (snd a)) es
  | TypeCast _ x => random_free x
  | Path _ steps =>
      forallb (fun s => match s with
                        | ExprStep x => random_free x
                        | _ => true
                        end) steps
  | OtherNode ks => forallb random_free ks
  end.

Definition opt_random_free (o : option expr) : bool :=
  match o with Some x => random_free x | None => true end.

Lemma Pure_bind_liftO {A B : Type} (o : outcome A) (f : A -> M B) :
  (forall a, o = Ok a -> Pure (f a)) -> Pure (bind (liftO o) f).
Proof.
  intros Hf. destruct o as [a | e |].
  - destruct (Hf a eq_refl) as [o' Ho']. exists o'. intros r.
    unfold bind, liftO. apply Ho'.
  - now exists (Done (Raise e)).
  - now exists (Done Unmodelled).
Qed.

Lemma simplify_steps_exprs (steps : list (step expr)) :
  forall acc p e,
    simplify_steps acc steps = Ok p ->
    In (IExpr e) p -> In (IExpr e) acc \/ In (ExprStep e) steps.
Proof.
  induction steps as [| s steps IH]; intros acc p e Hp Hin; simpl in Hp.
  - inversion Hp; subst. now left.
  - destruct s as [n | n d | t | x].
    + destruct (is_nonempty acc); [discriminate |].
      destruct (IH _ _ _ Hp Hin) as [H | H]; [| right; now right].
      apply in_app_or in H. destruct H as [H | [H | []]]; [now left | discriminate].
    + destruct (IH _ _ _ Hp Hin) as [H | H]; [| right; now right].
      apply in_app_or in H. destruct H as [H | [H | []]]; [now left | discriminate].
    + destruct (IH _ _ _ Hp Hin) as [H | H]; [| right; now right].
      apply in_app_or in H. destruct H as [H | [H | []]]; [now left | discriminate].
    + destruct (is_nonempty acc); [discriminate |].
      destruct (IH _ _ _ Hp Hin) as [H | H]; [| right; now right].
      apply in_app_or in H. destruct H as [H | [H | []]]; [now left |].
      inversion H; subst. right. now left.
Qed.

Lemma simplify_path_exprs (partial : bool) (steps : list (step expr)) (p : EPath)
      (e : expr) :
  simplify_path partial steps = Ok p -> In (IExpr e) p -> In (ExprStep e) steps.
Proof.
  unfold simplify_path. intros Hp Hin.
  destruct (simplify_steps_exprs _ _ e Hp Hin) as [H | H]; [| exact H].
  destruct partial; simpl in H; [destruct H as [H | []]; discriminate | contradiction].
Qed.

Section Purity.
Variable ev : expr -> EvalContext -> M (list Data).
Hypothesis Hev : forall e ctx, random_free e = true -> Pure (ev e ctx).

Lemma Pure_navigate (ptr : EPathElement) (base : list Data) (ctx : EvalContext) :
  Pure (navigate ptr base ctx).
Proof.
  unfold navigate. apply Pure_bind; [apply Pure_liftO |].
  intros out. apply Pure_ret.
Qed.

Lemma Pure_eval_path_rev (rpath : EPath) (ctx : EvalContext) :
  (forall e rest, rpath = rest ++ [IExpr e] -> random_free e = true) ->
  Pure (eval_path_rev ev rpath ctx).
Proof.
  induction rpath as [| ptr rbase IH]; intros Hbase; cbn [eval_path_rev].
  - destruct (epath_in _ _); [| apply Pure_raise].
    destruct (nth_error _ _); [apply Pure_ret | apply Pure_raise].
  - destruct (epath_in (rev (ptr :: rbase)) _).
    + destruct (nth_error _ _); [apply Pure_ret | apply Pure_raise].
    + destruct rbase as [| b rb].
      * unfold eval_path_base.
        destruct ptr as [| e | n | t | p d];
          try apply Pure_raise; [| apply Pure_liftO].
        apply Hev. now apply (Hbase e []).
      * apply Pure_bind; [| intros base; apply Pure_navigate].
        apply IH. intros e rest Hrest. apply (Hbase e (ptr :: rest)).
        now rewrite Hrest.
Qed.

Lemma Pure_eval_path (path : EPath) (ctx : EvalContext) :
  (forall e tl, path = IExpr e :: tl -> random_free e = true) ->
  Pure (eval_path ev path ctx).
Proof.
  intros Hhead. unfold eval_path. apply Pure_eval_path_rev.
  intros e rest Hrev. apply (Hhead e (rev rest)).
  rewrite <- (rev_involutive path), Hrev, rev_app_distr. reflexivity.
Qed.

Lemma Pure_eval_path_ORef (path : EPath) (ctx : EvalContext) :
  head_is_ORef path = true -> Pure (eval_path ev path ctx).
Proof.
  intros Hhead. apply Pure_eval_path. intros e tl ->. discriminate.
Qed.

Lemma Pure_build_columns (todo : list EPath) :
  Forall (fun p => head_is_ORef p = true) todo ->
  forall done never_optional ctx data,
    Pure (build_columns ev done todo never_optional ctx data).
Proof.
  induction 1 as [| in_path todo Hp _ IH]; intros done never_optional ctx data;
    simpl; [apply Pure_ret |].
  apply Pure_bind; [| intros new_data; apply IH].
  apply Pure_concatM. intros row _.
  apply Pure_bind; [now apply Pure_eval_path_ORef | intros out; apply Pure_ret].
Qed.

Lemma Pure_subquery_full (q : expr) (extra : list (option expr)) (ctx : EvalContext) :
  random_free q = true -> Pure (subquery_full ev q extra ctx).
Proof.
  intros Hq. unfold subquery_full.
  apply Pure_bind_liftO. intros [[direct_paths subquery_paths] never_optional] _.
  apply Pure_bind_liftO. intros qil Hqil.
  apply make_query_input_list_heads in Hqil.
  apply Pure_bind; [now apply Pure_build_columns |]. intros in_tuples.
  apply Pure_bind; [| intros out; apply Pure_ret].
  apply Pure_concatM. intros row _.
  apply Pure_bind; [now apply Hev | intros vals; apply Pure_ret].
Qed.

Lemma Pure_subquery (q : expr) (ctx : EvalContext) :
  random_free q = true -> Pure (subquery ev q ctx).
Proof.
  intros Hq. unfold subquery.
  apply Pure_bind; [now apply Pure_subquery_full |].
  intros [qil rows]. apply Pure_liftO.
Qed.

Lemma Pure_eval_filter (where_ : option expr) (qil : list EPath) (out : list Row)
      (ctx : EvalContext) :
  opt_random_free where_ = true -> Pure (eval_filter ev where_ qil out ctx).
Proof.
  intros Hw. destruct where_ as [w |]; simpl; [| apply Pure_ret].
  apply Pure_concatM. intros row _.
  apply Pure_bind; [now apply Pure_subquery | intros vals; apply Pure_ret].
Qed.

Lemma Pure_orderby_pass (sort : SortExpr expr) (qil : list EPath) (out : list Row)
      (ctx : EvalContext) :
  random_free (sort_path sort) = true -> Pure (orderby_pass ev sort qil out ctx).
Proof.
  intros Hs. unfold orderby_pass, decorate.
  apply Pure_bind.
  - apply Pure_mapM. intros row _. unfold decorate_row.
    apply Pure_bind; [now apply Pure_subquery |]. intros vals.
    destruct (_ <=? _)%nat; [apply Pure_ret | apply Pure_raise].
  - intros new. apply Pure_bind; [apply Pure_liftO | intros s; apply Pure_ret].
Qed.

Lemma Pure_eval_orderby (orderby : list (SortExpr expr)) (qil : list EPath)
      (out : list Row) (ctx : EvalContext) :
  forallb (fun s => random_free (sort_path s)) orderby = true ->
  Pure (eval_orderby ev orderby qil out ctx).
Proof.
  intros Ho. unfold eval_orderby.
  assert (Hrev : forall s, In s (rev orderby) -> random_free (sort_path s) = true).
  { intros s Hs. apply in_rev in Hs. rewrite forallb_forall in Ho. now apply Ho. }
  clear Ho. generalize (ret (A := list Row) out) (Pure_ret out).
  induction (rev orderby) as [| s passes IH]; intros acc Hacc; simpl; [exact Hacc |].
  apply IH; [intros; apply Hrev; now right |].
  apply Pure_bind; [exact Hacc |]. intros out'.
  apply Pure_orderby_pass. apply Hrev. now left.
Qed.

Lemma Pure_eval_offset (offset : option expr) (out : list Row) (ctx : EvalContext) :
  opt_random_free offset = true -> Pure (eval_offset ev offset out ctx).
Proof.
  intros Ho. destruct offset as [e |]; simpl; [| apply Pure_ret].
  apply Pure_bind; [now apply Pure_subquery |]. intros res.
  apply Pure_bind; [apply Pure_liftO | intros n; apply Pure_ret].
Qed.

Lemma Pure_eval_limit (limit : option expr) (out : list Row) (ctx : EvalContext) :
  opt_random_free limit = true -> Pure (eval_limit ev limit out ctx).
Proof.
  intros Ho. destruct limit as [e |]; simpl; [| apply Pure_ret].
  apply Pure_bind; [now apply Pure_subquery |]. intros res.
  apply Pure_bind; [apply Pure_liftO | intros n; apply Pure_ret].
Qed.

Lemma Pure_bind_aliases (al : list (string * expr)) :
  forallb (fun a => random_free (snd a)) al = true ->
  forall ctx, Pure (bind_aliases ev al ctx).
Proof.
  induction al as [| [alias e] al IH]; intros Hal ctx; simpl; [apply Pure_ret |].
  simpl in Hal. apply andb_true_iff in Hal. destruct Hal as [He Hal].
  apply Pure_bind; [now apply Pure_subquery | intros vals; now apply IH].
Qed.
End Purity.

Section PurityNodes.
Variable ev : expr -> EvalContext -> M (list Data).
Hypothesis Hev : forall e ctx, random_free e = true -> Pure (ev e ctx).

Lemma Pure_eval_Select (al : list (string * expr)) (result : expr)
      (where_ : option expr) (orderby : list (SortExpr expr))
      (offset limit : option expr) (result_alias : option string)
      (ctx : EvalContext) :
  random_free (SelectQuery al result where_ orderby offset limit result_alias) = true ->
  Pure (eval_Select ev al result where_ orderby offset limit result_alias ctx).
Proof.
  intros H. cbn [random_free] in H.
  repeat (apply andb_true_iff in H; destruct H as [H ?]).
  unfold eval_Select.
  apply Pure_bind; [now apply Pure_bind_aliases |]. intros ctx1.
  apply Pure_bind; [now apply Pure_subquery_full |]. intros [new_qil out].
  apply Pure_bind.
  { destruct (truthy_name result_alias); [| apply Pure_ret].
    apply Pure_bind; [apply Pure_liftO | intros out'; apply Pure_ret]. }
  intros [new_qil' out1].
  apply Pure_bind; [now apply Pure_eval_filter |]. intros out2.
  apply Pure_bind; [now apply Pure_eval_orderby |]. intros out3.
  apply Pure_bind; [now apply Pure_eval_offset |]. intros out4.
  apply Pure_bind; [now apply Pure_eval_limit |]. intros out5.
  apply Pure_liftO.
Qed.

Lemma Pure_eval_For (iterator_alias : string) (iterator result : expr)
      (ctx : EvalContext) :
  random_free (ForQuery iterator_alias iterator result) = true ->
  Pure (eval_For ev iterator_alias iterator result ctx).
Proof.
  intros H. cbn [random_free] in H. apply andb_true_iff in H. destruct H as [Hi Hr].
  unfold eval_For. apply Pure_bind; [now apply Pure_subquery |]. intros iter_vals.
  apply Pure_concatM. intros val _. now apply Pure_subquery.
Qed.

Lemma Pure_eval_args (arg_specs : option (list TypeModifier)) (args : list expr)
      (ctx : EvalContext) :
  forallb random_free args = true ->
  forall i, Pure (eval_args ev arg_specs i args ctx).
Proof.
  induction args as [| arg args IH]; intros Hargs i; simpl; [apply Pure_ret |].
  simpl in Hargs. apply andb_true_iff in Hargs. destruct Hargs as [Harg Hargs].
  apply Pure_bind; [apply Pure_liftO |]. intros set_of.
  apply Pure_bind.
  - destruct set_of; [now apply Pure_subquery | now apply Hev].
  - intros res. apply Pure_bind; [now apply IH | intros rest; apply Pure_ret].
Qed.

Lemma Pure_eval_func_or_op (op : string) (args : list expr) (typ : string)
      (ctx : EvalContext) :
  forallb random_free args = true ->
  (String.eqb typ "func" && String.eqb op "random") = false ->
  Pure (eval_func_or_op ev op args typ ctx).
Proof.
  intros Hargs Hop. unfold eval_func_or_op.
  apply Pure_bind; [now apply Pure_eval_args |]. intros results.
  destruct (impls_get typ op BASIS_IMPLS) as [f |] eqn:Hf; [| apply Pure_raise].
  now apply (Pure_basis typ op).
Qed.

Lemma Pure_eval_node (node : expr) (ctx : EvalContext) :
  random_free node = true -> Pure (eval_node ev node ctx).
Proof.
  intros H.
  destruct node as [al result where_ orderby offset limit ra | ia iterator result
                   | op lhs rhs | op operand | func args | x c y
                   | v | v neg | v | v neg | es | es | es | typ x
                   | partial steps | ks];
    cbn [eval_node].
  - now apply Pure_eval_Select.
  - now apply Pure_eval_For.
  - cbn [random_free] in H. apply Pure_eval_func_or_op; [| reflexivity].
    simpl. now rewrite andb_true_r.
  - cbn [random_free] in H. apply Pure_eval_func_or_op; [| reflexivity].
    simpl. now rewrite andb_true_r.
  - cbn [random_free] in H. apply andb_true_iff in H. destruct H as [Hf Hargs].
    apply Pure_eval_func_or_op; [exact Hargs |].
    simpl. now apply negb_true_iff in Hf.
  - cbn [random_free] in H. apply Pure_eval_func_or_op; [| reflexivity].
    simpl. now rewrite andb_true_r, <- andb_assoc in *.
  - apply Pure_ret.
  - apply Pure_bind; [apply Pure_liftO | intros n; apply Pure_ret].
  - apply Pure_ret.
  - apply Pure_liftO.
  - cbn [random_free] in H. rewrite forallb_forall in H.
    apply Pure_concatM. intros elem Hin. apply Hev. now apply H.
  - cbn [random_free] in H. rewrite forallb_forall in H.
    apply Pure_bind.
    + apply Pure_mapM. intros arg Hin. apply Hev. now apply H.
    + intros args. apply Pure_lift. intros va. apply Pure_ret.
  - cbn [random_free] in H. rewrite forallb_forall in H.
    apply Pure_bind.
    + apply Pure_mapM. intros arg Hin. apply Hev. now apply H.
    + intros args. apply Pure_lift. intros va. apply Pure_ret.
  - cbn [random_free] in H.
    destruct (impls_get "cast" typ BASIS_IMPLS) as [f |] eqn:Hf; [| apply Pure_raise].
    apply Pure_bind; [now apply Hev |]. intros vals.
    now apply (Pure_basis "cast" typ).
  - cbn [random_free] in H. rewrite forallb_forall in H.
    apply Pure_bind_liftO. intros path Hpath.
    apply Pure_eval_path; [exact Hev |]. intros e tl ->.
    apply (H (ExprStep e)).
    apply (simplify_path_exprs _ _ e Hpath). now left.
  - apply Pure_raise.
Qed.
End PurityNodes.

Lemma Pure_eval (fuel : nat) :
  forall e ctx, random_free e = true -> Pure (eval fuel e ctx).
Proof.
  induction fuel as [| fuel IH]; intros e ctx He.
  - now exists OutOfFuel.
  - simpl. now apply Pure_eval_node.
Qed.

Lemma Pure_go_fuel (fuel : nat) (q : expr) (db : DB) :
  random_free q = true -> Pure (go_fuel fuel q db).
Proof.
  intros Hq. unfold go_fuel. apply Pure_bind.
  - apply Pure_subquery; [apply Pure_eval | exact Hq].
  - intros out. apply Pure_ret.
Qed.

(** ** C9: purity and determinism *)

(** [SELECT random()] *)
Definition q_random : expr := select (FunctionCall "random" []).

(** A generator whose draws are [0], [2^-53], [2 * 2^-53], ... *)
Definition rng_counting : Rng := mkRng (fun n => FFinite (Z.of_nat n) (-53)) 0.




(** ** Equality and order of sequences *)

Section SequenceEquality.
Variable A : Type.
Variable eqb : A -> A -> bool.

Lemma list_eqb_refl (l : list A) :
  (forall x, In x l -> eqb x x = true) -> list_eqb eqb l l = true.
Proof.
  induction l as [| x l IH]; intros H; [reflexivity |].
  simpl. rewrite H by now left. apply IH. intros; apply H; now right.
Qed.

Lemma list_eqb_sym (l m : list A) :
  (forall x y, eqb x y = true -> eqb y x = true) ->
  list_eqb eqb l m = true -> list_eqb eqb m l = true.
Proof.
  intros Hsym. revert m.
  induction l as [| x l IH]; intros [| y m] H; simpl in *; try discriminate; auto.
  apply andb_true_iff in H. destruct H as [Hxy Hlm].
  now rewrite (Hsym _ _ Hxy), IH.
Qed.

Lemma list_eqb_trans (l m n : list A) :
  (forall x y z, eqb x y = true -> eqb y z = true -> eqb x z = true) ->
  list_eqb eqb l m = true -> list_eqb eqb m n = true -> list_eqb eqb l n = true.
Proof.
  intros Htrans. revert m n.
  induction l as [| x l IH]; intros [| y m] [| z n] H1 H2; simpl in *;
    try discriminate; auto.
  apply andb_true_iff in H1. destruct H1 as [Hxy Hlm].
  apply andb_true_iff in H2. destruct H2 as [Hyz Hmn].
  now rewrite (Htrans _ _ _ Hxy Hyz), (IH _ _ Hlm Hmn).
Qed.
End SequenceEquality.

(** A boolean relation that is an equivalence. *)
Definition beq_equivalence {A : Type} (eqb : A -> A -> bool) : Prop :=
  (forall x, eqb x x = true)
  /\ (forall x y, eqb x y = true -> eqb y x = true)
  /\ (forall x y z, eqb x y = true -> eqb y z = true -> eqb x z = true).

Lemma list_eqb_equivalence {A : Type} (eqb : A -> A -> bool) :
  beq_equivalence eqb -> beq_equivalence (list_eqb eqb).
Proof.
  intros (Hr & Hs & Ht). repeat split.
  - intros l. apply list_eqb_refl. auto.
  - intros l m. now apply list_eqb_sym.
  - intros l m n. now apply list_eqb_trans.
Qed.

Section PathEquality.
Variable node : Type.
Variable node_eqb : node -> node -> bool.
Hypothesis node_eqb_equivalence : beq_equivalence node_eqb.

Lemma field_eqb_equivalence : beq_equivalence (field_eqb node_eqb).
Proof.
  destruct node_eqb_equivalence as (Hr & Hs & Ht). repeat split.
  - intros [s | | e]; simpl; auto using String.eqb_refl.
  - intros [s | | e] [t | | e']; simpl; try discriminate; auto.
    now rewrite String.eqb_sym.
  - intros [s | | e] [t | | e'] [u | | e'']; simpl; try discriminate; eauto.
    rewrite !String.eqb_eq. congruence.
Qed.

Lemma elem_eqb_equivalence : beq_equivalence (elem_eqb node_eqb).
Proof.
  destruct (list_eqb_equivalence field_eqb_equivalence) as (Hr & Hs & Ht).
  unfold elem_eqb. repeat split; eauto.
Qed.

Lemma path_eqb_equivalence : beq_equivalence (path_eqb node_eqb).
Proof. apply list_eqb_equivalence, elem_eqb_equivalence. Qed.

Lemma path_eqb_refl (p : IPath node) : path_eqb node_eqb p p = true.
Proof. destruct path_eqb_equivalence as (Hr & _ & _). apply Hr. Qed.

Lemma path_eqb_sym (p q : IPath node) :
  path_eqb node_eqb p q = true -> path_eqb node_eqb q p = true.
Proof. destruct path_eqb_equivalence as (_ & Hs & _). apply Hs. Qed.

Lemma path_eqb_trans (p q s : IPath node) :
  path_eqb node_eqb p q = true -> path_eqb node_eqb q s = true ->
  path_eqb node_eqb p s = true.
Proof. destruct path_eqb_equivalence as (_ & _ & Ht). apply Ht. Qed.

(** [p in l], as a proposition *)
Lemma path_in_iff (p : IPath node) (l : list (IPath node)) :
  path_in node_eqb p l = true <-> exists q, In q l /\ path_eqb node_eqb p q = true.
Proof. unfold path_in. apply existsb_exists. Qed.

Lemma path_in_equiv (p q : IPath node) (l : list (IPath node)) :
  path_eqb node_eqb p q = true -> path_in node_eqb p l = path_in node_eqb q l.
Proof.
  intros Hpq. apply eq_true_iff_eq. rewrite !path_in_iff.
  split; intros [x [Hx Hpx]]; exists x; split; auto.
  - apply path_eqb_trans with p; [now apply path_eqb_sym | exact Hpx].
  - now apply path_eqb_trans with q.
Qed.

Lemma path_in_set_add (p q : IPath node) (s : list (IPath node)) :
  path_in node_eqb p (set_add node_eqb q s) = true
  <-> path_eqb node_eqb p q = true \/ path_in node_eqb p s = true.
Proof.
  unfold set_add. destruct (path_in node_eqb q s) eqn:Hq.
  - split; [now right |]. intros [Hpq | H]; [| exact H].
    now rewrite (@path_in_equiv p q s Hpq).
  - unfold path_in. rewrite existsb_app. simpl. rewrite orb_false_r.
    rewrite orb_true_iff. tauto.
Qed.
End PathEquality.

(** ** The set of common prefixes *)

Section CommonPrefixes.
Variable node : Type.
Variable node_eqb : node -> node -> bool.
Hypothesis node_eqb_equivalence : beq_equivalence node_eqb.

Abbreviation lcp := (longest_common_prefix node_eqb).
Notation "p == q" := (path_eqb node_eqb p q = true) (at level 70, no associativity).

(** [p] is a nonempty longest common prefix of [x] with a path of [ys]. *)
Definition common_prefix_of (x : IPath node) (ys : list (IPath node))
           (p : IPath node) : Prop :=
  exists y, In y ys /\ is_nonempty (lcp x y) = true /\ p == lcp x y.

(** [x] has no nonempty common prefix with any path of [ys]. *)
Definition lone (x : IPath node) (ys : list (IPath node)) : Prop :=
  forall y, In y ys -> is_nonempty (lcp x y) = false.

(** The query input list in the words of the specification: for a path
    [d] of [D], taken with the paths of [D] at or after it and the paths
    of [S], every nonempty longest common prefix, or [d] itself when there
    is none. *)
Definition contributes (D S : list (IPath node)) (p : IPath node) : Prop :=
  exists D1 d D2,
    D = D1 ++ d :: D2
    /\ (common_prefix_of d ((d :: D2) ++ S) p
        \/ (lone d ((d :: D2) ++ S) /\ p == d)).

Lemma scan_peers_spec (x : IPath node) (ys : list (IPath node)) (p : IPath node) :
  forall st : list (IPath node) * bool,
    let res :=
      fold_left
        (fun (st : list (IPath node) * bool) (y : IPath node) =>
           let pfx := lcp x y in
           if is_nonempty pfx then (set_add node_eqb pfx (fst st), true) else st)
        ys st in
    (path_in node_eqb p (fst res) = true
     <-> path_in node_eqb p (fst st) = true \/ common_prefix_of x ys p)
    /\ (snd res = true
        <-> snd st = true \/ exists y, In y ys /\ is_nonempty (lcp x y) = true).
Proof.
  induction ys as [| y ys IH]; intros st; simpl.
  - split; split; auto.
    + intros [H | [y [[] _]]]; exact H.
    + intros [H | [y [[] _]]]; exact H.
  - destruct (IH (if is_nonempty (lcp x y)
                  then (set_add node_eqb (lcp x y) (fst st), true) else st))
      as [IH1 IH2].
    split.
    + rewrite IH1. destruct (is_nonempty (lcp x y)) eqn:Hne; simpl.
      * rewrite (path_in_set_add node_eqb_equivalence). split.
        -- intros [[Hp | Hp] | [z [Hz H]]]; auto.
           ++ right. exists y. split; [now left | auto].
           ++ right. exists z. split; [now right | exact H].
        -- intros [Hp | [z [[-> | Hz] [Hn Hp]]]]; auto.
           right. exists z. auto.
      * split.
        -- intros [Hp | [z [Hz H]]]; auto. right. exists z. split; [now right | exact H].
        -- intros [Hp | [z [[-> | Hz] [Hn Hp]]]]; auto; [congruence |].
           right. exists z. auto.
    + rewrite IH2. destruct (is_nonempty (lcp x y)) eqn:Hne; simpl.
      * split; [| auto]. intros _. right. exists y. split; [now left | exact Hne].
      * split.
        -- intros [H | [z [Hz H]]]; auto. right. exists z. split; [now right | exact H].
        -- intros [H | [z [[-> | Hz] H]]]; auto; [congruence |].
           right. exists z. auto.
Qed.

Lemma lone_iff (x : IPath node) (ys : list (IPath node)) :
  lone x ys <-> ~ exists y, In y ys /\ is_nonempty (lcp x y) = true.
Proof.
  unfold lone. split.
  - intros H [y [Hy Hn]]. rewrite (H y Hy) in Hn. discriminate.
  - intros H y Hy. destruct (is_nonempty (lcp x y)) eqn:Hn; [| reflexivity].
    exfalso. apply H. now exists y.
Qed.

Lemma find_common_prefixes_from_spec (D S : list (IPath node)) (p : IPath node) :
  forall prefixes,
    path_in node_eqb p (find_common_prefixes_from node_eqb prefixes D S) = true
    <-> path_in node_eqb p prefixes = true \/ contributes D S p.
Proof.
  induction D as [| x rest IH]; intros prefixes.
  - simpl. split; [now left |]. intros [H | [D1 [d [D2 [H _]]]]]; [exact H |].
    destruct D1; discriminate.
  - cbn [find_common_prefixes_from].
    pose proof (scan_peers_spec x ((x :: rest) ++ S) p (prefixes, false)) as Hscan.
    cbn zeta in Hscan. fold (scan_peers node_eqb x ((x :: rest) ++ S) prefixes) in Hscan.
    destruct (scan_peers node_eqb x ((x :: rest) ++ S) prefixes)
      as [prefixes' added].
    cbn [fst snd] in Hscan. destruct Hscan as [Hin Hadded].
    rewrite IH.
    assert (Hhere :
              path_in node_eqb p
                (if added then prefixes' else set_add node_eqb x prefixes') = true
              <-> path_in node_eqb p prefixes = true
                  \/ common_prefix_of x ((x :: rest) ++ S) p
                  \/ (lone x ((x :: rest) ++ S) /\ p == x)).
    { destruct added.
      - rewrite Hin. split; [tauto |].
        intros [H | [H | [Hlone _]]]; auto.
        apply lone_iff in Hlone. exfalso. apply Hlone.
        destruct Hadded as [Hadded _]. destruct (Hadded eq_refl) as [H | H];
          [discriminate | exact H].
      - rewrite (path_in_set_add node_eqb_equivalence), Hin.
        assert (Hlone : lone x ((x :: rest) ++ S)).
        { apply lone_iff. intros H. destruct Hadded as [_ Hadded].
          discriminate Hadded. now right. }
        tauto. }
    rewrite Hhere. unfold contributes. split.
    + intros [[H | H] | [D1 [d [D2 [HD H]]]]]; auto.
      * right. exists [], x, rest. auto.
      * right. exists (x :: D1), d, D2. split; [now rewrite HD | exact H].
    + intros [H | [D1 [d [D2 [HD H]]]]]; auto.
      destruct D1 as [| x' D1]; simpl in HD; inversion HD; subst.
      * left. right. exact H.
      * right. exists D1, d, D2. auto.
Qed.
End CommonPrefixes.

Section QueryInputListMembers.
Variable node : Type.
Variable node_eqb : node -> node -> bool.
Hypothesis node_eqb_equivalence : beq_equivalence node_eqb.

Lemma filter_objref_paths_filter (D kept : list (IPath node)) :
  filter_objref_paths D = Ok kept -> kept = filter (@head_is_ORef node) D.
Proof.
  revert kept. induction D as [| x rest IH]; intros kept H; simpl in H.
  - now inversion H.
  - destruct x as [| [| e | n | t | p d] x]; try discriminate; simpl; auto.
    destruct (filter_objref_paths rest) as [kept' | e |]; try discriminate.
    inversion H; subst. f_equal. now apply IH.
Qed.

Lemma path_in_filter_old (old l : list (IPath node)) (p : IPath node) :
  path_in node_eqb p (filter (fun x => negb (path_in node_eqb x old)) l) = true
  <-> path_in node_eqb p l = true /\ path_in node_eqb p old = false.
Proof.
  rewrite !path_in_iff. split.
  - intros [q [Hq Hpq]]. apply filter_In in Hq. destruct Hq as [Hq Hold].
    split; [now exists q |].
    rewrite (@path_in_equiv _ _ node_eqb_equivalence p q old Hpq).
    now apply negb_true_iff.
  - intros [[q [Hq Hpq]] Hold]. exists q. split; [| exact Hpq].
    apply filter_In. split; [exact Hq |]. apply negb_true_iff.
    now rewrite <- (@path_in_equiv _ _ node_eqb_equivalence p q old Hpq).
Qed.

Lemma path_in_perm (l m : list (IPath node)) (p : IPath node) :
  Permutation l m -> path_in node_eqb p l = path_in node_eqb p m.
Proof.
  intros Hperm. apply eq_true_iff_eq. rewrite !path_in_iff.
  split; intros [q [Hq Hpq]]; exists q; split; auto.
  - now apply (Permutation_in _ Hperm).
  - now apply (Permutation_in _ (Permutation_sym Hperm)).
Qed.

(** The members of the query input list. *)
Lemma make_query_input_list_members (D S old qil : list (IPath node)) (p : IPath node) :
  make_query_input_list node_eqb D S old = Ok qil ->
  (path_in node_eqb p qil = true
   <-> contributes node_eqb (filter (@head_is_ORef node) D) S p
       /\ path_in node_eqb p old = false).
Proof.
  unfold make_query_input_list.
  destruct (filter_objref_paths D) as [kept | e |] eqn:Hk; try discriminate.
  apply filter_objref_paths_filter in Hk. subst kept. simpl.
  intros Hs. apply py_sorted_perm in Hs.
  rewrite <- (@path_in_perm _ _ p Hs), path_in_filter_old.
  unfold find_common_prefixes.
  rewrite (find_common_prefixes_from_spec node_eqb_equivalence). simpl.
  split; [intros [[H | H] Ho]; [discriminate | auto] | intros [H Ho]; auto].
Qed.
End QueryInputListMembers.

(** ** The order of the sorted result *)

Section InsertionSorted.
Variable A : Type.
Variable lt : A -> A -> outcome bool.

Definition below (a b : A) : Prop := lt a b = Ok true.

Lemma ltb_of_below (a b : A) : ltb_of lt a b = true <-> below a b.
Proof.
  unfold ltb_of, below. destruct (lt a b) as [[] | e |]; split; congruence.
Qed.

Lemma insert_sorted_HdRel (z x : A) (l : list A) :
  below z x -> HdRel below z l -> HdRel below z (insert_sorted lt x l).
Proof.
  intros Hzx Hl. destruct l as [| y l]; simpl; [now constructor |].
  destruct (ltb_of lt y x); constructor; [now inversion Hl | exact Hzx].
Qed.

Lemma insert_sorted_Sorted (x : A) (l : list A) :
  Sorted below l ->
  (forall y, In y l -> ltb_of lt y x = false -> below x y) ->
  Sorted below (insert_sorted lt x l).
Proof.
  induction 1 as [| y l Hl IH Hhd]; intros Htri; simpl.
  - repeat constructor.
  - destruct (ltb_of lt y x) eqn:Hyx.
    + constructor.
      * apply IH. intros; apply Htri; auto. now right.
      * apply insert_sorted_HdRel; [now apply ltb_of_below | exact Hhd].
    + constructor; [now constructor |].
      constructor. apply Htri; [now left | exact Hyx].
Qed.

(** Insertion sort puts each element strictly below the next one when,
    of two elements, the one that is not below the other is above it. *)
Lemma isort_Sorted (l : list A) :
  ForallOrdPairs (fun x y => ltb_of lt y x = false -> below x y) l ->
  Sorted below (isort lt l).
Proof.
  induction 1 as [| x l Hx _ IH]; simpl; [constructor |].
  apply insert_sorted_Sorted; [exact IH |].
  intros y Hy. rewrite Forall_forall in Hx. apply Hx.
  now apply (Permutation_in _ (isort_perm lt l)).
Qed.
End InsertionSorted.

Section TupleOrder.
Variable A : Type.
Variable eqb : A -> A -> bool.
Variable lt : A -> A -> outcome bool.
Hypothesis eqb_sym : forall a b, eqb a b = true -> eqb b a = true.
Hypothesis lt_trichotomy :
  forall a b c, eqb a b = false -> lt a b = Ok false -> lt b a = Ok c -> c = true.

Lemma eqb_sym_false (a b : A) : eqb a b = false -> eqb b a = false.
Proof.
  intros H. destruct (eqb b a) eqn:Hba; [| reflexivity].
  apply eqb_sym in Hba. congruence.
Qed.

(** Of two tuples that are not equal, one is below the other. *)
Lemma tuple_lt_trichotomy (l m : list A) (c : bool) :
  list_eqb eqb l m = false ->
  tuple_lt eqb lt l m = Ok false -> tuple_lt eqb lt m l = Ok c -> c = true.
Proof.
  revert m. induction l as [| x l IH]; intros [| y m] Hne Hlm Hml;
    simpl in *; try discriminate; try congruence.
  destruct (eqb x y) eqn:Hxy.
  - rewrite (eqb_sym Hxy) in Hml. simpl in Hne. now apply (IH m).
  - rewrite (eqb_sym_false Hxy) in Hml. now apply (@lt_trichotomy x y).
Qed.
End TupleOrder.

(** The order of tuples is transitive when that of their items is. *)
Section TupleOrderTransitive.
Variable A : Type.
Variable eqb : A -> A -> bool.
Variable lt : A -> A -> outcome bool.
Hypothesis eqb_equivalence : beq_equivalence eqb.
Hypothesis lt_compat :
  forall a a' b b', eqb a a' = true -> eqb b b' = true -> lt a b = lt a' b'.
Hypothesis lt_asym : forall a b, lt a b = Ok true -> lt b a = Ok true -> False.
Hypothesis lt_trans :
  forall a b c r, lt a b = Ok true -> lt b c = Ok true -> lt a c = Ok r -> r = true.

Lemma eqb_congruence (a a' b b' : A) :
  eqb a a' = true -> eqb b b' = true -> eqb a b = eqb a' b'.
Proof.
  destruct eqb_equivalence as (_ & Hsym & Htrans). intros Ha Hb.
  destruct (eqb a b) eqn:Hab.
  - symmetry. apply (Htrans a' a b'); [now apply Hsym |].
    now apply (Htrans a b b').
  - destruct (eqb a' b') eqn:Hab'; [| reflexivity].
    rewrite <- Hab. apply (Htrans a a' b); [exact Ha |].
    apply (Htrans a' b' b); [exact Hab' | now apply Hsym].
Qed.

Lemma tuple_lt_equal (l m : list A) :
  list_eqb eqb l m = true -> tuple_lt eqb lt l m = Ok false.
Proof.
  revert m. induction l as [| x l IH]; intros [| y m] H; simpl in *;
    try discriminate; [reflexivity |].
  apply andb_true_iff in H. destruct H as [Hxy Hlm]. rewrite Hxy. now apply IH.
Qed.

Lemma tuple_lt_compat (l l' m m' : list A) :
  list_eqb eqb l l' = true -> list_eqb eqb m m' = true ->
  tuple_lt eqb lt l m = tuple_lt eqb lt l' m'.
Proof.
  revert l' m m'. induction l as [| x l IH]; intros [| x' l'] [| y m] [| y' m'] Hl Hm;
    simpl in *; try discriminate; try reflexivity.
  apply andb_true_iff in Hl. destruct Hl as [Hx Hl].
  apply andb_true_iff in Hm. destruct Hm as [Hy Hm].
  rewrite (eqb_congruence Hx Hy).
  destruct (eqb x' y'); [now apply IH | now apply lt_compat].
Qed.

Lemma tuple_lt_asym (l m : list A) :
  tuple_lt eqb lt l m = Ok true -> tuple_lt eqb lt m l = Ok true -> False.
Proof.
  destruct eqb_equivalence as (_ & Hsym & _).
  revert m. induction l as [| x l IH]; intros [| y m] Hlm Hml; simpl in *;
    try discriminate.
  destruct (eqb x y) eqn:Hxy.
  - rewrite (Hsym _ _ Hxy) in Hml. now apply (IH m).
  - destruct (eqb y x) eqn:Hyx; [apply Hsym in Hyx; congruence |].
    now apply (@lt_asym x y).
Qed.

Lemma tuple_lt_trans (l m n : list A) (r : bool) :
  tuple_lt eqb lt l m = Ok true -> tuple_lt eqb lt m n = Ok true ->
  tuple_lt eqb lt l n = Ok r -> r = true.
Proof.
  destruct eqb_equivalence as (Hrefl & Hsym & Htrans).
  revert m n. induction l as [| x l IH]; intros [| y m] [| z n] Hlm Hmn Hln;
    simpl in *; try discriminate; try congruence.
  destruct (eqb x y) eqn:Hxy; destruct (eqb y z) eqn:Hyz.
  - rewrite (Htrans _ _ _ Hxy Hyz) in Hln. now apply (IH m n).
  - assert (Hxz : eqb x z = false).
    { destruct (eqb x z) eqn:E; [| reflexivity].
      rewrite <- Hyz. symmetry. apply (Htrans y x z); [now apply Hsym | exact E]. }
    rewrite Hxz in Hln.
    rewrite (@lt_compat x y z z Hxy (Hrefl z)) in Hln. congruence.
  - assert (Hxz : eqb x z = false).
    { destruct (eqb x z) eqn:E; [| reflexivity].
      rewrite <- Hxy. symmetry. apply (Htrans x z y); [exact E | now apply Hsym]. }
    rewrite Hxz in Hln.
    rewrite <- (@lt_compat x x y z (Hrefl x) Hyz) in Hln. congruence.
  - destruct (eqb x z) eqn:Hxz.
    + exfalso. apply (@lt_asym x y); [exact Hlm |].
      rewrite (@lt_compat y y x z (Hrefl y) Hxz). exact Hmn.
    + now apply (@lt_trans x y z).
Qed.
End TupleOrderTransitive.

(** An ordering that is total on the items that differ is consistent. *)
Lemma ordered_consistent {A : Type} (eqb : A -> A -> bool)
      (lt : A -> A -> outcome bool) (l : list A) :
  beq_equivalence eqb ->
  (forall a b, eqb a b = true -> lt a b = Ok false) ->
  (forall a b c, eqb a b = false -> lt a b = Ok false -> lt b a = Ok c -> c = true) ->
  (forall a b c r, lt a b = Ok true -> lt b c = Ok true -> lt a c = Ok r -> r = true) ->
  all_comparable lt l = true -> consistent lt l = true.
Proof.
  intros (Hrefl & Hsym & Htrans) Hirr Htri Hlt Hall.
  assert (Hcmp : forall p q, In p l -> In q l -> exists c, lt p q = Ok c).
  { unfold all_comparable in Hall. rewrite forallb_forall in Hall.
    intros p q Hp Hq. specialize (Hall p Hp). rewrite forallb_forall in Hall.
    specialize (Hall q Hq). unfold comparable in Hall.
    destruct (lt p q) as [c | e |]; try discriminate. now exists c. }
  assert (Hun : forall p q, In p l -> In q l ->
                            unordered lt p q = true -> eqb p q = true).
  { intros p q Hp Hq H. unfold unordered, ltb_of in H.
    destruct (Hcmp p q Hp Hq) as [c Hc]. destruct (Hcmp q p Hq Hp) as [c' Hc'].
    rewrite Hc, Hc' in H. destruct c; [discriminate |]. destruct c'; [discriminate |].
    destruct (eqb p q) eqn:E; [reflexivity |].
    pose proof (Htri p q false E Hc Hc'). discriminate. }
  unfold consistent. apply forallb_forall. intros x Hx.
  apply andb_true_iff. split.
  - unfold ltb_of. now rewrite (Hirr x x (Hrefl x)).
  - apply forallb_forall. intros y Hy. apply forallb_forall. intros z Hz.
    apply andb_true_iff. split.
    + destruct (ltb_of lt x y) eqn:Hxy; [| reflexivity].
      destruct (ltb_of lt y z) eqn:Hyz; [| reflexivity]. cbn [andb implb].
      unfold ltb_of in *.
      destruct (lt x y) as [[] | |] eqn:Exy; try discriminate.
      destruct (lt y z) as [[] | |] eqn:Eyz; try discriminate.
      destruct (Hcmp x z Hx Hz) as [c Hc]. rewrite Hc.
      now apply (Hlt x y z c).
    + destruct (unordered lt x y) eqn:Hxy; [| reflexivity].
      destruct (unordered lt y z) eqn:Hyz; [| reflexivity]. cbn [andb implb].
      pose proof (Htrans _ _ _ (Hun x y Hx Hy Hxy) (Hun y z Hy Hz Hyz)) as Hxz.
      unfold unordered, ltb_of.
      now rewrite (Hirr x z Hxz), (Hirr z x (Hsym _ _ Hxz)).
Qed.

Lemma string_ltb_trans (s t u : string) :
  String.ltb s t = true -> String.ltb t u = true -> String.ltb s u = true.
Proof.
  unfold String.ltb. intros Hst Htu.
  destruct (String.compare s t) eqn:Est; try discriminate.
  destruct (String.compare t u) eqn:Etu; try discriminate.
  apply String_as_OT.cmp_lt in Est. apply String_as_OT.cmp_lt in Etu.
  pose proof (String_as_OT.lt_trans s t u Est Etu) as Hsu.
  apply String_as_OT.cmp_lt in Hsu. unfold String_as_OT.cmp in Hsu.
  now rewrite Hsu.
Qed.

Lemma string_ltb_asym (s t : string) :
  String.ltb s t = true -> String.ltb t s = true -> False.
Proof.
  unfold String.ltb. intros H1 H2.
  rewrite (String.compare_antisym t s) in H2.
  destruct (String.compare s t); simpl in *; discriminate.
Qed.

Lemma string_ltb_trichotomy (s t : string) :
  String.eqb s t = false -> String.ltb s t = false -> String.ltb t s = true.
Proof.
  unfold String.ltb. intros Hne Hst.
  rewrite (String.compare_antisym t s).
  destruct (String.compare s t) eqn:Hc; simpl; try reflexivity; try discriminate.
  apply String.compare_eq_iff in Hc. subst. now rewrite String.eqb_refl in Hne.
Qed.

Section PathOrder.
Variable node : Type.
Variable node_eqb : node -> node -> bool.
Hypothesis node_eqb_equivalence : beq_equivalence node_eqb.

Lemma field_lt_trichotomy (a b : field node) (c : bool) :
  field_eqb node_eqb a b = false ->
  field_lt a b = Ok false -> field_lt b a = Ok c -> c = true.
Proof.
  destruct a as [s | | e], b as [t | | e']; simpl; try discriminate.
  intros Hne Hst Hts. inversion Hst as [Hst']. inversion Hts; subst.
  now apply string_ltb_trichotomy.
Qed.

Lemma field_lt_compat (a a' b b' : field node) :
  field_eqb node_eqb a a' = true -> field_eqb node_eqb b b' = true ->
  field_lt a b = field_lt a' b'.
Proof.
  destruct a, a'; simpl; try discriminate; destruct b, b'; simpl;
    try discriminate; try reflexivity.
  intros Ha Hb. apply String.eqb_eq in Ha. apply String.eqb_eq in Hb. now subst.
Qed.

Lemma field_lt_asym (a b : field node) :
  field_lt a b = Ok true -> field_lt b a = Ok true -> False.
Proof.
  destruct a, b; simpl; try discriminate.
  intros H1 H2. inversion H1. inversion H2. now apply (string_ltb_asym s s0).
Qed.

Lemma field_lt_trans (a b c : field node) (r : bool) :
  field_lt a b = Ok true -> field_lt b c = Ok true -> field_lt a c = Ok r -> r = true.
Proof.
  destruct a, b; simpl; try discriminate; destruct c; simpl; try discriminate.
  intros H1 H2 H3. injection H1 as H1. injection H2 as H2. injection H3 as H3.
  subst r. exact (string_ltb_trans _ _ _ H1 H2).
Qed.

Lemma elem_lt_compat (x x' y y' : IPathElement node) :
  elem_eqb node_eqb x x' = true -> elem_eqb node_eqb y y' = true ->
  elem_lt node_eqb x y = elem_lt node_eqb x' y'.
Proof.
  unfold elem_eqb, elem_lt.
  apply tuple_lt_compat;
    [exact (field_eqb_equivalence node_eqb_equivalence) | exact field_lt_compat].
Qed.

Lemma elem_lt_asym (x y : IPathElement node) :
  elem_lt node_eqb x y = Ok true -> elem_lt node_eqb y x = Ok true -> False.
Proof.
  unfold elem_lt.
  apply tuple_lt_asym;
    [exact (field_eqb_equivalence node_eqb_equivalence) | exact field_lt_asym].
Qed.

Lemma elem_lt_trans (x y z : IPathElement node) (r : bool) :
  elem_lt node_eqb x y = Ok true -> elem_lt node_eqb y z = Ok true ->
  elem_lt node_eqb x z = Ok r -> r = true.
Proof.
  unfold elem_lt.
  apply tuple_lt_trans;
    [exact (field_eqb_equivalence node_eqb_equivalence) | exact field_lt_compat
     | exact field_lt_asym | exact field_lt_trans].
Qed.

Lemma elem_lt_trichotomy (x y : IPathElement node) (c : bool) :
  elem_eqb node_eqb x y = false ->
  elem_lt node_eqb x y = Ok false -> elem_lt node_eqb y x = Ok c -> c = true.
Proof.
  destruct (field_eqb_equivalence node_eqb_equivalence) as (_ & Hsym & _).
  unfold elem_eqb, elem_lt. apply tuple_lt_trichotomy; [exact Hsym |].
  apply field_lt_trichotomy.
Qed.

Lemma path_lt_trichotomy (p q : IPath node) (c : bool) :
  path_eqb node_eqb p q = false ->
  path_lt node_eqb p q = Ok false -> path_lt node_eqb q p = Ok c -> c = true.
Proof.
  destruct (elem_eqb_equivalence node_eqb_equivalence) as (_ & Hsym & _).
  unfold path_eqb, path_lt. apply tuple_lt_trichotomy; [exact Hsym |].
  apply elem_lt_trichotomy.
Qed.

(** Paths that can be compared with each other are ordered consistently:
    their [<] is the order of tuples of tuples of strings. *)
Lemma path_lt_consistent (l : list (IPath node)) :
  all_comparable (path_lt node_eqb) l = true ->
  consistent (path_lt node_eqb) l = true.
Proof.
  apply (@ordered_consistent _ (path_eqb node_eqb)).
  - exact (path_eqb_equivalence node_eqb_equivalence).
  - intros p q. unfold path_eqb, path_lt. apply tuple_lt_equal.
  - intros p q c. apply path_lt_trichotomy.
  - intros p q s r. unfold path_lt.
    apply tuple_lt_trans;
      [exact (elem_eqb_equivalence node_eqb_equivalence) | exact elem_lt_compat
       | exact elem_lt_asym | exact elem_lt_trans].
Qed.

(** No two paths of the list are equal. *)
Fixpoint distinct_paths (l : list (IPath node)) : bool :=
  match l with
  | [] => true
  | p :: l' => negb (path_in node_eqb p l') && distinct_paths l'
  end.

Lemma distinct_paths_snoc (s : list (IPath node)) (q : IPath node) :
  distinct_paths s = true -> path_in node_eqb q s = false ->
  distinct_paths (s ++ [q]) = true.
Proof.
  induction s as [| p s IH]; intros Hs Hq; [reflexivity |].
  simpl in *. apply andb_true_iff in Hs. destruct Hs as [Hp Hs].
  apply orb_false_iff in Hq. destruct Hq as [Hqp Hq].
  rewrite (IH Hs Hq), andb_true_r.
  unfold path_in in *. rewrite existsb_app. simpl. rewrite orb_false_r.
  apply negb_true_iff in Hp. rewrite Hp. simpl. apply negb_true_iff.
  destruct (path_eqb node_eqb p q) eqn:Hpq; [| reflexivity].
  apply (path_eqb_sym node_eqb_equivalence) in Hpq. congruence.
Qed.

Lemma distinct_paths_set_add (s : list (IPath node)) (q : IPath node) :
  distinct_paths s = true -> distinct_paths (set_add node_eqb q s) = true.
Proof.
  intros Hs. unfold set_add. destruct (path_in node_eqb q s) eqn:Hq; [exact Hs |].
  now apply distinct_paths_snoc.
Qed.

Lemma distinct_paths_scan_peers (x : IPath node) (ys prefixes : list (IPath node)) :
  distinct_paths prefixes = true ->
  distinct_paths (fst (scan_peers node_eqb x ys prefixes)) = true.
Proof.
  unfold scan_peers. intros Hp.
  change prefixes with (fst (prefixes, false)) in Hp.
  revert Hp. generalize (prefixes, false) as st.
  induction ys as [| y ys IH]; intros st Hst; [exact Hst |].
  simpl. apply IH.
  destruct (is_nonempty (longest_common_prefix node_eqb x y)); [| exact Hst].
  simpl. now apply distinct_paths_set_add.
Qed.

Lemma distinct_paths_find_common_prefixes_from (D S : list (IPath node)) :
  forall prefixes,
    distinct_paths prefixes = true ->
    distinct_paths (find_common_prefixes_from node_eqb prefixes D S) = true.
Proof.
  induction D as [| x rest IH]; intros prefixes Hp; [exact Hp |].
  cbn [find_common_prefixes_from].
  pose proof (distinct_paths_scan_peers x ((x :: rest) ++ S) prefixes Hp) as Hscan.
  destruct (scan_peers node_eqb x ((x :: rest) ++ S) prefixes) as [prefixes' added].
  simpl in Hscan. apply IH. destruct added; [exact Hscan |].
  now apply distinct_paths_set_add.
Qed.

Lemma distinct_paths_filter (f : IPath node -> bool) (l : list (IPath node)) :
  distinct_paths l = true -> distinct_paths (filter f l) = true.
Proof.
  induction l as [| p l IH]; intros Hl; [reflexivity |].
  simpl in Hl. apply andb_true_iff in Hl. destruct Hl as [Hp Hl].
  simpl. destruct (f p); [| now apply IH].
  simpl. rewrite (IH Hl), andb_true_r.
  apply negb_true_iff in Hp. apply negb_true_iff.
  destruct (path_in node_eqb p (filter f l)) eqn:Hin; [| reflexivity].
  apply path_in_iff in Hin. destruct Hin as [q [Hq Hpq]].
  apply filter_In in Hq. destruct Hq as [Hq _].
  assert (Hin : path_in node_eqb p l = true) by (apply path_in_iff; now exists q).
  congruence.
Qed.

Lemma all_comparable_In (l : list (IPath node)) (p q : IPath node) :
  all_comparable (path_lt node_eqb) l = true -> In p l -> In q l ->
  exists c, path_lt node_eqb p q = Ok c.
Proof.
  unfold all_comparable. rewrite forallb_forall. intros Hall Hp Hq.
  specialize (Hall p Hp). rewrite forallb_forall in Hall.
  specialize (Hall q Hq). unfold comparable in Hall.
  destruct (path_lt node_eqb p q) as [c | e |]; try discriminate. now exists c.
Qed.

(** The sorted query input list rises strictly from each path to the
    next. *)
Lemma py_sorted_paths_Sorted (l s : list (IPath node)) :
  distinct_paths l = true ->
  py_sorted (path_lt node_eqb) false l = Ok s ->
  Sorted (below (path_lt node_eqb)) s.
Proof.
  intros Hd. unfold py_sorted.
  destruct (all_comparable (path_lt node_eqb) l) eqn:Hall; [| discriminate].
  rewrite (path_lt_consistent l Hall).
  intros H. inversion H; subst. clear H.
  apply isort_Sorted.
  assert (Hgen : forall l0,
             distinct_paths l0 = true -> incl l0 l ->
             ForallOrdPairs
               (fun x y => ltb_of (path_lt node_eqb) y x = false ->
                           below (path_lt node_eqb) x y) l0);
    [| apply Hgen; [exact Hd | apply incl_refl]].
  clear Hd.
  induction l0 as [| p l0 IH]; intros Hd Hsub; constructor.
  - simpl in Hd. apply andb_true_iff in Hd. destruct Hd as [Hp _].
    apply negb_true_iff in Hp. apply Forall_forall. intros q Hq Hqp.
    assert (Hne : path_eqb node_eqb p q = false).
    { destruct (path_eqb node_eqb p q) eqn:E; [| reflexivity].
      assert (path_in node_eqb p l0 = true) by (apply path_in_iff; now exists q).
      congruence. }
    destruct (all_comparable_In l q p Hall) as [c Hc];
      [apply Hsub; now right | apply Hsub; now left |].
    destruct (all_comparable_In l p q Hall) as [c' Hc'];
      [apply Hsub; now left | apply Hsub; now right |].
    unfold ltb_of in Hqp. rewrite Hc in Hqp. subst c.
    unfold below. rewrite Hc'. f_equal.
    apply (path_lt_trichotomy q p); [| exact Hc | exact Hc'].
    destruct (path_eqb node_eqb q p) eqn:E; [| reflexivity].
    apply (path_eqb_sym node_eqb_equivalence) in E. congruence.
  - simpl in Hd. apply andb_true_iff in Hd. destruct Hd as [_ Hd].
    apply IH; [exact Hd |]. intros x Hx. apply Hsub. now right.
Qed.
End PathOrder.

(** ** Equality of AST nodes

    [expr_eqb] decides equality of query nodes, so that paths of the
    program are compared by an equivalence. *)

Section ExprInduction.
Variable P : expr -> Prop.

Definition P_opt (o : option expr) : Prop :=
  match o with Some e => P e | None => True end.

Definition P_step (s : step expr) : Prop :=
  match s with ExprStep e => P e | _ => True end.

Hypothesis H_SelectQuery : forall al r w o off lim ra,
  Forall (fun x => P (snd x)) al -> P r -> P_opt w ->
  Forall (fun x => P (sort_path x)) o -> P_opt off -> P_opt lim ->
  P (SelectQuery al r w o off lim ra).
Hypothesis H_ForQuery : forall ia i r, P i -> P r -> P (ForQuery ia i r).
Hypothesis H_BinOp : forall op l r, P l -> P r -> P (BinOp op l r).
Hypothesis H_UnaryOp : forall op e, P e -> P (UnaryOp op e).
Hypothesis H_FunctionCall : forall f args, Forall P args -> P (FunctionCall f args).
Hypothesis H_IfElse : forall x c y, P x -> P c -> P y -> P (IfElse x c y).
Hypothesis H_StringConstant : forall v, P (StringConstant v).
Hypothesis H_IntegerConstant : forall v n, P (IntegerConstant v n).
Hypothesis H_BooleanConstant : forall v, P (BooleanConstant v).
Hypothesis H_FloatConstant : forall v n, P (FloatConstant v n).
Hypothesis H_SetLit : forall es, Forall P es -> P (SetLit es).
Hypothesis H_Tuple : forall es, Forall P es -> P (Tuple es).
Hypothesis H_NamedTuple : forall es,
  Forall (fun x => P (snd x)) es -> P (NamedTuple es).
Hypothesis H_TypeCast : forall t e, P e -> P (TypeCast t e).
Hypothesis H_Path : forall p ss, Forall P_step ss -> P (Path p ss).
Hypothesis H_OtherNode : forall ks, Forall P ks -> P (OtherNode ks).

Fixpoint expr_ind (e : expr) : P e :=
  let all :=
    fix all (l : list expr) : Forall P l :=
      match l with
      | [] => Forall_nil _
      | y :: l' => @Forall_cons _ P y l' (expr_ind y) (all l')
      end in
  let named :=
    fix named (l : list (string * expr)) : Forall (fun x => P (snd x)) l :=
      match l with
      | [] => Forall_nil _
      | x :: l' =>
          @Forall_cons _ (fun x => P (snd x)) x l' (expr_ind (snd x)) (named l')
      end in
  let opt := fun o : option expr =>
    match o return P_opt o with
    | Some x => expr_ind x
    | None => I
    end in
  match e with
  | SelectQuery al r w o off lim ra =>
      @H_SelectQuery al r w o off lim ra (named al) (expr_ind r) (opt w)
        ((fix sorts (l : list (SortExpr expr))
            : Forall (fun x => P (sort_path x)) l :=
            match l with
            | [] => Forall_nil _
            | x :: l' =>
                @Forall_cons _ (fun x => P (sort_path x)) x l'
                  (expr_ind (sort_path x)) (sorts l')
            end) o)
        (opt off) (opt lim)
  | ForQuery ia i r => @H_ForQuery ia i r (expr_ind i) (expr_ind r)
  | BinOp op l r => @H_BinOp op l r (expr_ind l) (expr_ind r)
  | UnaryOp op x => @H_UnaryOp op x (expr_ind x)
  | FunctionCall f args => @H_FunctionCall f args (all args)
  | IfElse x c y => @H_IfElse x c y (expr_ind x) (expr_ind c) (expr_ind y)
  | StringConstant v => H_StringConstant v
  | IntegerConstant v n => H_IntegerConstant v n
  | BooleanConstant v => H_BooleanConstant v
  | FloatConstant v n => H_FloatConstant v n
  | SetLit es => @H_SetLit es (all es)
  | Tuple es => @H_Tuple es (all es)
  | NamedTuple es => @H_NamedTuple es (named es)
  | TypeCast t x => @H_TypeCast t x (expr_ind x)
  | Path p ss =>
      @H_Path p ss
        ((fix steps (l : list (step expr)) : Forall P_step l :=
            match l with
            | [] => Forall_nil _
            | s :: l' =>
                @Forall_cons _ P_step s l'
                  (match s return P_step s with
                   | ExprStep x => expr_ind x
                   | _ => I
                   end) (steps l')
            end) ss)
  | OtherNode ks => @H_OtherNode ks (all ks)
  end.
End ExprInduction.

Lemma list_eqb_eq {A : Type} (eqb : A -> A -> bool) (l : list A) :
  Forall (fun x => forall y, eqb x y = true -> x = y) l ->
  forall m, list_eqb eqb l m = true -> l = m.
Proof.
  induction 1 as [| x l Hx _ IH]; intros [| y m] H; simpl in H;
    try discriminate; [reflexivity |].
  apply andb_true_iff in H. destruct H as [Hxy Hlm].
  f_equal; auto.
Qed.

Lemma option_eqb_eq {A : Type} (eqb : A -> A -> bool) (o : option A) :
  match o with
  | Some x => forall y, eqb x y = true -> x = y
  | None => True
  end ->
  forall o', option_eqb eqb o o' = true -> o = o'.
Proof.
  destruct o as [x |]; intros Hx [y |] H; simpl in H; try discriminate;
    [f_equal; auto | reflexivity].
Qed.

Lemma option_string_eqb_eq (o o' : option string) :
  option_eqb String.eqb o o' = true -> o = o'.
Proof.
  apply option_eqb_eq. destruct o; [| exact I].
  intros y. apply String.eqb_eq.
Qed.

Lemma option_eqb_refl {A : Type} (eqb : A -> A -> bool) (o : option A) :
  match o with Some x => eqb x x = true | None => True end ->
  option_eqb eqb o o = true.
Proof.
  destruct o; simpl; auto.
Qed.

Lemma option_string_eqb_refl (o : option string) :
  option_eqb String.eqb o o = true.
Proof.
  destruct o; simpl; [apply String.eqb_refl | reflexivity].
Qed.

Ltac split_andb :=
  repeat match goal with
         | H : (_ && _)%bool = true |- _ =>
             apply andb_true_iff in H; destruct H
         end.

Ltac eqb_subst :=
  repeat match goal with
         | H : String.eqb _ _ = true |- _ => apply String.eqb_eq in H; subst
         | H : Bool.eqb _ _ = true |- _ => apply Bool.eqb_prop in H; subst
         | H : option_eqb String.eqb _ _ = true |- _ =>
             apply option_string_eqb_eq in H; subst
         end.

Lemma expr_eqb_eq (a : expr) : forall b, expr_eqb a b = true -> a = b.
Proof.
  induction a using expr_ind; intros b Hab; destruct b; try discriminate;
    cbn [expr_eqb] in Hab; split_andb; eqb_subst; try reflexivity.
  - f_equal.
    + eapply list_eqb_eq; [| eassumption].
      eapply Forall_impl; [| eassumption].
      intros [n x] Hx [n' y] Hxy. simpl in *. split_andb. eqb_subst.
      f_equal; auto.
    + auto.
    + eapply option_eqb_eq; [| eassumption]. destruct w; simpl in *; auto.
    + eapply list_eqb_eq; [| eassumption].
      eapply Forall_impl; [| eassumption].
      intros [x d n] Hx [y d' n'] Hxy. simpl in *. split_andb. eqb_subst.
      f_equal; auto.
    + eapply option_eqb_eq; [| eassumption]. destruct off; simpl in *; auto.
    + eapply option_eqb_eq; [| eassumption]. destruct lim; simpl in *; auto.
  - f_equal; auto.
  - f_equal; auto.
  - f_equal; auto.
  - f_equal. eapply list_eqb_eq; eassumption.
  - f_equal; auto.
  - f_equal. eapply list_eqb_eq; eassumption.
  - f_equal. eapply list_eqb_eq; eassumption.
  - f_equal. eapply list_eqb_eq; [| eassumption].
    eapply Forall_impl; [| eassumption].
    intros [n x] Hx [n' y] Hxy. simpl in *. split_andb. eqb_subst.
    f_equal; auto.
  - f_equal; auto.
  - f_equal. eapply list_eqb_eq; [| eassumption].
    eapply Forall_impl; [| eassumption].
    intros [n | n d | t | x] Hx [n' | n' d' | t' | y] Hxy; try discriminate;
      simpl in *; split_andb; eqb_subst; f_equal; auto.
  - f_equal. eapply list_eqb_eq; eassumption.
Qed.

Lemma expr_eqb_refl (a : expr) : expr_eqb a a = true.
Proof.
  assert (Hall : forall l, Forall (fun x => expr_eqb x x = true) l ->
                           list_eqb expr_eqb l l = true).
  { intros l Hl. apply list_eqb_refl. now apply Forall_forall. }
  assert (Hnamed : forall l : list (string * expr),
             Forall (fun x => expr_eqb (snd x) (snd x) = true) l ->
             list_eqb (fun x y => String.eqb (fst x) (fst y)
                                  && expr_eqb (snd x) (snd y)) l l = true).
  { intros l Hl. apply list_eqb_refl. intros x Hx.
    rewrite String.eqb_refl. simpl. revert x Hx. now apply Forall_forall. }
  induction a using expr_ind; cbn [expr_eqb];
    rewrite ?String.eqb_refl, ?Bool.eqb_reflx, ?option_string_eqb_refl;
    repeat match goal with
           | H : expr_eqb _ _ = true |- _ => rewrite H; clear H
           end;
    simpl; auto.
  - rewrite (Hnamed _ H). simpl.
    rewrite !option_eqb_refl by (destruct w, off, lim; simpl in *; auto).
    simpl. rewrite !andb_true_r. apply list_eqb_refl. intros x Hx.
    rewrite !option_string_eqb_refl, !andb_true_r.
    revert x Hx. now apply Forall_forall.
  - apply list_eqb_refl. intros s Hs.
    pose proof (proj1 (Forall_forall _ _) H s Hs) as Hstep.
    destruct s; simpl in *; rewrite ?String.eqb_refl, ?option_string_eqb_refl;
      auto.
Qed.

Lemma expr_eqb_equivalence : beq_equivalence expr_eqb.
Proof.
  repeat split.
  - apply expr_eqb_refl.
  - intros x y H. apply expr_eqb_eq in H. subst. apply expr_eqb_refl.
  - intros x y z H1 H2. apply expr_eqb_eq in H1, H2. subst.
    apply expr_eqb_refl.
Qed.

Section QueryInputList.
Variable node : Type.
Variable node_eqb : node -> node -> bool.
Hypothesis node_eqb_equivalence : beq_equivalence node_eqb.

Lemma path_eqb_comm (p q : IPath node) :
  path_eqb node_eqb p q = path_eqb node_eqb q p.
Proof.
  apply eq_true_iff_eq.
  split; apply (path_eqb_sym node_eqb_equivalence).
Qed.

Lemma distinct_paths_perm (l m : list (IPath node)) :
  Permutation l m -> distinct_paths node_eqb l = distinct_paths node_eqb m.
Proof.
  induction 1 as [| x l m Hperm IH | x y l | l m n _ IH1 _ IH2]; simpl.
  - reflexivity.
  - now rewrite IH, (@path_in_perm _ node_eqb l m x Hperm).
  - rewrite (path_eqb_comm y x).
    destruct (path_eqb node_eqb x y), (path_in node_eqb x l),
      (path_in node_eqb y l); reflexivity.
  - congruence.
Qed.

Lemma longest_common_prefix_self (p : IPath node) :
  longest_common_prefix node_eqb p p = p.
Proof.
  destruct (elem_eqb_equivalence node_eqb_equivalence) as (Hrefl & _ & _).
  induction p as [| a p IH]; [reflexivity |].
  simpl. now rewrite Hrefl, IH.
Qed.

(** C2.  The query input list built from the direct references [D], the
    subquery references [S] and the outer list [old] holds exactly the
    paths that the direct references starting at an object reference
    contribute - every nonempty longest common prefix of such a path [d]
    with itself, with a later path of [D] or with a path of [S], [d]
    itself if there was none - and that are not in [old]; it holds each of
    them once, in strictly rising order.  (A path [d] always has itself as
    a common prefix with itself, so that it is never added for want of
    one.) *)
Theorem query_input_list_spec (D S old qil : list (IPath node)) :
  make_query_input_list node_eqb D S old = Ok qil ->
  (forall p,
      path_in node_eqb p qil = true
      <-> contributes node_eqb (filter (@head_is_ORef node) D) S p
          /\ path_in node_eqb p old = false)
  /\ distinct_paths node_eqb qil = true
  /\ Sorted (below (path_lt node_eqb)) qil
  /\ (forall d, In d (filter (@head_is_ORef node) D) ->
                common_prefix_of node_eqb d [d] d).
Proof.
  intros Hqil. split; [| split; [| split]].
  - intros p. now apply make_query_input_list_members.
  - unfold make_query_input_list in Hqil.
    destruct (filter_objref_paths D) as [kept | e |]; try discriminate.
    simpl in Hqil. pose proof (py_sorted_perm _ _ _ Hqil) as Hperm.
    rewrite <- (distinct_paths_perm Hperm).
    apply distinct_paths_filter; try exact node_eqb_equivalence.
    apply distinct_paths_find_common_prefixes_from;
      try exact node_eqb_equivalence.
    reflexivity.
  - unfold make_query_input_list in Hqil.
    destruct (filter_objref_paths D) as [kept | e |]; try discriminate.
    simpl in Hqil.
    apply (py_sorted_paths_Sorted node_eqb_equivalence) in Hqil; [exact Hqil |].
    apply distinct_paths_filter; try exact node_eqb_equivalence.
    apply distinct_paths_find_common_prefixes_from;
      try exact node_eqb_equivalence.
    reflexivity.
  - intros d Hd. apply filter_In in Hd. destruct Hd as [_ Hd].
    exists d. rewrite longest_common_prefix_self.
    split; [now left |]. split.
    + destruct d; [discriminate | reflexivity].
    + apply (path_eqb_refl node_eqb_equivalence).
Qed.
End QueryInputList.

(** The paths of a query that reads [Person.name], [Person.notes.name],
    [Note] and [(1).x], with [Person.notes] read in a subquery and [Note]
    bound further out. *)
Definition sample_direct_refs : list EPath :=
  [ [IORef expr "Person"; IPtr expr "name" (Some ">")];
    [IORef expr "Person"; IPtr expr "notes" (Some ">"); IPtr expr "name" (Some ">")];
    [IORef expr "Note"];
    [IExpr (IntegerConstant "1" false); IPtr expr "x" (Some ">")] ]%string.

Definition sample_subquery_refs : list EPath :=
  [ [IORef expr "Person"; IPtr expr "notes" (Some ">")] ]%string.

Definition sample_old : list EPath := [ [IORef expr "Note"] ]%string.

Definition sample_query_input_list : list EPath :=
  [ [IORef expr "Person"];
    [IORef expr "Person"; IPtr expr "name" (Some ">")];
    [IORef expr "Person"; IPtr expr "notes" (Some ">")];
    [IORef expr "Person"; IPtr expr "notes" (Some ">"); IPtr expr "name" (Some ">")] ]%string.

Lemma query_input_list_spec_witness :
  make_query_input_list expr_eqb sample_direct_refs sample_subquery_refs sample_old
  = Ok sample_query_input_list
  /\ (forall p,
         path_in expr_eqb p sample_query_input_list = true
         <-> contributes expr_eqb (filter (@head_is_ORef expr) sample_direct_refs)
               sample_subquery_refs p
             /\ path_in expr_eqb p sample_old = false)
  /\ distinct_paths expr_eqb sample_query_input_list = true
  /\ Sorted (below (path_lt expr_eqb)) sample_query_input_list.
Proof.
  destruct (@query_input_list_spec expr expr_eqb expr_eqb_equivalence
              sample_direct_refs sample_subquery_refs sample_old
              sample_query_input_list eq_refl)
    as (Hmem & Hdistinct & Hsorted & _).
  split; [reflexivity |]. split; [exact Hmem |].
  split; [exact Hdistinct | exact Hsorted].
Defined.

(** ** C8: sort stability *)

(** Two keys that [==] relates in both directions. *)
Definition same_key (a b : Data) : Prop := py_eq a b = true /\ py_eq b a = true.

(** Integer keys are ordered as the integers are. *)
Lemma int_key_lt (nb : bool) (a b : Z) :
  py_lt (sort_key nb [DInt a]) (sort_key nb [DInt b]) = Ok (a <? b)%Z.
Proof.
  unfold py_lt, sort_key. cbn [py_cmp py_eq numeric num_same num_compare is_Eq].
  assert (Hb : num_same (FFinite (Z.b2z (negb nb)) 0) (FFinite (Z.b2z (negb nb)) 0)
               = true) by apply num_same_refl.
  cbn [num_same num_compare is_Eq] in Hb. rewrite Hb. cbn [andb].
  rewrite Z.min_id, Z.sub_diag, Z.pow_0_r, !Z.mul_1_r.
  unfold Z.ltb. destruct (a ?= b)%Z; reflexivity.
Qed.

Lemma int_keys_ordered (nb : bool) (zs : list Z) :
  consistent py_lt (map (fun z => sort_key nb [DInt z]) zs) = true.
Proof.
  rewrite consistent_map.
  apply (@ordered_consistent _ Z.eqb).
  - repeat split.
    + apply Z.eqb_refl.
    + intros x y H. now rewrite Z.eqb_sym.
    + intros x y z H1 H2. apply Z.eqb_eq in H1. apply Z.eqb_eq in H2.
      apply Z.eqb_eq. congruence.
  - intros a b H. apply Z.eqb_eq in H. subst. unfold lt_via.
    rewrite int_key_lt. now rewrite Z.ltb_irrefl.
  - intros a b c Hne Hab Hba. unfold lt_via in *. rewrite int_key_lt in *.
    apply Z.eqb_neq in Hne. inversion Hab. inversion Hba. lia.
  - intros a b c r Hab Hbc Hac. unfold lt_via in *. rewrite int_key_lt in *.
    inversion Hab. inversion Hbc. inversion Hac. lia.
  - unfold all_comparable. apply forallb_forall. intros x _.
    apply forallb_forall. intros y _. unfold comparable, lt_via.
    now rewrite int_key_lt.
Qed.

Lemma int_keys_ordered_at (n : nat) (nb : bool) (z : nat -> Z) (k : nat -> Data) :
  (forall i, (i < n)%nat -> k i = sort_key nb [DInt (z i)]) -> ordered_keys n k.
Proof.
  intros Hk. unfold ordered_keys.
  replace (map k (seq 0 n))
    with (map (fun x => sort_key nb [DInt x]) (map z (seq 0 n))).
  - apply int_keys_ordered.
  - rewrite map_map. apply map_ext_in. intros i Hi. apply in_seq in Hi.
    symmetry. apply Hk. lia.
Qed.

(** Seven records with the scores 3, 0, 1, NaN, 0, 1, 1, and
    [SELECT Rec ORDER BY .score] *)
Definition score_record (n : N) (score : Data) : Record :=
  [("id", DUuid (bsid n)); ("__type__", DStr "Rec"); ("score", score)].

Definition db_scores : DB :=
  [ (bsid 0, score_record 0 (DInt 3));
    (bsid 1, score_record 1 (DInt 0));
    (bsid 2, score_record 2 (DInt 1));
    (bsid 3, score_record 3 (DFloat (FNaN 0)));
    (bsid 4, score_record 4 (DInt 0));
    (bsid 5, score_record 5 (DInt 1));
    (bsid 6, score_record 6 (DInt 1)) ].

Definition q_by_score : expr :=
  SelectQuery [] (path_of "Rec" []) None
    [mkSortExpr (Path true [Ptr "score" (Some ">")]) None None]
    None None None.

(** C8.  ORDER BY is stable where [<] orders the sort keys consistently:
    when [eval_orderby] returns, its result is a permutation [t'] of the
    rows, each taken with its position before sorting, and, [K] giving
    the sort key that each ORDER BY entry evaluated for each position,
    if the keys of every entry are consistently ordered then every class
    of rows whose keys are pairwise equal in every entry is in its
    original relative order; in particular two rows at positions [i < j]
    with equal keys in every entry come out in that order.  Keys that
    are all integers are consistently ordered. *)
Theorem order_by_stable
        (ev : expr -> EvalContext -> M (list Data))
        (orderby : list (SortExpr expr)) (qil : list EPath)
        (out out' : list Row) (ctx : EvalContext) (r r' : Rng) :
  eval_orderby ev orderby qil out ctx r = (Done (Ok out'), r') ->
  exists (t' : list (Row * nat)) (K : list (nat -> Data)),
    stable_run ev qil ctx (rev orderby) out out' t' K
    /\ (forall i j ri rj,
          (i < j)%nat ->
          nth_error out i = Some ri -> nth_error out j = Some rj ->
          Forall (ordered_keys (List.length out)) K ->
          Forall (fun k => same_key (k i) (k j)) K ->
          filter (tagged_either i j) t' = [(ri, i); (rj, j)])
    /\ (forall (nb : bool) (z : nat -> Z) (k : nat -> Data),
          (forall i, (i < List.length out)%nat -> k i = sort_key nb [DInt (z i)]) ->
          ordered_keys (List.length out) k).
Proof.
  intros Hrun. rewrite eval_orderby_passes in Hrun.
  apply run_passes_stable in Hrun. destruct Hrun as [t' [K Hstable]].
  exists t', K. split; [exact Hstable |].
  split; [| intros nb z k Hk; exact (@int_keys_ordered_at _ nb z k Hk)].
  intros i j ri rj Hij Hi Hj Hord Hsame.
  destruct Hstable as [_ [_ [_ Hstable]]].
  rewrite (Hstable Hord).
  - apply (filter_tags_two out 0 Hij Hi Hj).
  - intros x y _ _ Hxy Qx Qy. unfold tagged_either in Qx, Qy.
    apply orb_true_iff in Qx. apply orb_true_iff in Qy.
    rewrite !Nat.eqb_eq in Qx, Qy.
    eapply Forall_impl; [| exact Hsame]. intros k [Hk1 Hk2]. simpl.
    destruct Qx as [Ex | Ex]; destruct Qy as [Ey | Ey]; rewrite Ex, Ey in *;
      auto; exfalso; now apply Hxy.
Qed.

Lemma order_by_stable_witness :
  exists (t' : list (Row * nat)) (K : list (nat -> Data)),
    stable_run (eval 1) [[IORef expr "n"]; [IPartial expr]] (empty_ctx [])
      (rev [mkSortExpr (Path true []) (Some "DESC") None])
      [[DStr "a"; DInt 2]; [DStr "b"; DInt 1]; [DStr "c"; DInt 2]]
      [[DStr "a"; DInt 2]; [DStr "c"; DInt 2]; [DStr "b"; DInt 1]] t' K
    /\ (forall i j ri rj,
          (i < j)%nat ->
          nth_error [[DStr "a"; DInt 2]; [DStr "b"; DInt 1]; [DStr "c"; DInt 2]] i
          = Some ri ->
          nth_error [[DStr "a"; DInt 2]; [DStr "b"; DInt 1]; [DStr "c"; DInt 2]] j
          = Some rj ->
          Forall (ordered_keys 3) K ->
          Forall (fun k => same_key (k i) (k j)) K ->
          filter (tagged_either i j) t' = [(ri, i); (rj, j)])
    /\ (forall (nb : bool) (z : nat -> Z) (k : nat -> Data),
          (forall i, (i < 3)%nat -> k i = sort_key nb [DInt (z i)]) ->
          ordered_keys 3 k).
Proof.
  apply (@order_by_stable (eval 1)
           [mkSortExpr (Path true []) (Some "DESC") None]
           [[IORef expr "n"]; [IPartial expr]]
           [[DStr "a"; DInt 2]; [DStr "b"; DInt 1]; [DStr "c"; DInt 2]]
           [[DStr "a"; DInt 2]; [DStr "c"; DInt 2]; [DStr "b"; DInt 1]]
           (empty_ctx []) rng0 rng0).
  reflexivity.
Defined.

(** With a NaN among the keys the order of rows with equal keys is not
    kept: the records 5 and 6 both have the score 1, and record 6 comes
    out before record 5. *)
Lemma order_by_stable_counterexample :
  py_equal (DInt 1) (DInt 1) = true
  /\ go q_by_score db_scores rng0
     = (Done (Ok (map (fun n => DDict [("id", DUuid (bsid n))])
                      [1; 4; 2; 6; 0; 3; 5]%N)),
        rng0)
  /\ eval_orderby (eval 2)
       [mkSortExpr (Path true [Ptr "score" (Some ">")]) None None]
       [[IORef expr "Rec"]; [IPartial expr]]
       (map (fun n => [Obj (bsid n); Obj (bsid n)]) [0; 1; 2; 3; 4; 5; 6]%N)
       (empty_ctx db_scores) rng0
     = (Done (Ok (map (fun n => [Obj (bsid n); Obj (bsid n)])
                      [1; 4; 2; 6; 0; 3; 5]%N)),
        rng0).
Proof.
  split; [reflexivity |]. split; vm_compute; reflexivity.
Qed.

(** * Further properties of the evaluator *)

(** ** Cleaned results *)

(** A value that holds no [Obj], at any depth. *)
Fixpoint obj_free (x : Data) : bool :=
  match x with
  | DObj _ _ => false
  | DTuple l => forallb obj_free l
  | DList l => forallb obj_free l
  | DDict d => forallb (fun kv => obj_free (snd kv)) d
  | _ => true
  end.

Definition clean_entries (d : list (string * Data)) : list (string * Data) :=
  map (fun kv => (fst kv, clean_data (snd kv))) d.

Lemma clean_data_entries (d : list (string * Data)) :
  (fix go (d : list (string * Data)) : list (string * Data) :=
     match d with
     | [] => []
     | (k, v) :: d' => (k, clean_data v) :: go d'
     end) d = clean_entries d.
Proof.
  induction d as [| [k v] d IH]; [reflexivity |].
  unfold clean_entries in *. simpl. now rewrite IH.
Qed.

Lemma clean_data_DObj (id : uuid) (shape : list (string * Data)) :
  clean_data (DObj id shape) = DDict (clean_entries shape).
Proof.
  cbn [clean_data]. now rewrite clean_data_entries.
Qed.

Lemma clean_data_DDict (d : list (string * Data)) :
  clean_data (DDict d) = DDict (clean_entries d).
Proof.
  cbn [clean_data]. now rewrite clean_data_entries.
Qed.

Lemma clean_data_obj_free (x : Data) : obj_free (clean_data x) = true.
Proof.
  induction x as [| b | z | f | s | u | l IH | l IH | d IH | id shape IH]
    using Data_ind; try reflexivity.
  - cbn [clean_data obj_free]. rewrite forallb_forall. intros y Hy.
    apply in_map_iff in Hy. destruct Hy as (x & <- & Hx).
    revert x Hx. now apply Forall_forall.
  - cbn [clean_data obj_free]. rewrite forallb_forall. intros y Hy.
    apply in_map_iff in Hy. destruct Hy as (x & <- & Hx).
    revert x Hx. now apply Forall_forall.
  - rewrite clean_data_DDict. cbn [obj_free]. rewrite forallb_forall.
    intros y Hy. apply in_map_iff in Hy. destruct Hy as (kv & <- & Hkv).
    simpl. revert kv Hkv. now apply Forall_forall.
  - rewrite clean_data_DObj. cbn [obj_free]. rewrite forallb_forall.
    intros y Hy. apply in_map_iff in Hy. destruct Hy as (kv & <- & Hkv).
    simpl. revert kv Hkv. now apply Forall_forall.
Qed.

Lemma map_fixed {A : Type} (f : A -> A) (l : list A) :
  (forall x, In x l -> f x = x) -> map f l = l.
Proof.
  induction l as [| x l IH]; intros H; [reflexivity |].
  simpl. rewrite H by now left. f_equal. apply IH. intros; apply H; now right.
Qed.

Lemma clean_data_fixed (x : Data) : obj_free x = true -> clean_data x = x.
Proof.
  induction x as [| b | z | f | s | u | l IH | l IH | d IH | id shape IH]
    using Data_ind; intros Hfree; try reflexivity.
  - cbn [clean_data obj_free] in *. f_equal. apply map_fixed. intros x Hx.
    rewrite forallb_forall in Hfree.
    apply (proj1 (Forall_forall _ _) IH x Hx). now apply Hfree.
  - cbn [clean_data obj_free] in *. f_equal. apply map_fixed. intros x Hx.
    rewrite forallb_forall in Hfree.
    apply (proj1 (Forall_forall _ _) IH x Hx). now apply Hfree.
  - rewrite clean_data_DDict. cbn [obj_free] in Hfree. f_equal.
    unfold clean_entries. apply map_fixed. intros [k v] Hkv.
    rewrite forallb_forall in Hfree. simpl. f_equal.
    apply (proj1 (Forall_forall _ _) IH (k, v) Hkv).
    now apply (Hfree (k, v)).
  - discriminate.
Qed.

(** X1.  [clean_data] returns a value that holds no [Obj] at any depth -
    an object is replaced by its cleaned shape, inside tuples, lists and
    dicts too - and cleaning a cleaned value changes nothing. *)
Theorem clean_data_spec (x : Data) :
  obj_free (clean_data x) = true
  /\ clean_data (clean_data x) = clean_data x.
Proof.
  split; [apply clean_data_obj_free |].
  apply clean_data_fixed, clean_data_obj_free.
Qed.

(** X2.  Whatever [go] returns holds no [Obj]: objects reach the caller
    only as dicts. *)
Theorem go_obj_free (q : expr) (db : DB) (rng : Rng) (vs : list Data) :
  fst (go q db rng) = Done (Ok vs) -> forallb obj_free vs = true.
Proof.
  unfold go, go_fuel, bind, ret, liftO. intros H.
  destruct (subquery (eval (expr_depth q)) q (empty_ctx db) rng)
    as [[[out | e |] |] rng']; simpl in H; try discriminate.
  inversion H; subst. rewrite forallb_forall. intros y Hy.
  apply in_map_iff in Hy. destruct Hy as (x & <- & _).
  apply clean_data_obj_free.
Qed.

Lemma go_obj_free_witness :
  fst (go (select (path_of "Person" [])) DB1 rng0)
  = Done (Ok [DDict [("id", DUuid (bsid 0x10))];
              DDict [("id", DUuid (bsid 0x11))];
              DDict [("id", DUuid (bsid 0x12))]])
  /\ forallb obj_free [DDict [("id", DUuid (bsid 0x10))];
                       DDict [("id", DUuid (bsid 0x11))];
                       DDict [("id", DUuid (bsid 0x12))]] = true.
Proof.
  split; [reflexivity |].
  apply (@go_obj_free (select (path_of "Person" [])) DB1 rng0). reflexivity.
Defined.

(** ** Common prefixes *)

Section LongestCommonPrefix.
Variable node : Type.
Variable node_eqb : node -> node -> bool.

(** X3.  [longest_common_prefix p1 p2] is an initial segment of [p1]; the
    initial segment of [p2] of the same length is equal to it element by
    element under [==]; and it is the longest such: one of the two
    remainders is empty or their first elements differ. *)
Theorem longest_common_prefix_spec (p1 p2 : IPath node) :
  exists r1 c r2,
    p1 = longest_common_prefix node_eqb p1 p2 ++ r1
    /\ p2 = c ++ r2
    /\ path_eqb node_eqb (longest_common_prefix node_eqb p1 p2) c = true
    /\ match r1, r2 with
       | a :: _, b :: _ => elem_eqb node_eqb a b = false
       | _, _ => True
       end.
Proof.
  revert p2. induction p1 as [| a p1 IH]; intros p2.
  - exists [], [], p2. repeat split.
  - destruct p2 as [| b p2].
    + exists (a :: p1), [], []. repeat split.
    + cbn [longest_common_prefix].
      destruct (elem_eqb node_eqb a b) eqn:Hab.
      * destruct (IH p2) as (r1 & c & r2 & H1 & H2 & Hc & Hmax).
        exists r1, (b :: c), r2. split; [| split; [| split]].
        -- simpl. now rewrite <- H1.
        -- simpl. now rewrite <- H2.
        -- unfold path_eqb in *. simpl. now rewrite Hab, Hc.
        -- exact Hmax.
      * exists (a :: p1), [], (b :: p2). repeat split. exact Hab.
Qed.
End LongestCommonPrefix.

(** ** DISTINCT *)

Section Dedup.
Variable A : Type.
Variable eqb : A -> A -> bool.

Lemma first_occurrences_idempotent (l seen : list A) :
  first_occurrences eqb seen (first_occurrences eqb seen l)
  = first_occurrences eqb seen l.
Proof.
  revert seen. induction l as [| x l IH]; intros seen; [reflexivity |].
  simpl. destruct (existsb (eqb x) seen) eqn:Hx; [apply IH |].
  simpl. rewrite Hx. f_equal. apply IH.
Qed.

Lemma dedup_by_app (l m : list A) :
  dedup_by eqb (l ++ m) = dedup_by eqb l ++ first_occurrences eqb (dedup_by eqb l) m.
Proof.
  unfold dedup_by at 1. rewrite fold_left_app.
  fold (dedup_by eqb l). apply dedup_fold_first_occurrences.
Qed.

Lemma first_occurrences_all_seen (l seen : list A) :
  (forall x, In x l -> existsb (eqb x) seen = true) ->
  first_occurrences eqb seen l = [].
Proof.
  induction l as [| x l IH]; intros H; [reflexivity |].
  simpl. rewrite H by now left. apply IH. intros; apply H; now right.
Qed.
End Dedup.

(** X4.  [DISTINCT] is idempotent; on [x UNION y] it yields [DISTINCT x]
    followed by the elements of [y] that are new with respect to it; and
    on [x UNION x] it yields [DISTINCT x]. *)
Theorem distinct_union (x y : list Data) :
  dedup (dedup x) = dedup x
  /\ dedup (x ++ y) = dedup x ++ first_occurrences py_eq (dedup x) y
  /\ ((forall v, In v x -> keys_unique v) -> dedup (x ++ x) = dedup x).
Proof.
  split; [| split].
  - unfold dedup. rewrite !dedup_by_first_occurrences.
    apply first_occurrences_idempotent.
  - apply dedup_by_app.
  - intros Hwf. unfold dedup. rewrite dedup_by_app.
    rewrite first_occurrences_all_seen; [apply app_nil_r |].
    intros v Hv. rewrite dedup_by_first_occurrences.
    destruct (@first_occurrences_complete _ py_eq x [] v) as [H | (w & Hw & Hvw)];
      [| exact Hv | discriminate H |].
    + intros w Hw. apply py_eq_refl. now apply Hwf.
    + apply existsb_exists. now exists w.
Qed.

Lemma distinct_union_witness :
  dedup ([DInt 1; DInt 2; DBool true] ++ [DInt 1; DInt 2; DBool true])
  = dedup [DInt 1; DInt 2; DBool true].
Proof.
  apply (distinct_union [DInt 1; DInt 2; DBool true] []).
  intros v Hv. simpl in Hv. destruct Hv as [<- | [<- | [<- | []]]]; exact I.
Defined.

(** ** Simplified paths *)

(** The steps that navigate from a base: pointers and type intersections. *)
Definition is_nav (s : step expr) : bool :=
  match s with
  | Ptr _ _ => true
  | TypeIntersection _ => true
  | _ => false
  end.

Definition elem_of_step (s : step expr) : EPathElement :=
  match s with
  | ObjectRef name => IORef expr name
  | Ptr name direction => IPtr expr name direction
  | TypeIntersection t => ITypeIntersection expr t
  | ExprStep x => IExpr x
  end.

Lemma simplify_steps_nonempty (steps : list (step expr)) :
  forall spath,
    is_nonempty spath = true ->
    simplify_steps spath steps
    = if forallb is_nav steps then Ok (spath ++ map elem_of_step steps)
      else Raise AssertionError.
Proof.
  induction steps as [| s steps IH]; intros spath Hne.
  - simpl. now rewrite app_nil_r.
  - assert (Hne' : forall x, is_nonempty (spath ++ [x]) = true)
      by (intros x; destruct spath; reflexivity).
    destruct s as [n | n d | t | x]; cbn [simplify_steps forallb is_nav andb map].
    + now rewrite Hne.
    + rewrite IH by apply Hne'.
      now rewrite <- app_assoc.
    + rewrite IH by apply Hne'.
      now rewrite <- app_assoc.
    + now rewrite Hne.
Qed.

(** X5.  [simplify_path] returns the path element by element - [IPartial]
    first for a partial path - when every step after the first navigates,
    and the first one too in a partial path; otherwise an object
    reference or an expression stands where a base already exists, and
    the assertion fails. *)
Theorem simplify_path_spec (partial : bool) (steps : list (step expr)) :
  simplify_path partial steps
  = if forallb is_nav (if partial then steps else tl steps)
    then Ok ((if partial then [IPartial expr] else []) ++ map elem_of_step steps)
    else Raise AssertionError.
Proof.
  unfold simplify_path. destruct partial.
  - now apply simplify_steps_nonempty.
  - destruct steps as [| s steps]; [reflexivity |].
    cbn [tl app map].
    destruct s as [n | n d | t | x]; cbn [simplify_steps is_nonempty app];
      now apply simplify_steps_nonempty.
Qed.

(** ** The flags of the path finder *)

(** The traversal of the arguments of an operator, as a function of its
    own. *)
Fixpoint visit_args_from (op : string) (in_optional in_subquery : bool)
         (i : nat) (args : list expr) : outcome (list found_path) :=
  match args with
  | [] => Ok []
  | arg :: args' =>
      obind (arg_flags (dict_get op BASIS) i in_optional in_subquery) (fun fl =>
      obind (visit arg (fst fl) (snd fl)) (fun ys =>
      obind (visit_args_from op in_optional in_subquery (S i) args') (fun zs =>
      Ok (ys ++ zs))))
  end.

Lemma visit_args_unfold (op : string) (o s : bool) (args : list expr) :
  forall i,
    (fix go (i : nat) (args : list expr) {struct args} : outcome (list found_path) :=
       match args with
       | [] => Ok []
       | arg :: args' =>
           obind (arg_flags (dict_get op BASIS) i o s) (fun fl =>
           obind (visit arg (fst fl) (snd fl)) (fun ys =>
           obind (go (S i) args') (fun zs => Ok (ys ++ zs))))
       end) i args
    = visit_args_from op o s i args.
Proof.
  induction args as [| arg args IH]; intros i; [reflexivity |].
  cbn [visit_args_from]. now rewrite <- IH.
Qed.

Lemma visit_BinOp (op : string) (lhs rhs : expr) (o s : bool) :
  visit (BinOp op lhs rhs) o s = visit_args_from (upper op) o s 0 [lhs; rhs].
Proof. reflexivity. Qed.

Lemma visit_UnaryOp (op : string) (operand : expr) (o s : bool) :
  visit (UnaryOp op operand) o s = visit_args_from (upper op) o s 0 [operand].
Proof. reflexivity. Qed.

Lemma visit_FunctionCall (func : string) (args : list expr) (o s : bool) :
  visit (FunctionCall func args) o s = visit_args_from func o s 0 args.
Proof. cbn [visit]. apply visit_args_unfold. Qed.

Lemma visit_IfElse (x c y : expr) (o s : bool) :
  visit (IfElse x c y) o s = visit_args_from "IF" o s 0 [x; c; y].
Proof. reflexivity. Qed.

(** A found path carries the flags that were set where it was met. *)
Definition flagged (o s : bool) (f : found_path) : Prop :=
  (o = true -> fp_optional f = true) /\ (s = true -> fp_subquery f = true).

Lemma flagged_weaken (o s o' s' : bool) (f : found_path) :
  (o = true -> o' = true) -> (s = true -> s' = true) ->
  flagged o' s' f -> flagged o s f.
Proof. intros Ho Hs [H1 H2]. split; auto. Qed.

Lemma oconcat_map_Forall {A B : Type} (f : A -> outcome (list B)) (Q : B -> Prop)
      (l : list A) :
  Forall (fun x => forall ys, f x = Ok ys -> Forall Q ys) l ->
  forall out, oconcat_map f l = Ok out -> Forall Q out.
Proof.
  induction 1 as [| x l Hx _ IH]; intros out Hout; simpl in Hout.
  - inversion Hout. constructor.
  - destruct (f x) as [ys | e |] eqn:Hfx; try discriminate. simpl in Hout.
    destruct (oconcat_map f l) as [zs | e |]; try discriminate.
    inversion Hout; subst. apply Forall_app. split; auto.
Qed.

Lemma arg_flags_mono (specs : option (list TypeModifier)) (i : nat)
      (o s o' s' : bool) :
  arg_flags specs i o s = Ok (o', s') ->
  (o = true -> o' = true) /\ (s = true -> s' = true).
Proof.
  unfold arg_flags. destruct specs as [[| m specs] |].
  - intros H; inversion H; auto.
  - destruct (nth_error (m :: specs) i) as [[| |] |]; intros H; inversion H; auto.
  - intros H; inversion H; auto.
Qed.

Definition visit_flagged (e : expr) : Prop :=
  forall o s ps, visit e o s = Ok ps -> Forall (flagged o s) ps.

Lemma visit_args_from_flagged (op : string) (o s : bool) (args : list expr) :
  Forall visit_flagged args ->
  forall i ps, visit_args_from op o s i args = Ok ps -> Forall (flagged o s) ps.
Proof.
  induction 1 as [| arg args Harg _ IH]; intros i ps Hps;
    cbn [visit_args_from] in Hps.
  - inversion Hps. constructor.
  - destruct (arg_flags (dict_get op BASIS) i o s) as [[o' s'] | e |] eqn:Hfl;
      try discriminate.
    cbn [obind fst snd] in Hps.
    destruct (visit arg o' s') as [ys | e |] eqn:Hys; try discriminate.
    cbn [obind] in Hps.
    destruct (visit_args_from op o s (S i) args) as [zs | e |] eqn:Hzs;
      try discriminate.
    cbn [obind] in Hps.
    inversion Hps; subst. apply Forall_app. split; [| eapply IH; eauto].
    apply arg_flags_mono in Hfl. destruct Hfl as [Ho Hs].
    eapply Forall_impl; [| apply (Harg _ _ _ Hys)].
    intros f. now apply flagged_weaken.
Qed.

Ltac obind_inv H :=
  repeat match type of H with
         | obind ?m _ = Ok _ =>
             let E := fresh "E" in
             destruct m eqn:E; try discriminate H; cbn [obind] in H
         end.

Lemma visit_opt_flagged (w : option expr) (o s : bool) (ps : list found_path) :
  P_opt visit_flagged w ->
  match w with None => Ok [] | Some x => visit x o s end = Ok ps ->
  Forall (flagged o s) ps.
Proof.
  destruct w as [x |]; simpl; intros Hw H.
  - now apply Hw.
  - inversion H. constructor.
Qed.

Lemma visit_SelectQuery_flagged al r w ob off lim ra (o s : bool)
      (ps : list found_path) :
  Forall (fun x => visit_flagged (snd x)) al -> visit_flagged r ->
  P_opt visit_flagged w ->
  Forall (fun x => visit_flagged (sort_path x)) ob ->
  P_opt visit_flagged off -> P_opt visit_flagged lim ->
  visit (SelectQuery al r w ob off lim ra) o s = Ok ps ->
  Forall (flagged o true) ps.
Proof.
  intros Hal Hr Hw Hob Hoff Hlim H. cbn [visit] in H. obind_inv H.
  inversion H; subst. clear H.
  repeat (apply Forall_app; split).
  - eapply oconcat_map_Forall; [| exact E].
    eapply Forall_impl; [| exact Hal]. intros x Hx ys Hys. now apply Hx.
  - now apply Hr.
  - eapply visit_opt_flagged; [exact Hw | exact E1].
  - eapply oconcat_map_Forall; [| exact E2].
    eapply Forall_impl; [| exact Hob]. intros x Hx ys Hys. now apply Hx.
  - eapply visit_opt_flagged; [exact Hoff | exact E3].
  - eapply visit_opt_flagged; [exact Hlim | exact E4].
Qed.

Lemma visit_ForQuery_flagged ia i r (o s : bool) (ps : list found_path) :
  visit_flagged i -> visit_flagged r ->
  visit (ForQuery ia i r) o s = Ok ps ->
  Forall (flagged o true) ps.
Proof.
  intros Hi Hr H. cbn [visit] in H. obind_inv H.
  inversion H; subst. apply Forall_app. split; [now apply Hi | now apply Hr].
Qed.

Lemma flagged_true_weaken (o s : bool) (ps : list found_path) :
  Forall (flagged o true) ps -> Forall (flagged o s) ps.
Proof.
  apply Forall_impl. intros f. now apply flagged_weaken.
Qed.

Lemma visit_flagged_all (e : expr) : visit_flagged e.
Proof.
  induction e using expr_ind; intros in_opt in_sub ps Hps.
  - apply flagged_true_weaken.
    eapply visit_SelectQuery_flagged; [| | | | | | exact Hps]; assumption.
  - apply flagged_true_weaken.
    eapply visit_ForQuery_flagged; [| | exact Hps]; assumption.
  - rewrite visit_BinOp in Hps.
    eapply visit_args_from_flagged; [| eassumption]. auto.
  - rewrite visit_UnaryOp in Hps.
    eapply visit_args_from_flagged; [| eassumption]. auto.
  - rewrite visit_FunctionCall in Hps.
    eapply visit_args_from_flagged; eassumption.
  - rewrite visit_IfElse in Hps.
    eapply visit_args_from_flagged; [| eassumption]. auto.
  - inversion Hps. constructor.
  - inversion Hps. constructor.
  - inversion Hps. constructor.
  - inversion Hps. constructor.
  - cbn [visit] in Hps. eapply oconcat_map_Forall; [| eassumption].
    eapply Forall_impl; [| eassumption]. intros x Hx ys Hys. now apply Hx.
  - cbn [visit] in Hps. eapply oconcat_map_Forall; [| eassumption].
    eapply Forall_impl; [| eassumption]. intros x Hx ys Hys. now apply Hx.
  - cbn [visit] in Hps. eapply oconcat_map_Forall; [| eassumption].
    eapply Forall_impl; [| eassumption]. intros x Hx ys Hys. now apply Hx.
  - cbn [visit] in Hps. now apply IHe.
  - cbn [visit] in Hps. obind_inv Hps. inversion Hps; subst.
    constructor; [split; auto |].
    eapply oconcat_map_Forall; [| eassumption].
    eapply Forall_impl; [| eassumption].
    intros [n | n d | t | x] Hx ys Hys; try (inversion Hys; constructor).
    now apply Hx.
  - cbn [visit] in Hps. eapply oconcat_map_Forall; [| eassumption].
    eapply Forall_impl; [| eassumption]. intros x Hx ys Hys. now apply Hx.
Qed.

Definition is_query (e : expr) : bool :=
  match e with
  | SelectQuery _ _ _ _ _ _ _ => true
  | ForQuery _ _ _ => true
  | _ => false
  end.

Lemma visit_query_flagged (e : expr) (in_optional in_subquery : bool)
      (ps : list found_path) :
  is_query e = true ->
  visit e in_optional in_subquery = Ok ps ->
  Forall (fun f => fp_subquery f = true) ps.
Proof.
  intros Hq Hps.
  assert (Hall : Forall (flagged in_optional true) ps).
  { destruct e; try discriminate Hq.
    - eapply visit_SelectQuery_flagged; [| | | | | | exact Hps];
        try apply visit_flagged_all;
        try (apply Forall_forall; intros; apply visit_flagged_all);
        match goal with |- P_opt _ ?w => destruct w; simpl; auto end;
        apply visit_flagged_all.
    - eapply visit_ForQuery_flagged; [| | exact Hps]; apply visit_flagged_all. }
  eapply Forall_impl; [| exact Hall]. intros f [_ Hs]. now apply Hs.
Qed.

(** X6.  The flags of the path finder are sticky: a path found while
    [in_optional] is set is recorded as optional, a path found while
    [in_subquery] is set is recorded as a subquery path, whatever operators
    lie in between; and every path found under a [SELECT] or [FOR] node
    is a subquery path. *)
Theorem path_finder_flags (e : expr) (in_optional in_subquery : bool)
        (ps : list found_path) :
  visit e in_optional in_subquery = Ok ps ->
  Forall (fun f => (in_optional = true -> fp_optional f = true)
                   /\ (in_subquery = true -> fp_subquery f = true)) ps
  /\ (is_query e = true -> Forall (fun f => fp_subquery f = true) ps).
Proof.
  intros Hps. split; [exact (visit_flagged_all e _ _ Hps) |].
  intros Hq. exact (visit_query_flagged _ _ _ Hq Hps).
Qed.

Lemma path_finder_flags_witness :
  visit (BinOp "??" (path_of "Person" ["tag"])
               (FunctionCall "count" [path_of "Note" []])) false false
  = Ok [mkFound false [ObjectRef "Person"; Ptr "tag" (Some ">")] true false;
        mkFound false [ObjectRef "Note"] false true]
  /\ Forall (fun f => (true = true -> fp_optional f = true)
                      /\ (false = true -> fp_subquery f = true))
       [mkFound false [ObjectRef "Person"; Ptr "tag" (Some ">")] true false].
Proof.
  split; [reflexivity |].
  apply (@path_finder_flags (path_of "Person" ["tag"]) true false). reflexivity.
Defined.

(** ** The classification of the paths *)

Definition tp_path (x : EPath * bool * bool) : EPath := fst (fst x).
Definition tp_optional (x : EPath * bool * bool) : bool := snd (fst x).
Definition tp_subquery (x : EPath * bool * bool) : bool := snd x.

Lemma classify_paths_fold (l : list (EPath * bool * bool)) :
  forall d sq n,
    fold_left
      (fun (acc : list EPath * list EPath * list EPath) (x : EPath * bool * bool) =>
         let '(direct_paths, subquery_paths, never_optional) := acc in
         let '(path, optional, subquery) := x in
         if subquery then (direct_paths, subquery_paths ++ [path], never_optional)
         else (direct_paths ++ [path], subquery_paths,
               if optional then never_optional
               else never_optional ++ path_prefixes path))
      l (d, sq, n)
    = (d ++ map tp_path (filter (fun x => negb (tp_subquery x)) l),
       sq ++ map tp_path (filter tp_subquery l),
       n ++ flat_map (fun x => path_prefixes (tp_path x))
              (filter (fun x => negb (tp_subquery x) && negb (tp_optional x)) l)).
Proof.
  induction l as [| [[p o] s] l IH]; intros d sq n.
  - simpl. now rewrite !app_nil_r.
  - cbn [fold_left]. destruct s, o; rewrite IH; cbn [filter tp_subquery tp_optional
      tp_path snd fst negb andb map flat_map]; rewrite <- ?app_assoc; reflexivity.
Qed.

Lemma classify_paths_spec (l : list (EPath * bool * bool)) :
  classify_paths l
  = (map tp_path (filter (fun x => negb (tp_subquery x)) l),
     map tp_path (filter tp_subquery l),
     flat_map (fun x => path_prefixes (tp_path x))
       (filter (fun x => negb (tp_subquery x) && negb (tp_optional x)) l)).
Proof. unfold classify_paths. now rewrite classify_paths_fold. Qed.

Lemma omap_list_Forall2 {A B : Type} (f : A -> outcome B) (l : list A) :
  forall out, omap_list f l = Ok out -> Forall2 (fun x y => f x = Ok y) l out.
Proof.
  induction l as [| x l IH]; intros out H; simpl in H.
  - inversion H. constructor.
  - destruct (f x) as [y | e |] eqn:Hx; try discriminate. simpl in H.
    destruct (omap_list f l) as [ys | e |]; try discriminate.
    inversion H; subst. constructor; auto.
Qed.

Lemma find_paths_extras_flagged (q : expr) (extra_subqs : list (option expr))
      (found : list found_path) :
  find_paths q extra_subqs = Ok found ->
  exists p1 p2,
    found = p1 ++ p2 /\ visit q false false = Ok p1
    /\ Forall (fun f => fp_subquery f = true) p2.
Proof.
  unfold find_paths. intros H. obind_inv H. inversion H; subst.
  eexists; eexists. split; [reflexivity |]. split; [reflexivity |].
  eapply oconcat_map_Forall; [| eassumption].
  apply Forall_forall. intros [x |] _ ys Hys.
  - eapply Forall_impl; [| apply (visit_flagged_all x _ _ Hys)].
    intros f [_ Hs]. now apply Hs.
  - inversion Hys. constructor.
Qed.

Lemma filter_none {A : Type} (f : A -> bool) (l : list A) :
  Forall (fun x => f x = false) l -> filter f l = [].
Proof.
  induction 1 as [| x l Hx _ IH]; [reflexivity |]. simpl. now rewrite Hx.
Qed.

Lemma analyze_paths_classified (q : expr) (extra_subqs : list (option expr))
        (direct_paths subquery_paths never_optional : list EPath) :
  analyze_paths q extra_subqs = Ok (direct_paths, subquery_paths, never_optional) ->
  exists found paths_opt,
    find_paths q extra_subqs = Ok found
    /\ Forall2 (fun f x =>
                  simplify_path (fp_partial f) (fp_steps f) = Ok (tp_path x)
                  /\ tp_optional x = fp_optional f
                  /\ tp_subquery x = fp_subquery f) found paths_opt
    /\ direct_paths = map tp_path (filter (fun x => negb (tp_subquery x)) paths_opt)
    /\ subquery_paths = map tp_path (filter tp_subquery paths_opt)
    /\ (forall p,
           always_optional_get never_optional p = false
           <-> exists x i,
                 In x paths_opt /\ tp_subquery x = false /\ tp_optional x = false
                 /\ (1 <= i <= List.length (tp_path x))%nat
                 /\ epath_eqb p (firstn i (tp_path x)) = true)
    /\ (is_query q = true ->
        direct_paths = [] /\ forall p, always_optional_get never_optional p = true).
Proof.
  unfold analyze_paths. intros H.
  destruct (find_paths q extra_subqs) as [found | e |] eqn:Hfound; try discriminate.
  cbn [obind] in H.
  match type of H with
  | obind ?m _ = _ => destruct m as [paths_opt | e |] eqn:Hsimp; try discriminate
  end.
  cbn [obind] in H. rewrite classify_paths_spec in H. inversion H; subst. clear H.
  apply omap_list_Forall2 in Hsimp.
  assert (Hflags : Forall2 (fun f x =>
                      simplify_path (fp_partial f) (fp_steps f) = Ok (tp_path x)
                      /\ tp_optional x = fp_optional f
                      /\ tp_subquery x = fp_subquery f) found paths_opt).
  { eapply Forall2_impl; [| exact Hsimp]. intros f x Hfx. simpl in Hfx.
    destruct (simplify_path (fp_partial f) (fp_steps f)) as [p | e |];
      try discriminate.
    inversion Hfx; subst. repeat split. }
  exists found, paths_opt.
  split; [reflexivity |]. split; [exact Hflags |].
  split; [reflexivity |]. split; [reflexivity |]. split.
  - intros p. unfold always_optional_get, epath_in, path_in.
    rewrite negb_false_iff, existsb_exists. split.
    + intros (p' & Hin & Heq). apply in_flat_map in Hin.
      destruct Hin as (x & Hx & Hp'). apply filter_In in Hx.
      destruct Hx as [Hx Hf]. apply andb_true_iff in Hf.
      destruct Hf as [Hs Ho]. apply negb_true_iff in Hs, Ho.
      unfold path_prefixes in Hp'. apply in_map_iff in Hp'.
      destruct Hp' as (i & <- & Hi). apply in_seq in Hi.
      exists x, i. repeat split; auto; lia.
    + intros (x & i & Hx & Hs & Ho & Hi & Heq).
      exists (firstn i (tp_path x)). split; [| exact Heq].
      apply in_flat_map. exists x. split.
      * apply filter_In. split; [exact Hx |]. now rewrite Hs, Ho.
      * unfold path_prefixes. apply in_map_iff. exists i.
        split; [reflexivity |]. apply in_seq. lia.
  - intros Hq.
    assert (Hall : Forall (fun x => tp_subquery x = true) paths_opt).
    { destruct (find_paths_extras_flagged _ _ Hfound) as (p1 & p2 & -> & Hp1 & Hp2).
      pose proof (visit_query_flagged _ _ _ Hq Hp1) as Hsub.
      assert (Hfs : Forall (fun f => fp_subquery f = true) (p1 ++ p2))
        by (apply Forall_app; now split).
      clear - Hflags Hfs. induction Hflags as [| f x fs xs (_ & _ & Hs) _ IH].
      - constructor.
      - inversion Hfs; subst. constructor; [congruence | now apply IH]. }
    rewrite (@filter_none _ (fun x => negb (tp_subquery x) && negb (tp_optional x))).
    + rewrite (@filter_none _ (fun x => negb (tp_subquery x))).
      * split; reflexivity.
      * eapply Forall_impl; [| exact Hall]. intros x Hx. now rewrite Hx.
    + eapply Forall_impl; [| exact Hall]. intros x Hx. now rewrite Hx.
Qed.

(** X7.  [analyze_paths] splits the simplified paths of the query, in the
    order in which they were found, into those met outside any subquery
    and those met inside one; [always_optional] is false exactly for the
    nonempty prefixes of the direct paths that are not optional.  A
    [SELECT] or [FOR] node has no direct path at all. *)
Theorem analyze_paths_spec (q : expr) (extra_subqs : list (option expr))
        (direct_paths subquery_paths never_optional : list EPath) :
  analyze_paths q extra_subqs = Ok (direct_paths, subquery_paths, never_optional) ->
  exists found paths_opt,
    find_paths q extra_subqs = Ok found
    /\ Forall2 (fun f x =>
                  simplify_path (fp_partial f) (fp_steps f) = Ok (tp_path x)
                  /\ tp_optional x = fp_optional f
                  /\ tp_subquery x = fp_subquery f) found paths_opt
    /\ direct_paths = map tp_path (filter (fun x => negb (tp_subquery x)) paths_opt)
    /\ subquery_paths = map tp_path (filter tp_subquery paths_opt)
    /\ (forall p,
           always_optional_get never_optional p = false
           <-> exists x i,
                 In x paths_opt /\ tp_subquery x = false /\ tp_optional x = false
                 /\ (1 <= i <= List.length (tp_path x))%nat
                 /\ epath_eqb p (firstn i (tp_path x)) = true)
    /\ (is_query q = true ->
        direct_paths = [] /\ forall p, always_optional_get never_optional p = true).
Proof.
  intros H. exact (analyze_paths_classified _ _ H).
Qed.

Lemma analyze_paths_spec_witness :
  analyze_paths (select (path_of "Person" ["name"])) []
  = Ok ([], [[IORef expr "Person"; IPtr expr "name" (Some ">")]], [])
  /\ (forall p, always_optional_get [] p = true).
Proof.
  split; [reflexivity |].
  destruct (@analyze_paths_spec (select (path_of "Person" ["name"])) []
              [] [[IORef expr "Person"; IPtr expr "name" (Some ">")]] [] eq_refl)
    as (found & paths_opt & _ & _ & _ & _ & _ & Hquery).
  apply Hquery. reflexivity.
Defined.

(** ** The query input list and the input tuples *)

(** X8.  Every path of a query input list starts with an object
    reference: paths that start with an expression or that are partial
    are never bound. *)
Theorem query_input_list_heads (node : Type) (node_eqb : node -> node -> bool)
        (direct_refs subquery_refs old qil : list (IPath node)) :
  make_query_input_list node_eqb direct_refs subquery_refs old = Ok qil ->
  Forall (fun p => exists name rest, p = IORef node name :: rest) qil.
Proof.
  intros H. apply make_query_input_list_heads in H.
  eapply Forall_impl; [| exact H].
  intros [| [| e | n | t | p d] rest] Hp; try discriminate. now exists n, rest.
Qed.

Lemma query_input_list_heads_witness :
  Forall (fun p => exists name rest, p = IORef expr name :: rest)
    sample_query_input_list.
Proof.
  apply (@query_input_list_heads expr expr_eqb sample_direct_refs
           sample_subquery_refs sample_old). reflexivity.
Defined.

(** *** Inversion of the monadic combinators *)

Lemma bind_Ok {A B : Type} (m : M A) (f : A -> M B) (r r' : Rng) (b : B) :
  bind m f r = (Done (Ok b), r') ->
  exists a r1, m r = (Done (Ok a), r1) /\ f a r1 = (Done (Ok b), r').
Proof.
  unfold bind. destruct (m r) as [[[a | e |] |] r1]; try discriminate.
  intros H. now exists a, r1.
Qed.

Lemma liftO_Ok {A : Type} (o : outcome A) (r r' : Rng) (a : A) :
  liftO o r = (Done (Ok a), r') -> o = Ok a /\ r' = r.
Proof. unfold liftO. intros H. inversion H. auto. Qed.

Lemma ret_Ok {A : Type} (x a : A) (r r' : Rng) :
  ret x r = (Done (Ok a), r') -> a = x /\ r' = r.
Proof. unfold ret, liftO. intros H. inversion H. auto. Qed.

Lemma concatM_Forall {A B : Type} (f : A -> M (list B)) (Q : B -> Prop) (l : list A) :
  (forall x r r' ys, In x l -> f x r = (Done (Ok ys), r') -> Forall Q ys) ->
  forall r r' out, concatM f l r = (Done (Ok out), r') -> Forall Q out.
Proof.
  induction l as [| x l IH]; intros Hf r r' out H; simpl in H.
  - apply ret_Ok in H. destruct H as [-> _]. constructor.
  - apply bind_Ok in H. destruct H as (ys & r1 & Hys & H).
    apply bind_Ok in H. destruct H as (zs & r2 & Hzs & H).
    apply ret_Ok in H. destruct H as [-> _].
    apply Forall_app. split.
    + eapply Hf; [now left | exact Hys].
    + eapply IH; [| exact Hzs]. intros x0 r0 r0' ys0 Hin0 Hf0.
      apply (Hf x0 r0 r0' ys0); [now right | exact Hf0].
Qed.

Section InputTuples.
Variable ev : expr -> EvalContext -> M (list Data).

(** A row that extends [base] by [k] columns. *)
Definition extends_by (base : Row) (k : nat) (row : Row) : Prop :=
  exists vals, row = base ++ vals /\ List.length vals = k.

Lemma extend_row_extends (base : Row) (k : nat) (out : list Data) (optional : bool)
      (row : Row) :
  extends_by base k row ->
  Forall (extends_by base (S k)) (extend_row out optional row).
Proof.
  intros (vals & -> & Hlen). unfold extend_row. apply Forall_app. split.
  - apply Forall_forall. intros row' Hin. apply in_map_iff in Hin.
    destruct Hin as (val & <- & _). exists (vals ++ [val]).
    rewrite <- app_assoc, length_app. simpl. split; [reflexivity | lia].
  - destruct (_ && _); constructor; [| constructor].
    exists (vals ++ [DNone]).
    rewrite <- app_assoc, length_app. simpl. split; [reflexivity | lia].
Qed.

Lemma build_columns_extends (base : Row) (todo : list EPath) :
  forall done never_optional ctx data k r r' rows,
    Forall (extends_by base k) data ->
    build_columns ev done todo never_optional ctx data r = (Done (Ok rows), r') ->
    Forall (extends_by base (k + List.length todo)) rows.
Proof.
  induction todo as [| in_path todo IH];
    intros done never_optional ctx data k r r' rows Hdata H; simpl in H.
  - apply ret_Ok in H. destruct H as [-> _]. now rewrite Nat.add_0_r.
  - apply bind_Ok in H. destruct H as (new_data & r1 & Hnew & H).
    simpl. rewrite Nat.add_succ_r. apply (IH _ _ _ _ (S k) _ _ _) in H; [exact H |].
    eapply concatM_Forall; [| exact Hnew].
    intros row r2 r3 ys Hrow Hys.
    apply bind_Ok in Hys. destruct Hys as (out & r4 & _ & Hys).
    apply ret_Ok in Hys. destruct Hys as [-> _].
    apply extend_row_extends.
    rewrite Forall_forall in Hdata. now apply Hdata.
Qed.

Lemma build_input_tuples_rows (qil never_optional : list EPath)
      (ctx : EvalContext) (r r' : Rng) (rows : list Row) :
  build_input_tuples ev qil never_optional ctx r = (Done (Ok rows), r') ->
  Forall (extends_by (input_tuple ctx) (List.length qil)) rows.
Proof.
  unfold build_input_tuples. intros H.
  apply (@build_columns_extends (input_tuple ctx) qil _ _ _ _ 0%nat) in H;
    [exact H |].
  constructor; [| constructor]. exists []. now rewrite app_nil_r.
Qed.

(** X9.  Every input tuple that [build_input_tuples] returns is the input
    tuple of the context followed by one value for each path of the query
    input list, in order. *)
Theorem build_input_tuples_aligned (qil never_optional : list EPath)
        (ctx : EvalContext) (r r' : Rng) (rows : list Row) :
  build_input_tuples ev qil never_optional ctx r = (Done (Ok rows), r') ->
  Forall (fun row => exists vals,
              row = input_tuple ctx ++ vals
              /\ List.length vals = List.length qil) rows.
Proof.
  intros H. apply build_input_tuples_rows in H. exact H.
Qed.
End InputTuples.

Lemma build_input_tuples_aligned_witness :
  Forall (fun row => exists vals,
              row = [] ++ vals /\ List.length vals = 1%nat)
    [[bslink 0x10]; [bslink 0x11]; [bslink 0x12]].
Proof.
  apply (@build_input_tuples_aligned (eval 0) [[IORef expr "Person"]] []
           (empty_ctx DB1) rng0 rng0).
  reflexivity.
Defined.

Lemma last_col_snoc (l : Row) (v : Data) : last_col (l ++ [v]) = Ok v.
Proof.
  unfold last_col, py_index. cbv zeta.
  change (-1 <? 0)%Z with true. cbv iota.
  rewrite length_app. cbn [List.length].
  destruct (Z.ltb_spec (-1 + Z.of_nat (List.length l + 1)) 0) as [Hlt | _];
    [lia |].
  destruct (Z.leb_spec (Z.of_nat (List.length l + 1))
              (-1 + Z.of_nat (List.length l + 1))) as [Hle | _]; [lia |].
  cbn [orb].
  replace (Z.to_nat (-1 + Z.of_nat (List.length l + 1))) with (List.length l)
    by lia.
  rewrite nth_error_app2 by lia. now rewrite Nat.sub_diag.
Qed.

Lemma omap_list_ok {A B : Type} (f : A -> outcome B) (g : A -> B) (l : list A) :
  Forall (fun x => f x = Ok (g x)) l -> omap_list f l = Ok (map g l).
Proof.
  induction 1 as [| x l Hx _ IH]; [reflexivity |].
  simpl. rewrite Hx. simpl. now rewrite IH.
Qed.

Section SubqueryRows.
Variable ev : expr -> EvalContext -> M (list Data).

(** X10.  [subquery_full] returns the query input list of the context
    extended by new paths, and rows that are the input tuple of the
    context followed by one value for each new path and by one result
    value; so the last column that [subquery] reads exists in every
    row. *)
Theorem subquery_full_aligned (q : expr) (extra_subqs : list (option expr))
        (ctx : EvalContext) (r r' : Rng) (new_qil : list EPath) (rows : list Row) :
  subquery_full ev q extra_subqs ctx r = (Done (Ok (new_qil, rows)), r') ->
  exists qil,
    new_qil = query_input_list ctx ++ qil
    /\ Forall (fun row => exists vals v,
                   row = input_tuple ctx ++ vals ++ [v]
                   /\ List.length vals = List.length qil
                   /\ last_col row = Ok v) rows
    /\ exists vals, omap_list last_col rows = Ok vals
                    /\ List.length vals = List.length rows.
Proof.
  unfold subquery_full. intros H.
  apply bind_Ok in H. destruct H as ([[direct_paths subquery_paths] never] & r1 & _ & H).
  apply bind_Ok in H. destruct H as (qil & r2 & _ & H).
  apply bind_Ok in H. destruct H as (in_tuples & r3 & Htuples & H).
  apply bind_Ok in H. destruct H as (out & r4 & Hout & H).
  apply ret_Ok in H. destruct H as [H _]. inversion H; subst. clear H.
  apply build_input_tuples_rows in Htuples.
  exists qil. split; [reflexivity |].
  assert (Hrows : Forall (fun row => exists vals v,
                             row = input_tuple ctx ++ vals ++ [v]
                             /\ List.length vals = List.length qil
                             /\ last_col row = Ok v) out).
  { eapply concatM_Forall; [| exact Hout].
    intros row r5 r6 ys Hrow Hys.
    apply bind_Ok in Hys. destruct Hys as (vals & r7 & _ & Hys).
    apply ret_Ok in Hys. destruct Hys as [-> _].
    rewrite Forall_forall in Htuples.
    destruct (Htuples row Hrow) as (cols & -> & Hlen).
    apply Forall_forall. intros row' Hin. apply in_map_iff in Hin.
    destruct Hin as (v & <- & _). exists cols, v.
    rewrite <- app_assoc. split; [reflexivity |]. split; [exact Hlen |].
    rewrite app_assoc. apply last_col_snoc. }
  split; [exact Hrows |].
  exists (map (fun row => last row DNone) out). split; [| apply length_map].
  apply omap_list_ok. eapply Forall_impl; [| exact Hrows].
  intros row (vals & v & -> & _ & Hlast). rewrite Hlast.
  now rewrite !app_assoc, last_last.
Qed.
End SubqueryRows.

Lemma subquery_full_aligned_witness :
  exists qil,
    [[IORef expr "Person"]] = [] ++ qil
    /\ Forall (fun row => exists vals v,
                   row = [] ++ vals ++ [v]
                   /\ List.length vals = List.length qil
                   /\ last_col row = Ok v)
         [[bslink 0x10; bslink 0x10]; [bslink 0x11; bslink 0x11];
          [bslink 0x12; bslink 0x12]]
    /\ exists vals,
         omap_list last_col [[bslink 0x10; bslink 0x10]; [bslink 0x11; bslink 0x11];
                             [bslink 0x12; bslink 0x12]] = Ok vals
         /\ List.length vals = 3%nat.
Proof.
  apply (@subquery_full_aligned (eval 1) (path_of "Person" []) []
           (empty_ctx DB1) rng0 rng0).
  reflexivity.
Defined.

(** ** Bound paths in aligned contexts *)

Section PathIndex.
Variable node : Type.
Variable node_eqb : node -> node -> bool.

Lemma path_index_spec (p : IPath node) (l : list (IPath node)) :
  path_in node_eqb p l = true ->
  (path_index node_eqb p l < List.length l)%nat
  /\ (exists q, nth_error l (path_index node_eqb p l) = Some q
                /\ path_eqb node_eqb p q = true)
  /\ forall j q, (j < path_index node_eqb p l)%nat ->
                 nth_error l j = Some q -> path_eqb node_eqb p q = false.
Proof.
  induction l as [| q0 l IH]; simpl; [discriminate |].
  destruct (path_eqb node_eqb p q0) eqn:Hq0; simpl.
  - intros _. split; [lia |]. split; [now exists q0 |]. intros j q Hj. lia.
  - intros Hin. destruct (IH Hin) as (Hlt & Hq & Hfirst).
    split; [lia |]. split; [exact Hq |].
    intros [| j] q Hj Hnth; simpl in Hnth.
    + now inversion Hnth; subst.
    + apply (Hfirst j q); [lia | exact Hnth].
Qed.
End PathIndex.

(** X11.  In a context whose input tuple has one slot for each path of
    its query input list, a path of that list evaluates without error to
    the slot of the first path of the list equal to it, the missing marker
    [None] standing for no value. *)
Theorem eval_path_bound_aligned
        (ev : expr -> EvalContext -> M (list Data)) (path : EPath)
        (ctx : EvalContext) :
  List.length (input_tuple ctx) = List.length (query_input_list ctx) ->
  epath_in path (query_input_list ctx) = true ->
  exists i q obj,
    nth_error (query_input_list ctx) i = Some q
    /\ epath_eqb path q = true
    /\ (forall j q', (j < i)%nat -> nth_error (query_input_list ctx) j = Some q' ->
                     epath_eqb path q' = false)
    /\ nth_error (input_tuple ctx) i = Some obj
    /\ eval_path ev path ctx = ret (bound_value obj).
Proof.
  intros Hlen Hin.
  destruct (path_index_spec expr_eqb _ _ Hin) as (Hlt & (q & Hq & Heq) & Hfirst).
  destruct (nth_error (input_tuple ctx)
              (path_index expr_eqb path (query_input_list ctx))) as [obj |] eqn:Hobj.
  - exists (path_index expr_eqb path (query_input_list ctx)), q, obj.
    repeat split; auto.
    rewrite eval_path_bound by exact Hin. now rewrite Hobj.
  - apply nth_error_None in Hobj. unfold IPath in *. lia.
Qed.

Lemma eval_path_bound_aligned_witness :
  exists i q obj,
    nth_error [[IORef expr "Person"]; [IORef expr "Note"]] i = Some q
    /\ epath_eqb [IORef expr "Note"] q = true
    /\ (forall j q', (j < i)%nat ->
                     nth_error [[IORef expr "Person"]; [IORef expr "Note"]] j = Some q' ->
                     epath_eqb [IORef expr "Note"] q' = false)
    /\ nth_error [bslink 0x10; DNone] i = Some obj
    /\ eval_path (eval 0) [IORef expr "Note"]
         (mkCtx [[IORef expr "Person"]; [IORef expr "Note"]] [bslink 0x10; DNone]
                [] DB1)
       = ret (bound_value obj).
Proof.
  apply (@eval_path_bound_aligned (eval 0) [IORef expr "Note"]
           (mkCtx [[IORef expr "Person"]; [IORef expr "Note"]] [bslink 0x10; DNone]
                  [] DB1));
    reflexivity.
Defined.

(** ** The clauses of SELECT *)

(** [l] is [m] with some elements left out. *)
Inductive subsequence {A : Type} : list A -> list A -> Prop :=
| subsequence_nil : subsequence [] []
| subsequence_skip (x : A) (l m : list A) :
    subsequence l m -> subsequence l (x :: m)
| subsequence_keep (x : A) (l m : list A) :
    subsequence l m -> subsequence (x :: l) (x :: m).

Lemma subsequence_refl {A : Type} (l : list A) : subsequence l l.
Proof.
  induction l; [apply subsequence_nil | now apply subsequence_keep].
Qed.

Lemma subsequence_map {A B : Type} (f : A -> B) (l m : list A) :
  subsequence l m -> subsequence (map f l) (map f m).
Proof.
  induction 1; simpl;
    [apply subsequence_nil | now apply subsequence_skip
     | now apply subsequence_keep].
Qed.

Lemma subsequence_length {A : Type} (l m : list A) :
  subsequence l m -> (List.length l <= List.length m)%nat.
Proof. induction 1; simpl; lia. Qed.

Lemma subsequence_In {A : Type} (l m : list A) (x : A) :
  subsequence l m -> In x l -> In x m.
Proof.
  induction 1 as [| y l m _ IH | y l m _ IH]; simpl; auto.
  intros [-> | Hin]; auto.
Qed.

Section Clauses.
Variable ev : expr -> EvalContext -> M (list Data).

Lemma eval_filter_kept (where_ : option expr) (qil : list EPath)
      (out rows : list Row) (ctx : EvalContext) (r r' : Rng) :
  eval_filter ev where_ qil out ctx r = (Done (Ok rows), r') ->
  subsequence rows out
  /\ forall w row,
      where_ = Some w -> In row rows ->
      exists ra rb vals,
        subquery ev w (with_input ctx qil row) ra = (Done (Ok vals), rb)
        /\ existsb truthy vals = true.
Proof.
  intros H. destruct where_ as [w |]; simpl in H.
  - revert r r' rows H. induction out as [| row out IH]; intros r r' rows H.
    + simpl in H. apply ret_Ok in H. destruct H as [-> _].
      split; [constructor |]. intros ? ? _ [].
    + simpl in H. apply bind_Ok in H. destruct H as (ys & r1 & Hys & H).
      apply bind_Ok in H. destruct H as (zs & r2 & Hzs & H).
      apply ret_Ok in H. destruct H as [-> _].
      apply bind_Ok in Hys. destruct Hys as (vals & r3 & Hvals & Hys).
      apply ret_Ok in Hys. destruct Hys as [-> _].
      destruct (IH _ _ _ Hzs) as [Hsub Hkept].
      destruct (existsb truthy vals) eqn:Htrue; simpl.
      * split; [now apply subsequence_keep |].
        intros w0 row0 Hw [<- | Hin]; [| now apply Hkept].
        inversion Hw; subst. now exists r, r3, vals.
      * split; [now apply subsequence_skip | exact Hkept].
  - apply ret_Ok in H. destruct H as [-> _].
    split; [apply subsequence_refl | discriminate].
Qed.

(** X12.  FILTER leaves rows out and does nothing else: the rows that
    [eval_filter] returns are a subsequence of the rows it was given, and
    each row that it kept had a true value among the values of the
    condition evaluated on that row. *)
Theorem eval_filter_subsequence (where_ : option expr) (qil : list EPath)
        (out rows : list Row) (ctx : EvalContext) (r r' : Rng) :
  eval_filter ev where_ qil out ctx r = (Done (Ok rows), r') ->
  subsequence rows out
  /\ (List.length rows <= List.length out)%nat
  /\ forall w row,
      where_ = Some w -> In row rows ->
      exists ra rb vals,
        subquery ev w (with_input ctx qil row) ra = (Done (Ok vals), rb)
        /\ existsb truthy vals = true.
Proof.
  intros H. apply eval_filter_kept in H. destruct H as [Hsub Hkept].
  split; [exact Hsub |]. split; [now apply subsequence_length | exact Hkept].
Qed.
End Clauses.

Lemma eval_filter_subsequence_witness :
  subsequence [[DInt 2]] [[DInt 0]; [DInt 2]]
  /\ (List.length [[DInt 2]] <= List.length [[DInt 0]; [DInt 2]])%nat.
Proof.
  destruct (@eval_filter_subsequence (eval 1) (Some (Path true []))
              [[IPartial expr]] [[DInt 0]; [DInt 2]] [[DInt 2]]
              (empty_ctx []) rng0 rng0 eq_refl) as (H1 & H2 & _).
  split; [exact H1 | exact H2].
Defined.

Lemma clause_int_Ok (res : list Data) (n : Z) :
  clause_int res = Ok n -> exists v, res = [v] /\ py_int v = Ok (DInt n).
Proof.
  destruct res as [| v [| w res]]; simpl; try discriminate.
  destruct (py_int v) as [[| | z | | | | | | |] | e |] eqn:Hv; simpl;
    try discriminate.
  intros H. inversion H; subst. now exists v.
Qed.

(** The number of rows that [l[n:]] leaves out at the front and that
    [l[:n]] keeps: [n] of them, or all but the last [-n] for a negative
    [n], and never more than there are. *)
Definition slice_point (n : Z) (len : nat) : nat :=
  Nat.min len (Z.to_nat (if (n <? 0)%Z then Z.of_nat len + n else n)).

Lemma slice_from_spec {A : Type} (n : Z) (l : list A) :
  exists pre, l = pre ++ slice_from n l
              /\ List.length pre = slice_point n (List.length l).
Proof.
  unfold slice_from, slice_point.
  set (k := Z.to_nat (if (n <? 0)%Z then Z.max 0 (Z.of_nat (List.length l) + n) else n)).
  exists (firstn k l). split; [now rewrite firstn_skipn |].
  rewrite length_firstn. subst k. destruct (n <? 0)%Z; lia.
Qed.

Lemma slice_to_spec {A : Type} (n : Z) (l : list A) :
  exists post, l = slice_to n l ++ post
               /\ List.length (slice_to n l) = slice_point n (List.length l).
Proof.
  unfold slice_to, slice_point.
  set (k := Z.to_nat (if (n <? 0)%Z then Z.max 0 (Z.of_nat (List.length l) + n) else n)).
  exists (skipn k l). split; [now rewrite firstn_skipn |].
  rewrite length_firstn. subst k. destruct (n <? 0)%Z; lia.
Qed.

Section OffsetLimit.
Variable ev : expr -> EvalContext -> M (list Data).

(** X13.  OFFSET and LIMIT never fail on a count that is out of range:
    whenever the clause yields one value whose integer is [n], whatever
    [n] is, OFFSET returns the rows without the first [n] and LIMIT the
    first [n] rows, all of them if there are fewer; a negative [n] counts
    from the end, as Python slices do.  So OFFSET drops rows at the front
    only and LIMIT at the back only. *)
Theorem offset_limit_slices (e : expr) (out : list Row) (ctx : EvalContext)
        (r r' : Rng) (v : Data) (n : Z) :
  subquery ev e ctx r = (Done (Ok [v]), r') ->
  py_int v = Ok (DInt n) ->
  eval_offset ev (Some e) out ctx r
  = (Done (Ok (skipn (slice_point n (List.length out)) out)), r')
  /\ eval_limit ev (Some e) out ctx r
     = (Done (Ok (firstn (slice_point n (List.length out)) out)), r').
Proof.
  intros Hsub Hv.
  assert (Hfrom : slice_from n out = skipn (slice_point n (List.length out)) out).
  { unfold slice_from, slice_point. cbv zeta.
    destruct (Z.ltb_spec n 0) as [Hn | Hn].
    - f_equal. lia.
    - destruct (Nat.le_gt_cases (List.length out) (Z.to_nat n)) as [Hle | Hgt].
      + rewrite Nat.min_l by exact Hle.
        rewrite !skipn_all2; [reflexivity | lia | exact Hle].
      + f_equal. lia. }
  assert (Hto : slice_to n out = firstn (slice_point n (List.length out)) out).
  { unfold slice_to, slice_point. cbv zeta.
    destruct (Z.ltb_spec n 0) as [Hn | Hn].
    - f_equal. lia.
    - destruct (Nat.le_gt_cases (List.length out) (Z.to_nat n)) as [Hle | Hgt].
      + rewrite Nat.min_l by exact Hle.
        rewrite !firstn_all2; [reflexivity | lia | exact Hle].
      + f_equal. lia. }
  split.
  - cbn [eval_offset]. unfold bind. rewrite Hsub.
    unfold liftO, ret, clause_int. rewrite Hv. cbn [obind]. now rewrite Hfrom.
  - cbn [eval_limit]. unfold bind. rewrite Hsub.
    unfold liftO, ret, clause_int. rewrite Hv. cbn [obind]. now rewrite Hto.
Qed.
End OffsetLimit.

Lemma offset_limit_slices_witness :
  eval_offset (eval 1) (Some (IntegerConstant "5" false)) [[DInt 1]; [DInt 2]]
    (empty_ctx []) rng0
  = (Done (Ok (skipn (slice_point 5 2) [[DInt 1]; [DInt 2]])), rng0)
  /\ eval_limit (eval 1) (Some (IntegerConstant "5" false)) [[DInt 1]; [DInt 2]]
       (empty_ctx []) rng0
     = (Done (Ok (firstn (slice_point 5 2) [[DInt 1]; [DInt 2]])), rng0).
Proof.
  apply (@offset_limit_slices (eval 1) (IntegerConstant "5" false)
           [[DInt 1]; [DInt 2]] (empty_ctx []) rng0 rng0 (DInt 5) 5);
    reflexivity.
Defined.

(** *** The rows of a SELECT *)

(** [row[-1]], the result value of a row *)
Definition result_of (row : Row) : Data := last row DNone.

Lemma last_col_Ok (row : Row) (x : Data) :
  last_col row = Ok x -> result_of row = x.
Proof.
  destruct row as [| y row] using rev_ind; [discriminate |].
  rewrite last_col_snoc. intros H. inversion H; subst.
  unfold result_of. apply last_last.
Qed.

Lemma omap_list_last_col (rows : list Row) (vals : list Data) :
  omap_list last_col rows = Ok vals -> vals = map result_of rows.
Proof.
  intros H. apply omap_list_Forall2 in H.
  induction H as [| row v rows vals Hv _ IH]; [reflexivity |].
  simpl. apply last_col_Ok in Hv. now rewrite Hv, IH.
Qed.

Lemma alias_rows_results (out out' : list Row) :
  omap_list (fun row => omap (fun x => row ++ [x]) (last_col row)) out = Ok out' ->
  map result_of out' = map result_of out.
Proof.
  intros H. apply omap_list_Forall2 in H.
  induction H as [| row row' rows rows' Hrow _ IH]; [reflexivity |].
  simpl. rewrite IH. f_equal.
  unfold omap in Hrow. destruct (last_col row) as [x | e |] eqn:Hx;
    try discriminate.
  simpl in Hrow. inversion Hrow; subst. apply last_col_Ok in Hx.
  unfold result_of in *. now rewrite last_last.
Qed.

Lemma eval_orderby_perm (ev : expr -> EvalContext -> M (list Data))
      (orderby : list (SortExpr expr)) (qil : list EPath) (out out' : list Row)
      (ctx : EvalContext) (r r' : Rng) :
  eval_orderby ev orderby qil out ctx r = (Done (Ok out'), r') ->
  Permutation out out'.
Proof.
  intros H. rewrite eval_orderby_passes in H. apply run_passes_stable in H.
  destruct H as (t' & K & Hfst & Hperm & _).
  rewrite <- Hfst, <- (tag_rows_fst out). now apply Permutation_map.
Qed.

Section SelectRows.
Variable ev : expr -> EvalContext -> M (list Data).

(** X14.  A SELECT only leaves out and reorders: with [rows] the rows
    that [subquery_full] built for the result expression, the values that
    [eval_Select] returns are a contiguous part of a permutation of a
    subsequence of the result values of [rows]; without FILTER, ORDER BY,
    OFFSET and LIMIT they are the result values of [rows], in order. *)
Theorem eval_Select_rows (al : list (string * expr)) (result : expr)
        (where_ : option expr) (orderby : list (SortExpr expr))
        (offset limit : option expr) (result_alias : option string)
        (ctx : EvalContext) (r r' : Rng) (vals : list Data) :
  eval_Select ev al result where_ orderby offset limit result_alias ctx r
  = (Done (Ok vals), r') ->
  exists ctx1 r1 r2 qil rows kept pre post,
    bind_aliases ev al ctx r = (Done (Ok ctx1), r1)
    /\ subquery_full ev result
         (where_ :: map (fun x => Some (sort_path x)) orderby) ctx1 r1
       = (Done (Ok (qil, rows)), r2)
    /\ subsequence kept (map result_of rows)
    /\ Permutation kept (pre ++ vals ++ post)
    /\ (where_ = None -> orderby = [] -> offset = None -> limit = None ->
        vals = map result_of rows).
Proof.
  unfold eval_Select. intros H.
  apply bind_Ok in H. destruct H as (ctx1 & r1 & Hal & H).
  apply bind_Ok in H. destruct H as ([qil rows] & r2 & Hrows & H).
  apply bind_Ok in H. destruct H as ([qil1 out1] & r3 & Halias & H).
  apply bind_Ok in H. destruct H as (out2 & r4 & Hfilter & H).
  apply bind_Ok in H. destruct H as (out3 & r5 & Horder & H).
  apply bind_Ok in H. destruct H as (out4 & r6 & Hoffset & H).
  apply bind_Ok in H. destruct H as (out5 & r7 & Hlimit & H).
  apply liftO_Ok in H. destruct H as [Hvals _].
  apply omap_list_last_col in Hvals.
  assert (Hout1 : map result_of out1 = map result_of rows).
  { destruct (truthy_name result_alias).
    - apply bind_Ok in Halias. destruct Halias as (out' & r8 & Hout' & Halias).
      apply liftO_Ok in Hout'. destruct Hout' as [Hout' _].
      apply ret_Ok in Halias. destruct Halias as [Halias _].
      inversion Halias; subst. now apply alias_rows_results.
    - apply ret_Ok in Halias. destruct Halias as [Halias _].
      now inversion Halias; subst. }
  assert (Hpre : exists pre, out3 = pre ++ out4).
  { destruct offset as [e |]; simpl in Hoffset.
    - apply bind_Ok in Hoffset. destruct Hoffset as (res & r8 & _ & Hoffset).
      apply bind_Ok in Hoffset. destruct Hoffset as (n & r9 & _ & Hoffset).
      apply ret_Ok in Hoffset. destruct Hoffset as [-> _].
      destruct (slice_from_spec n out3) as (pre & Hpre & _). now exists pre.
    - apply ret_Ok in Hoffset. destruct Hoffset as [-> _]. now exists []. }
  assert (Hpost : exists post, out4 = out5 ++ post).
  { destruct limit as [e |]; simpl in Hlimit.
    - apply bind_Ok in Hlimit. destruct Hlimit as (res & r8 & _ & Hlimit).
      apply bind_Ok in Hlimit. destruct Hlimit as (n & r9 & _ & Hlimit).
      apply ret_Ok in Hlimit. destruct Hlimit as [-> _].
      destruct (slice_to_spec n out4) as (post & Hpost & _). now exists post.
    - apply ret_Ok in Hlimit. destruct Hlimit as [-> _]. exists [].
      now rewrite app_nil_r. }
  destruct Hpre as [pre Hpre]. destruct Hpost as [post Hpost].
  exists ctx1, r1, r2, qil, rows, (map result_of out2),
    (map result_of pre), (map result_of post).
  split; [exact Hal |]. split; [exact Hrows |]. split; [| split].
  - rewrite <- Hout1. apply subsequence_map.
    now apply eval_filter_kept in Hfilter.
  - apply eval_orderby_perm in Horder.
    rewrite Hvals, <- !map_app, <- Hpost, <- Hpre. now apply Permutation_map.
  - intros -> -> -> ->. simpl in Hfilter, Horder, Hoffset, Hlimit.
    apply ret_Ok in Hfilter, Horder, Hoffset, Hlimit.
    destruct Hfilter as [-> _], Horder as [-> _], Hoffset as [-> _],
      Hlimit as [-> _].
    now rewrite Hvals.
Qed.
End SelectRows.

Lemma eval_Select_rows_witness :
  exists ctx1 r1 r2 qil rows kept pre post,
    bind_aliases (eval 1) [] (empty_ctx DB1) rng0 = (Done (Ok ctx1), r1)
    /\ subquery_full (eval 1) (path_of "Person" ["name"])
         (None :: map (fun x => Some (sort_path x)) []) ctx1 r1
       = (Done (Ok (qil, rows)), r2)
    /\ subsequence kept (map result_of rows)
    /\ Permutation kept (pre ++ [DStr "Madeline Hatch"] ++ post)
    /\ (@None expr = None -> @nil (SortExpr expr) = [] ->
        Some (IntegerConstant "1" false) = None ->
        Some (IntegerConstant "1" false) = None ->
        [DStr "Madeline Hatch"] = map result_of rows).
Proof.
  apply (@eval_Select_rows (eval 1) [] (path_of "Person" ["name"]) None []
           (Some (IntegerConstant "1" false)) (Some (IntegerConstant "1" false))
           None (empty_ctx DB1) rng0 rng0).
  reflexivity.
Defined.

(** ** Tuples *)

Lemma product_In {A : Type} (args : list (list A)) (a : list A) :
  In a (product args) -> Forall2 (fun x m => In x m) a args.
Proof.
  revert a. induction args as [| xs rest IH]; intros a Hin; simpl in Hin.
  - destruct Hin as [<- | []]. constructor.
  - apply in_flat_map in Hin. destruct Hin as (x & Hx & Hin).
    apply in_map_iff in Hin. destruct Hin as (a' & <- & Ha').
    constructor; [exact Hx | now apply IH].
Qed.

Section TupleValues.
Variable ev : expr -> EvalContext -> M (list Data).

(** X15.  The values of a tuple expression are the tuples of the
    Cartesian product of the values of its elements, the last element
    advancing fastest: each is a tuple with one component for each
    element, taken from the values of that element, and there are as many
    as the product of the numbers of values. *)
Theorem eval_Tuple_product (elements : list expr) (ctx : EvalContext)
        (r r' : Rng) (vs : list Data) :
  eval_node ev (Tuple elements) ctx r = (Done (Ok vs), r') ->
  exists args,
    Forall2 (fun e vals => exists ra rb, ev e ctx ra = (Done (Ok vals), rb))
            elements args
    /\ vs = map DTuple (product args)
    /\ List.length vs = sizes_product args
    /\ Forall (fun v => exists l, v = DTuple l
                                  /\ List.length l = List.length elements
                                  /\ Forall2 (fun x m => In x m) l args) vs.
Proof.
  cbn [eval_node]. intros H.
  apply bind_Ok in H. destruct H as (args & r1 & Hargs & H).
  apply mapM_ok in Hargs.
  rewrite (lift_ok (fun va => ret (DTuple va)) DTuple) in H by reflexivity.
  assert (Hmap : flat_map (fun a => splice (DTuple a)) (product args)
                 = map DTuple (product args))
    by (rewrite <- flat_map_map_singleton; reflexivity).
  rewrite Hmap in H. inversion H; subst. clear H.
  exists args. split; [exact Hargs |]. split; [reflexivity |].
  split.
  - rewrite length_map. apply product_length.
  - apply Forall_forall. intros v Hv. apply in_map_iff in Hv.
    destruct Hv as (l & <- & Hl). apply product_In in Hl.
    exists l. split; [reflexivity |]. split; [| exact Hl].
    rewrite (Forall2_length Hl). symmetry. apply (Forall2_length Hargs).
Qed.
End TupleValues.

Lemma eval_Tuple_product_witness :
  exists args,
    Forall2 (fun e vals => exists ra rb,
                 eval 2 e (empty_ctx []) ra = (Done (Ok vals), rb))
            [SetLit [IntegerConstant "1" false; IntegerConstant "2" false];
             StringConstant "a"] args
    /\ [DTuple [DInt 1; DStr "a"]; DTuple [DInt 2; DStr "a"]]
       = map DTuple (product args)
    /\ List.length [DTuple [DInt 1; DStr "a"]; DTuple [DInt 2; DStr "a"]]
       = sizes_product args
    /\ Forall (fun v => exists l, v = DTuple l
                                  /\ List.length l = 2%nat
                                  /\ Forall2 (fun x m => In x m) l args)
         [DTuple [DInt 1; DStr "a"]; DTuple [DInt 2; DStr "a"]].
Proof.
  apply (@eval_Tuple_product (eval 2)
           [SetLit [IntegerConstant "1" false; IntegerConstant "2" false];
            StringConstant "a"] (empty_ctx []) rng0 rng0).
  reflexivity.
Defined.

(** ** The database *)

Lemma db_get_set_same (k : uuid) (v : Record) (d : DB) :
  db_get k (db_set k v d) = Some v.
Proof.
  induction d as [| [k' v'] d IH]; simpl.
  - now rewrite N.eqb_refl.
  - destruct (N.eqb k k') eqn:Hk; simpl; now rewrite Hk.
Qed.

Lemma db_get_set_other (k k' : uuid) (v : Record) (d : DB) :
  N.eqb k' k = false -> db_get k' (db_set k v d) = db_get k' d.
Proof.
  intros Hk. induction d as [| [k0 v0] d IH]; simpl.
  - now rewrite Hk.
  - destruct (N.eqb k k0) eqn:Hk0; simpl.
    + apply N.eqb_eq in Hk0. subst k0. now rewrite Hk.
    + now rewrite IH.
Qed.

Lemma db_set_keys (k : uuid) (v : Record) (d : DB) :
  map fst (db_set k v d)
  = if existsb (N.eqb k) (map fst d) then map fst d else map fst d ++ [k].
Proof.
  induction d as [| [k' v'] d IH]; simpl; [reflexivity |].
  destruct (N.eqb k k'); simpl; [reflexivity |].
  rewrite IH. now destruct (existsb (N.eqb k) (map fst d)).
Qed.

(** The key of each record is its ["id"], and no key occurs twice. *)
Definition db_wf (d : DB) : Prop :=
  NoDup (map fst d)
  /\ Forall (fun kv => dict_get "id" (snd kv) = Some (DUuid (fst kv))) d.

Lemma db_set_wf (k : uuid) (v : Record) (d : DB) :
  dict_get "id" v = Some (DUuid k) -> db_wf d -> db_wf (db_set k v d).
Proof.
  intros Hv [Hnd Hids]. split.
  - rewrite db_set_keys. destruct (existsb (N.eqb k) (map fst d)) eqn:Hk;
      [exact Hnd |].
    apply NoDup_app; [exact Hnd | repeat constructor; auto |].
    intros x Hx [Heq | []]. subst x.
    assert (Hex : existsb (N.eqb k) (map fst d) = true)
      by (apply existsb_exists; exists k; split; [exact Hx | apply N.eqb_refl]).
    congruence.
  - clear Hnd. induction Hids as [| [k' v'] d Hkv Hd IH]; simpl.
    + repeat constructor. exact Hv.
    + destruct (N.eqb_spec k k') as [-> | _]; constructor; auto.
Qed.

Lemma mk_db_from_wf (data : list Record) :
  forall acc d, db_wf acc -> mk_db_from acc data = Ok d -> db_wf d.
Proof.
  induction data as [| x data IH]; intros acc d Hacc H; simpl in H.
  - now inversion H; subst.
  - destruct (dict_get "id" x) as [[| | | | | u | | | |] |] eqn:Hid;
      try discriminate.
    eapply IH; [| exact H]. now apply db_set_wf.
Qed.

Lemma mk_db_wf (data : list Record) (d : DB) : mk_db data = Ok d -> db_wf d.
Proof.
  apply mk_db_from_wf. split; constructor.
Qed.

Lemma db_get_In (d : DB) (k : uuid) (v : Record) :
  NoDup (map fst d) -> (db_get k d = Some v <-> In (k, v) d).
Proof.
  induction d as [| [k' v'] d IH]; simpl; intros Hnd.
  - split; [discriminate | contradiction].
  - inversion Hnd as [| ? ? Hnotin Hnd']; subst.
    destruct (N.eqb_spec k k') as [-> | Hne].
    + split.
      * intros H. inversion H. now left.
      * intros [H | H]; [now inversion H |].
        exfalso. apply Hnotin. change k' with (fst (k', v)). now apply in_map.
    + rewrite (IH Hnd'). split; [now right |].
      intros [H | H]; [inversion H; congruence | exact H].
Qed.

(** The record of [data] that [mk_db] keeps under an id: the last one. *)
Definition has_id (u : uuid) (x : Record) : bool :=
  match dict_get "id" x with
  | Some (DUuid v) => N.eqb u v
  | _ => false
  end.

Definition record_id (x : Record) : option uuid :=
  match dict_get "id" x with
  | Some (DUuid v) => Some v
  | _ => None
  end.

Lemma find_app {A : Type} (f : A -> bool) (l m : list A) :
  find f (l ++ m) = match find f l with Some x => Some x | None => find f m end.
Proof.
  induction l as [| x l IH]; [reflexivity |]. simpl. now destruct (f x).
Qed.

Lemma mk_db_from_lookup (data : list Record) :
  forall acc d u,
    mk_db_from acc data = Ok d ->
    db_get u d = match find (has_id u) (rev data) with
                 | Some x => Some x
                 | None => db_get u acc
                 end.
Proof.
  induction data as [| x data IH]; intros acc d u H; simpl in H.
  - now inversion H; subst.
  - destruct (dict_get "id" x) as [[| | | | | u0 | | | |] |] eqn:Hid;
      try discriminate.
    rewrite (IH _ _ u H). simpl. rewrite find_app.
    destruct (find (has_id u) (rev data)); [reflexivity |].
    simpl. unfold has_id. rewrite Hid.
    destruct (N.eqb u u0) eqn:Hu.
    + apply N.eqb_eq in Hu. subst. apply db_get_set_same.
    + now apply db_get_set_other.
Qed.

Lemma mk_db_from_keys (data : list Record) :
  forall acc d,
    mk_db_from acc data = Ok d ->
    exists ids,
      Forall2 (fun x u => record_id x = Some u) data ids
      /\ map fst d = map fst acc ++ first_occurrences N.eqb (map fst acc) ids.
Proof.
  induction data as [| x data IH]; intros acc d H; simpl in H.
  - inversion H; subst. exists []. split; [constructor |].
    now rewrite app_nil_r.
  - destruct (dict_get "id" x) as [[| | | | | u | | | |] |] eqn:Hid;
      try discriminate.
    destruct (IH _ _ H) as (ids & Hids & Hkeys).
    exists (u :: ids). split.
    + constructor; [| exact Hids]. unfold record_id. now rewrite Hid.
    + rewrite Hkeys, db_set_keys. simpl.
      destruct (existsb (N.eqb u) (map fst acc)); [reflexivity |].
      now rewrite <- app_assoc.
Qed.

(** X16.  [mk_db] indexes the records by their ["id"]: looking an id up
    returns the last record of the data that carries it, every record of
    the database is stored under its own id, and the ids are in the order
    in which they first occur in the data. *)
Theorem mk_db_lookup (data : list Record) (d : DB) :
  mk_db data = Ok d ->
  (forall u, db_get u d = find (has_id u) (rev data))
  /\ Forall (fun kv => dict_get "id" (snd kv) = Some (DUuid (fst kv))) d
  /\ NoDup (map fst d)
  /\ exists ids,
       Forall2 (fun x u => record_id x = Some u) data ids
       /\ map fst d = first_occurrences N.eqb [] ids.
Proof.
  intros H. split; [| split; [| split]].
  - intros u. unfold mk_db in H. rewrite (mk_db_from_lookup _ _ u H).
    now destruct (find (has_id u) (rev data)).
  - apply mk_db_wf in H. apply H.
  - apply mk_db_wf in H. apply H.
  - exact (mk_db_from_keys _ _ H).
Qed.

Lemma mk_db_lookup_witness :
  db_get (bsid 0x21) DB1
  = find (has_id (bsid 0x21)) (rev DB1_data).
Proof.
  apply (@mk_db_lookup DB1_data DB1). reflexivity.
Defined.

(** *** Links, forward and backward *)

Lemma oconcat_map_ok {A B : Type} (f : A -> outcome (list B)) (g : A -> list B)
      (l : list A) :
  Forall (fun x => f x = Ok (g x)) l -> oconcat_map f l = Ok (flat_map g l).
Proof.
  induction 1 as [| x l Hx _ IH]; [reflexivity |].
  simpl. rewrite Hx. simpl. now rewrite IH.
Qed.

Lemma obj_of_record_wf (kv : uuid * Record) :
  dict_get "id" (snd kv) = Some (DUuid (fst kv)) ->
  obj_of_record (snd kv) = Ok (Obj (fst kv)).
Proof. unfold obj_of_record. now intros ->. Qed.

Lemma Obj_inj (a b : uuid) : Obj a = Obj b -> a = b.
Proof. unfold Obj. intros H. now inversion H. Qed.

(** The records from which a link named [ptr] reaches [base]. *)
Definition links_to (base : Data) (ptr : string) (kv : uuid * Record) : bool :=
  existsb (py_eq base) (get_links (snd kv) ptr).

(** Selecting records of a database keeps their ids distinct. *)
Lemma db_filter_keys (keep : uuid * Record -> bool) (d : DB) :
  NoDup (map fst d) -> NoDup (map fst (filter keep d)).
Proof.
  induction d as [| [k v] d IH]; cbn [map filter fst]; intros Hd.
  - constructor.
  - apply NoDup_cons_iff in Hd. destruct Hd as [Hk Hd].
    destruct (keep (k, v)); [| exact (IH Hd)].
    cbn [map fst]. apply NoDup_cons_iff. split; [| exact (IH Hd)].
    intros Hin. apply Hk. apply in_map_iff in Hin.
    destruct Hin as ([k' v'] & Hk' & Hin). apply filter_In in Hin.
    apply in_map_iff. exists (k', v'). tauto.
Qed.

(** X17.  Over a database built by [mk_db], navigating a link backward
    is the converse of navigating it forward: [eval_bwd_ptr] never fails
    and returns exactly the objects of the records from which the forward
    link reaches the given value, in the order of the database and each
    of them once. *)
Theorem backward_is_converse (data : list Record) (base : Data) (ptr : string)
        (ctx : EvalContext) :
  mk_db data = Ok (db ctx) ->
  eval_bwd_ptr base ptr ctx
  = Ok (map (fun kv => Obj (fst kv)) (filter (links_to base ptr) (db ctx)))
  /\ NoDup (map fst (filter (links_to base ptr) (db ctx)))
  /\ forall a,
       In a (map fst (filter (links_to base ptr) (db ctx)))
       <-> exists links,
             eval_fwd_ptr (Obj a) ptr ctx = Ok links
             /\ existsb (py_eq base) links = true.
Proof.
  intros Hdb. apply mk_db_wf in Hdb. destruct Hdb as [Hnd Hids].
  split; [| split].
  - unfold eval_bwd_ptr.
    rewrite (oconcat_map_ok _ (fun kv => if links_to base ptr kv
                                         then [Obj (fst kv)] else [])).
    + f_equal. clear. induction (db ctx) as [| kv d IH]; [reflexivity |].
      simpl. destruct (links_to base ptr kv); simpl; now rewrite IH.
    + eapply Forall_impl; [| exact Hids]. intros kv Hkv.
      fold (links_to base ptr kv).
      destruct (links_to base ptr kv); [| reflexivity].
      now rewrite obj_of_record_wf.
  - now apply db_filter_keys.
  - intros a. rewrite in_map_iff. split.
    + intros ([k v] & <- & Hin). apply filter_In in Hin.
      destruct Hin as [Hin Hlinked]. exists (get_links v ptr).
      split; [| exact Hlinked]. simpl.
      now rewrite (proj2 (db_get_In _ _ _ Hnd) Hin).
    + intros (links & Hfwd & Hlinks). simpl in Hfwd.
      destruct (db_get a (db ctx)) as [obj |] eqn:Hget; [| discriminate].
      inversion Hfwd; subst. exists (a, obj). split; [reflexivity |].
      apply filter_In. split; [| exact Hlinks].
      now apply (db_get_In _ _ _ Hnd).
Qed.

Lemma backward_is_converse_witness :
  eval_bwd_ptr (bslink 0x21) "notes" (empty_ctx DB1)
  = Ok [Obj (bsid 0x10); Obj (bsid 0x11)].
Proof.
  destruct (@backward_is_converse DB1_data (bslink 0x21) "notes" (empty_ctx DB1)
              eq_refl) as (H & _).
  exact H.
Defined.

(** *** Object references *)

Definition has_type (kv : uuid * Record) : bool :=
  match dict_get "__type__" (snd kv) with Some _ => true | None => false end.

Definition type_is (name : string) (kv : uuid * Record) : bool :=
  match dict_get "__type__" (snd kv) with
  | Some t => py_equal t (DStr name)
  | None => false
  end.

Lemma eval_objref_scan (name : string) (d : DB) :
  Forall (fun kv => dict_get "id" (snd kv) = Some (DUuid (fst kv))) d ->
  oconcat_map
    (fun kv : uuid * Record =>
       match dict_get "__type__" (snd kv) with
       | None => Raise KeyError
       | Some t =>
           if py_equal t (DStr name)
           then obind (obj_of_record (snd kv)) (fun o => Ok [o])
           else Ok []
       end) d
  = if forallb has_type d
    then Ok (map (fun kv => Obj (fst kv)) (filter (type_is name) d))
    else Raise KeyError.
Proof.
  induction 1 as [| kv d Hkv _ IH]; [reflexivity |].
  cbn [oconcat_map forallb filter]. unfold has_type at 1, type_is at 1.
  destruct (dict_get "__type__" _) as [t |]; [| reflexivity].
  cbn [andb]. rewrite IH.
  destruct (py_equal t (DStr name)).
  - rewrite (obj_of_record_wf _ Hkv). cbn [obind].
    destruct (forallb has_type d); reflexivity.
  - cbn [obind]. destruct (forallb has_type d); reflexivity.
Qed.

(** X18.  Over a database built by [mk_db], an object reference that is
    not an alias evaluates to one object for each record whose
    [__type__] is the name, in the order of the database; it raises
    [KeyError] as soon as one record, of whatever type, has no
    [__type__].  A name bound as an alias evaluates to the values of the
    alias, whatever the database holds. *)
Theorem eval_objref_spec (data : list Record) (name : string) (ctx : EvalContext) :
  mk_db data = Ok (db ctx) ->
  (forall vals, dict_get name (aliases ctx) = Some vals ->
                eval_objref name ctx = Ok vals)
  /\ (dict_get name (aliases ctx) = None ->
      eval_objref name ctx
      = if forallb has_type (db ctx)
        then Ok (map (fun kv => Obj (fst kv)) (filter (type_is name) (db ctx)))
        else Raise KeyError).
Proof.
  intros Hdb. apply mk_db_wf in Hdb. destruct Hdb as [_ Hids].
  unfold eval_objref. split.
  - now intros vals ->.
  - intros ->. now apply eval_objref_scan.
Qed.

Lemma eval_objref_spec_witness :
  eval_objref "Note" (empty_ctx DB1)
  = (if forallb has_type DB1
     then Ok (map (fun kv => Obj (fst kv)) (filter (type_is "Note") DB1))
     else Raise KeyError)
  /\ eval_objref "Note" (mkCtx [] [] [("Note", [DInt 1])] DB1) = Ok [DInt 1].
Proof.
  split.
  - apply (@eval_objref_spec DB1_data "Note" (empty_ctx DB1)); reflexivity.
  - apply (@eval_objref_spec DB1_data "Note" (mkCtx [] [] [("Note", [DInt 1])] DB1));
      reflexivity.
Defined.

(** *** Type intersections *)

(** X19.  A type intersection applied to a set whose first value is an
    object raises [TypeError]: [eval_intersect] subscripts the value with
    ["id"], which an [Obj] does not support.  So a path such as
    [Person[IS Person]] fails whenever there is a person. *)
Theorem intersect_on_objects
        (ev : expr -> EvalContext -> M (list Data))
        (b : EPathElement) (base_path : EPath) (typ : string)
        (ctx : EvalContext) (r r1 : Rng) (base : list Data) :
  epath_in ((b :: base_path) ++ [ITypeIntersection expr typ])
    (query_input_list ctx) = false ->
  eval_path ev (b :: base_path) ctx r = (Done (Ok base), r1) ->
  head_is_Obj base = true ->
  eval_path ev ((b :: base_path) ++ [ITypeIntersection expr typ]) ctx r
  = (Done (Raise TypeError), r1).
Proof.
  intros Hin Hbase Hobj. rewrite eval_path_step by exact Hin.
  unfold bind at 1. rewrite Hbase. unfold navigate, bind, liftO.
  destruct base as [| [| | | | | | | | | id shape] rest]; try discriminate.
  reflexivity.
Qed.

Lemma intersect_on_objects_witness :
  eval_path (eval 0) ([IORef expr "Person"] ++ [ITypeIntersection expr "Person"])
    (empty_ctx DB1) rng0
  = (Done (Raise TypeError), rng0).
Proof.
  apply (@intersect_on_objects (eval 0) (IORef expr "Person") [] "Person"
           (empty_ctx DB1) rng0 rng0 [bslink 0x10; bslink 0x11; bslink 0x12]);
    reflexivity.
Defined.

(** ** Identifiers *)

(** X20.  The ids that [bsid] makes from numbers below [2^48] keep the
    number in their low 48 bits under the fixed prefix of 80 one bits, so
    that different numbers give different ids. *)
Theorem bsid_spec (n : N) :
  (n < 2 ^ 48)%N ->
  N.land (bsid n) (N.ones 48) = n
  /\ N.shiftr (bsid n) 48 = N.ones 80
  /\ forall m, (m < 2 ^ 48)%N -> bsid n = bsid m -> n = m.
Proof.
  intros Hn.
  assert (Hlow : forall k, (k < 2 ^ 48)%N -> N.land (bsid k) (N.ones 48) = k).
  { intros k Hk. unfold bsid.
    rewrite N.land_lor_distr_l, !N.land_ones, N.shiftl_mul_pow2.
    rewrite N.Div0.mod_mul, N.mod_small by exact Hk.
    apply N.lor_0_l. }
  split; [now apply Hlow |]. split.
  - unfold bsid. rewrite N.shiftr_lor, N.shiftr_shiftl_l by reflexivity.
    rewrite (N.shiftr_div_pow2 n), N.div_small by exact Hn.
    rewrite N.lor_0_r. reflexivity.
  - intros m Hm Heq. rewrite <- (Hlow n Hn), <- (Hlow m Hm). now rewrite Heq.
Qed.

Lemma bsid_spec_witness :
  N.land (bsid 0x21) (N.ones 48) = 0x21%N.
Proof.
  assert (Hlt : (0x21 < 2 ^ 48)%N) by reflexivity.
  destruct (@bsid_spec 0x21 Hlt) as (Hlow & _).
  exact Hlow.
Defined.

(** ** Decimal numerals *)

Lemma digits_value_acc (d : Decimal.uint) :
  forall acc : positive,
    digits_value (Z.pos acc) (NilEmpty.string_of_uint d)
    = Z.pos (Pos.of_uint_acc d acc).
Proof.
  induction d; intros acc; cbn [NilEmpty.string_of_uint digits_value Pos.of_uint_acc];
    try reflexivity;
    match goal with
    | |- digits_value ?a _ = Z.pos (Pos.of_uint_acc _ ?b) =>
        replace a with (Z.pos b)
          by (match goal with
              | |- context [Z.of_N (N_of_ascii ?c)] =>
                  let v := eval vm_compute in (Z.of_N (N_of_ascii c)) in
                  change (Z.of_N (N_of_ascii c)) with v
              end; lia)
    end; apply IHd.
Qed.

Lemma digits_value_uint (d : Decimal.uint) :
  digits_value 0 (NilEmpty.string_of_uint d) = Z.of_N (Pos.of_uint d).
Proof.
  induction d; cbn [NilEmpty.string_of_uint digits_value Pos.of_uint];
    try reflexivity; try exact IHd;
    match goal with
    | |- digits_value ?a _ = Z.of_N (N.pos (Pos.of_uint_acc _ ?b)) =>
        change a with (Z.pos b)
    end; apply digits_value_acc.
Qed.

Lemma string_of_uint_digits (d : Decimal.uint) :
  string_forallb is_digit (NilEmpty.string_of_uint d) = true.
Proof.
  induction d; cbn [NilEmpty.string_of_uint string_forallb]; try reflexivity;
    rewrite IHd; reflexivity.
Qed.

Lemma string_of_uint_nonempty (d : Decimal.uint) :
  d <> Decimal.Nil -> NilEmpty.string_of_uint d <> EmptyString.
Proof. destruct d; simpl; congruence. Qed.

Lemma int_of_str_uint (d : Decimal.uint) :
  d <> Decimal.Nil ->
  int_of_str (NilEmpty.string_of_uint d)
  = if (Z.of_nat (String.length (NilEmpty.string_of_uint d)) <=? int_max_str_digits)%Z
    then Ok (Z.of_N (Pos.of_uint d))
    else Raise ValueError.
Proof.
  intros Hd. unfold int_of_str.
  rewrite string_of_uint_digits, digits_value_uint.
  pose proof (string_of_uint_nonempty Hd) as Hne.
  destruct (NilEmpty.string_of_uint d); [congruence | reflexivity].
Qed.

Lemma numeral_nonneg (z : Z) :
  (0 <= z)%Z ->
  int_of_str (numeral z)
  = if (num_digits z <=? int_max_str_digits)%Z then Ok z else Raise ValueError.
Proof.
  intros Hz. unfold num_digits. rewrite (Z.abs_eq z Hz).
  destruct z as [| p | p]; [reflexivity | | lia].
  unfold numeral. cbn [Z.to_int NilZero.string_of_int].
  pose proof (DecimalPos.Unsigned.to_uint_nonnil p) as Hnil.
  assert (Hstr : NilZero.string_of_uint (Pos.to_uint p)
                 = NilEmpty.string_of_uint (Pos.to_uint p)).
  { unfold NilZero.string_of_uint.
    destruct (Pos.to_uint p); [congruence | reflexivity ..]. }
  rewrite Hstr, int_of_str_uint by exact Hnil.
  now rewrite DecimalPos.Unsigned.of_to.
Qed.

Lemma int_of_str_decimal (z : Z) :
  (0 <= z)%Z -> (num_digits z <= int_max_str_digits)%Z ->
  int_of_str (numeral z) = Ok z.
Proof.
  intros Hz Hd. rewrite (numeral_nonneg Hz).
  now destruct (Z.leb_spec (num_digits z) int_max_str_digits); [| lia].
Qed.

Lemma int_of_str_too_long (z : Z) :
  (0 <= z)%Z -> (int_max_str_digits < num_digits z)%Z ->
  int_of_str (numeral z) = Raise ValueError.
Proof.
  intros Hz Hd. rewrite (numeral_nonneg Hz).
  now destruct (Z.leb_spec (num_digits z) int_max_str_digits); [lia |].
Qed.

(** X21.  Decimal numerals round-trip, up to the interpreter's limit on
    their length: casting a non-negative integer of at most 4300 digits to
    [str] yields its numeral, which the cast to [int64] and the integer
    literal of the query language both read back as that integer; for an
    integer of more digits the cast to [str] raises [ValueError], and so
    does reading its numeral. *)
Theorem int_str_roundtrip (ev : expr -> EvalContext -> M (list Data))
        (z : Z) (ctx : EvalContext) (r : Rng) :
  (0 <= z)%Z ->
  exists to_str to_int,
    impls_get "cast" "str" BASIS_IMPLS = Some to_str
    /\ impls_get "cast" "int64" BASIS_IMPLS = Some to_int
    /\ ((num_digits z <= int_max_str_digits)%Z ->
        to_str [[DInt z]] r = (Done (Ok [DStr (numeral z)]), r)
        /\ to_int [[DStr (numeral z)]] r = (Done (Ok [DInt z]), r)
        /\ eval_node ev (IntegerConstant (numeral z) false) ctx r
           = (Done (Ok [DInt z]), r)
        /\ eval_node ev (IntegerConstant (numeral z) true) ctx r
           = (Done (Ok [DInt (- z)]), r))
    /\ ((int_max_str_digits < num_digits z)%Z ->
        to_str [[DInt z]] r = (Done (Raise ValueError), r)
        /\ to_int [[DStr (numeral z)]] r = (Done (Raise ValueError), r)
        /\ eval_node ev (IntegerConstant (numeral z) false) ctx r
           = (Done (Raise ValueError), r)).
Proof.
  intros Hz.
  exists (lift (unary py_str)), (lift (unary py_int)).
  split; [reflexivity |]. split; [reflexivity |]. split.
  - intros Hd. pose proof (int_of_str_decimal Hz Hd) as Hs.
    apply Z.leb_le in Hd.
    split; [| split; [| split]].
    + unfold lift. cbn [product flat_map map app concatM unary py_str].
      unfold bind, liftO, ret. rewrite Hd. reflexivity.
    + unfold lift. cbn [product flat_map map app concatM unary py_int].
      unfold bind, liftO, ret, omap, obind. rewrite Hs. reflexivity.
    + cbn [eval_node]. unfold bind, liftO, ret. rewrite Hs. cbn [sign].
      now rewrite Z.mul_1_r.
    + cbn [eval_node]. unfold bind, liftO, ret. rewrite Hs. cbn [sign].
      replace (z * -1)%Z with (- z)%Z by lia. reflexivity.
  - intros Hd. pose proof (int_of_str_too_long Hz Hd) as Hs.
    apply Z.leb_gt in Hd.
    split; [| split].
    + unfold lift. cbn [product flat_map map app concatM unary py_str].
      unfold bind, liftO, ret. rewrite Hd. reflexivity.
    + unfold lift. cbn [product flat_map map app concatM unary py_int].
      unfold bind, liftO, ret, omap, obind. rewrite Hs. reflexivity.
    + cbn [eval_node]. unfold bind, liftO, ret. now rewrite Hs.
Qed.

Lemma int_str_roundtrip_witness :
  exists to_str to_int,
    impls_get "cast" "str" BASIS_IMPLS = Some to_str
    /\ impls_get "cast" "int64" BASIS_IMPLS = Some to_int
    /\ to_str [[DInt 2021]] rng0 = (Done (Ok [DStr "2021"]), rng0)
    /\ to_int [[DStr "2021"]] rng0 = (Done (Ok [DInt 2021]), rng0)
    /\ eval_node (eval 0) (IntegerConstant "2021" false) (empty_ctx []) rng0
       = (Done (Ok [DInt 2021]), rng0)
    /\ eval_node (eval 0) (IntegerConstant "2021" true) (empty_ctx []) rng0
       = (Done (Ok [DInt (- 2021)]), rng0).
Proof.
  assert (Hz : (0 <= 2021)%Z) by lia.
  assert (Hd : (num_digits 2021 <= int_max_str_digits)%Z)
    by (apply Z.leb_le; reflexivity).
  destruct (@int_str_roundtrip (eval 0) 2021 (empty_ctx []) rng0 Hz)
    as (to_str & to_int & H1 & H2 & H3 & _).
  exists to_str, to_int. split; [exact H1 |]. split; [exact H2 |].
  exact (H3 Hd).
Defined.

(** ** The bound on the recursion is never hit *)

(** A computation that returns or raises, whatever the generator. *)
Definition Finishes {A : Type} (m : M A) : Prop :=
  forall r, fst (m r) <> OutOfFuel.

Lemma Finishes_liftO {A : Type} (o : outcome A) : Finishes (liftO o).
Proof. intros r. discriminate. Qed.

Lemma Finishes_ret {A : Type} (a : A) : Finishes (ret a).
Proof. apply Finishes_liftO. Qed.

Lemma Finishes_raise {A : Type} (e : exn) : Finishes (@raise A e).
Proof. apply Finishes_liftO. Qed.

Lemma Finishes_bind {A B : Type} (m : M A) (f : A -> M B) :
  Finishes m -> (forall a, Finishes (f a)) -> Finishes (bind m f).
Proof.
  intros Hm Hf r. unfold bind. specialize (Hm r).
  destruct (m r) as [[[a | e |] |] r1]; simpl in *;
    [apply Hf | discriminate | discriminate | congruence].
Qed.

Lemma Finishes_bind_liftO {A B : Type} (o : outcome A) (f : A -> M B) :
  (forall a, o = Ok a -> Finishes (f a)) -> Finishes (bind (liftO o) f).
Proof.
  intros Hf r. unfold bind, liftO. destruct o as [a | e |];
    [now apply Hf | discriminate | discriminate].
Qed.

Lemma Finishes_concatM {A B : Type} (f : A -> M (list B)) (l : list A) :
  (forall x, In x l -> Finishes (f x)) -> Finishes (concatM f l).
Proof.
  induction l as [| x l IH]; intros Hf; simpl; [apply Finishes_ret |].
  apply Finishes_bind; [apply Hf; now left |]. intros ys.
  apply Finishes_bind; [apply IH; intros; apply Hf; now right |].
  intros zs. apply Finishes_ret.
Qed.

Lemma Finishes_mapM {A B : Type} (f : A -> M B) (l : list A) :
  (forall x, In x l -> Finishes (f x)) -> Finishes (mapM f l).
Proof.
  induction l as [| x l IH]; intros Hf; simpl; [apply Finishes_ret |].
  apply Finishes_bind; [apply Hf; now left |]. intros y.
  apply Finishes_bind; [apply IH; intros; apply Hf; now right |].
  intros ys. apply Finishes_ret.
Qed.

Lemma Finishes_lift (f : list Data -> M Data) (args : list (list Data)) :
  (forall a, Finishes (f a)) -> Finishes (lift f args).
Proof.
  intros Hf. unfold lift. apply Finishes_concatM. intros a _.
  apply Finishes_bind; [apply Hf |]. intros v. apply Finishes_ret.
Qed.

Lemma Finishes_unary (f : Data -> outcome Data) (args : list Data) :
  Finishes (unary f args).
Proof. destruct args as [| a [| b args]]; apply Finishes_liftO. Qed.

Lemma Finishes_binary (f : Data -> Data -> outcome Data) (args : list Data) :
  Finishes (binary f args).
Proof. destruct args as [| a [| b [| c args]]]; apply Finishes_liftO. Qed.

Lemma Finishes_py_random (args : list Data) : Finishes (py_random args).
Proof.
  destruct args; [| apply Finishes_raise]. intros r. simpl. discriminate.
Qed.

Lemma Finishes_lift_set_of (f : list (list Data) -> outcome Data)
      (args : list (list Data)) :
  Finishes (lift_set_of f args).
Proof.
  unfold lift_set_of. apply Finishes_bind; [apply Finishes_liftO |].
  intros v. apply Finishes_ret.
Qed.

Lemma Finishes_opt_eq (args : list (list Data)) : Finishes (opt_eq args).
Proof.
  unfold opt_eq. destruct args as [| x [| y [| z args]]]; try apply Finishes_raise.
  destruct (_ || _); [apply Finishes_ret |].
  apply Finishes_lift. intros a. apply Finishes_binary.
Qed.

Lemma Finishes_opt_ne (args : list (list Data)) : Finishes (opt_ne args).
Proof.
  unfold opt_ne. destruct args as [| x [| y [| z args]]]; try apply Finishes_raise.
  destruct (_ || _); [apply Finishes_ret |].
  apply Finishes_lift. intros a. apply Finishes_binary.
Qed.

Lemma Finishes_fixed_arity (args : list (list Data)) :
  Finishes (contains args) /\ Finishes (coalesce args) /\ Finishes (distinct args)
  /\ Finishes (union args) /\ Finishes (enumerate_ args) /\ Finishes (if_ args).
Proof.
  unfold contains, coalesce, distinct, union, enumerate_, if_.
  destruct args as [| x [| y [| z [| w args]]]];
    repeat split; apply Finishes_liftO.
Qed.

(** No implementation of the basis recurses into the evaluator. *)
Lemma Finishes_basis (typ op : string) (f : LiftedFunc) (args : list (list Data)) :
  impls_get typ op BASIS_IMPLS = Some f -> Finishes (f args).
Proof.
  intros Hget.
  destruct (Finishes_fixed_arity args) as (Hc & Hco & Hd & Hu & He & Hi).
  apply impls_get_In in Hget.
  cbv [BASIS_IMPLS flat_map map app fst snd _BASIS_BINOP_IMPLS _BASIS_UNOP_IMPLS
       _BASIS_CAST_IMPLS _BASIS_FUNC_IMPLS In] in Hget.
  repeat (destruct Hget as [Hget | Hget];
          [ inversion Hget; subst typ op f; clear Hget;
            solve
              [ apply Finishes_lift; intros a;
                first [ apply Finishes_binary | apply Finishes_unary
                      | apply Finishes_py_random | apply Finishes_liftO ]
              | apply Finishes_lift_set_of
              | apply Finishes_opt_eq | apply Finishes_opt_ne
              | assumption ]
          | ]).
  contradiction.
Qed.

(** *** The depth of the parts of a node *)

Definition opt_depth (o : option expr) : nat :=
  match o with Some x => expr_depth x | None => 0%nat end.

Lemma list_max_le (l : list nat) (n : nat) :
  (list_max l <= n)%nat <-> Forall (fun k => (k <= n)%nat) l.
Proof.
  unfold list_max. induction l as [| k l IH]; simpl.
  - split; [constructor | lia].
  - split.
    + intros H. constructor; [lia |]. apply IH. lia.
    + intros H. inversion H; subst. apply IH in H3. lia.
Qed.

Lemma list_max_map_le {A : Type} (f : A -> nat) (l : list A) (n : nat) :
  (list_max (map f l) <= n)%nat -> forall x, In x l -> (f x <= n)%nat.
Proof.
  intros H x Hx. apply list_max_le in H. rewrite Forall_forall in H.
  apply H. now apply in_map.
Qed.

Section Termination.
Variable ev : expr -> EvalContext -> M (list Data).
Variable n : nat.
Hypothesis Hev : forall e ctx, (expr_depth e <= n)%nat -> Finishes (ev e ctx).

Lemma Finishes_navigate (ptr : EPathElement) (base : list Data) (ctx : EvalContext) :
  Finishes (navigate ptr base ctx).
Proof.
  unfold navigate. apply Finishes_bind; [apply Finishes_liftO |].
  intros out. apply Finishes_ret.
Qed.

Lemma Finishes_eval_path_rev (rpath : EPath) (ctx : EvalContext) :
  (forall e rest, rpath = rest ++ [IExpr e] -> (expr_depth e <= n)%nat) ->
  Finishes (eval_path_rev ev rpath ctx).
Proof.
  induction rpath as [| ptr rbase IH]; intros Hbase; cbn [eval_path_rev].
  - destruct (epath_in _ _); [| apply Finishes_raise].
    destruct (nth_error _ _); [apply Finishes_ret | apply Finishes_raise].
  - destruct (epath_in (rev (ptr :: rbase)) _).
    + destruct (nth_error _ _); [apply Finishes_ret | apply Finishes_raise].
    + destruct rbase as [| b rb].
      * unfold eval_path_base.
        destruct ptr as [| e | nm | t | p d];
          try apply Finishes_raise; [| apply Finishes_liftO].
        apply Hev. now apply (Hbase e []).
      * apply Finishes_bind; [| intros base; apply Finishes_navigate].
        apply IH. intros e rest Hrest. apply (Hbase e (ptr :: rest)).
        now rewrite Hrest.
Qed.

Lemma Finishes_eval_path (path : EPath) (ctx : EvalContext) :
  (forall e tl, path = IExpr e :: tl -> (expr_depth e <= n)%nat) ->
  Finishes (eval_path ev path ctx).
Proof.
  intros Hhead. unfold eval_path. apply Finishes_eval_path_rev.
  intros e rest Hrev. apply (Hhead e (rev rest)).
  rewrite <- (rev_involutive path), Hrev, rev_app_distr. reflexivity.
Qed.

Lemma Finishes_build_columns (todo : list EPath) :
  Forall (fun p => head_is_ORef p = true) todo ->
  forall done never_optional ctx data,
    Finishes (build_columns ev done todo never_optional ctx data).
Proof.
  induction 1 as [| in_path todo Hp _ IH]; intros done never_optional ctx data;
    simpl; [apply Finishes_ret |].
  apply Finishes_bind; [| intros new_data; apply IH].
  apply Finishes_concatM. intros row _.
  apply Finishes_bind; [| intros out; apply Finishes_ret].
  apply Finishes_eval_path. intros e tl ->. discriminate.
Qed.

Lemma Finishes_subquery_full (q : expr) (extra : list (option expr))
      (ctx : EvalContext) :
  (expr_depth q <= n)%nat -> Finishes (subquery_full ev q extra ctx).
Proof.
  intros Hq. unfold subquery_full.
  apply Finishes_bind_liftO. intros [[direct_paths subquery_paths] never_optional] _.
  apply Finishes_bind_liftO. intros qil Hqil.
  apply make_query_input_list_heads in Hqil.
  apply Finishes_bind; [now apply Finishes_build_columns |]. intros in_tuples.
  apply Finishes_bind; [| intros out; apply Finishes_ret].
  apply Finishes_concatM. intros row _.
  apply Finishes_bind; [now apply Hev | intros vals; apply Finishes_ret].
Qed.

Lemma Finishes_subquery (q : expr) (ctx : EvalContext) :
  (expr_depth q <= n)%nat -> Finishes (subquery ev q ctx).
Proof.
  intros Hq. unfold subquery.
  apply Finishes_bind; [now apply Finishes_subquery_full |].
  intros [qil rows]. apply Finishes_liftO.
Qed.

Lemma Finishes_eval_filter (where_ : option expr) (qil : list EPath)
      (out : list Row) (ctx : EvalContext) :
  (opt_depth where_ <= n)%nat -> Finishes (eval_filter ev where_ qil out ctx).
Proof.
  intros Hw. destruct where_ as [w |]; simpl; [| apply Finishes_ret].
  apply Finishes_concatM. intros row _.
  apply Finishes_bind; [now apply Finishes_subquery | intros vals; apply Finishes_ret].
Qed.

Lemma Finishes_orderby_pass (sort : SortExpr expr) (qil : list EPath)
      (out : list Row) (ctx : EvalContext) :
  (expr_depth (sort_path sort) <= n)%nat ->
  Finishes (orderby_pass ev sort qil out ctx).
Proof.
  intros Hs. unfold orderby_pass, decorate.
  apply Finishes_bind.
  - apply Finishes_mapM. intros row _. unfold decorate_row.
    apply Finishes_bind; [now apply Finishes_subquery |]. intros vals.
    destruct (_ <=? _)%nat; [apply Finishes_ret | apply Finishes_raise].
  - intros new. apply Finishes_bind; [apply Finishes_liftO |].
    intros s. apply Finishes_ret.
Qed.

Lemma Finishes_eval_orderby (orderby : list (SortExpr expr)) (qil : list EPath)
      (out : list Row) (ctx : EvalContext) :
  (forall s, In s orderby -> (expr_depth (sort_path s) <= n)%nat) ->
  Finishes (eval_orderby ev orderby qil out ctx).
Proof.
  intros Ho. unfold eval_orderby.
  assert (Hrev : forall s, In s (rev orderby) ->
                           (expr_depth (sort_path s) <= n)%nat).
  { intros s Hs. apply in_rev in Hs. now apply Ho. }
  clear Ho. generalize (ret (A := list Row) out) (@Finishes_ret _ out).
  induction (rev orderby) as [| s passes IH]; intros acc Hacc; simpl; [exact Hacc |].
  apply IH; [intros; apply Hrev; now right |].
  apply Finishes_bind; [exact Hacc |]. intros out'.
  apply Finishes_orderby_pass. apply Hrev. now left.
Qed.

Lemma Finishes_eval_offset (offset : option expr) (out : list Row)
      (ctx : EvalContext) :
  (opt_depth offset <= n)%nat -> Finishes (eval_offset ev offset out ctx).
Proof.
  intros Ho. destruct offset as [e |]; simpl; [| apply Finishes_ret].
  apply Finishes_bind; [now apply Finishes_subquery |]. intros res.
  apply Finishes_bind; [apply Finishes_liftO | intros k; apply Finishes_ret].
Qed.

Lemma Finishes_eval_limit (limit : option expr) (out : list Row)
      (ctx : EvalContext) :
  (opt_depth limit <= n)%nat -> Finishes (eval_limit ev limit out ctx).
Proof.
  intros Ho. destruct limit as [e |]; simpl; [| apply Finishes_ret].
  apply Finishes_bind; [now apply Finishes_subquery |]. intros res.
  apply Finishes_bind; [apply Finishes_liftO | intros k; apply Finishes_ret].
Qed.

Lemma Finishes_bind_aliases (al : list (string * expr)) :
  (forall a, In a al -> (expr_depth (snd a) <= n)%nat) ->
  forall ctx, Finishes (bind_aliases ev al ctx).
Proof.
  induction al as [| [alias e] al IH]; intros Hal ctx; simpl;
    [apply Finishes_ret |].
  apply Finishes_bind.
  - apply Finishes_subquery. apply (Hal (alias, e)). now left.
  - intros vals. apply IH. intros a Ha. apply Hal. now right.
Qed.

Lemma Finishes_eval_Select (al : list (string * expr)) (result : expr)
      (where_ : option expr) (orderby : list (SortExpr expr))
      (offset limit : option expr) (result_alias : option string)
      (ctx : EvalContext) :
  (expr_depth (SelectQuery al result where_ orderby offset limit result_alias)
   <= S n)%nat ->
  Finishes (eval_Select ev al result where_ orderby offset limit result_alias ctx).
Proof.
  intros H.
  change (S (list_max [list_max (map (fun a => expr_depth (snd a)) al);
                       expr_depth result; opt_depth where_;
                       list_max (map (fun s => expr_depth (sort_path s)) orderby);
                       opt_depth offset; opt_depth limit]) <= S n)%nat in H.
  apply le_S_n, list_max_le in H.
  inversion H as [| ? ? Hal H1]; subst. inversion H1 as [| ? ? Hr H2]; subst.
  inversion H2 as [| ? ? Hw H3]; subst. inversion H3 as [| ? ? Hob H4]; subst.
  inversion H4 as [| ? ? Hoff H5]; subst. inversion H5 as [| ? ? Hlim _]; subst.
  unfold eval_Select.
  apply Finishes_bind.
  { apply Finishes_bind_aliases. now apply list_max_map_le. }
  intros ctx1.
  apply Finishes_bind; [now apply Finishes_subquery_full |]. intros [new_qil out].
  apply Finishes_bind.
  { destruct (truthy_name result_alias); [| apply Finishes_ret].
    apply Finishes_bind; [apply Finishes_liftO | intros out'; apply Finishes_ret]. }
  intros [new_qil' out1].
  apply Finishes_bind; [now apply Finishes_eval_filter |]. intros out2.
  apply Finishes_bind.
  { apply Finishes_eval_orderby.
    now apply (list_max_map_le (fun s => expr_depth (sort_path s))). }
  intros out3.
  apply Finishes_bind; [now apply Finishes_eval_offset |]. intros out4.
  apply Finishes_bind; [now apply Finishes_eval_limit |]. intros out5.
  apply Finishes_liftO.
Qed.

Lemma Finishes_eval_For (iterator_alias : string) (iterator result : expr)
      (ctx : EvalContext) :
  (expr_depth (ForQuery iterator_alias iterator result) <= S n)%nat ->
  Finishes (eval_For ev iterator_alias iterator result ctx).
Proof.
  intros H. cbn [expr_depth] in H.
  unfold eval_For. apply Finishes_bind; [apply Finishes_subquery; lia |].
  intros iter_vals. apply Finishes_concatM. intros val _.
  apply Finishes_subquery. lia.
Qed.

Lemma Finishes_eval_args (arg_specs : option (list TypeModifier)) (args : list expr)
      (ctx : EvalContext) :
  (forall a, In a args -> (expr_depth a <= n)%nat) ->
  forall i, Finishes (eval_args ev arg_specs i args ctx).
Proof.
  induction args as [| arg args IH]; intros Hargs i; simpl; [apply Finishes_ret |].
  apply Finishes_bind; [apply Finishes_liftO |]. intros set_of.
  apply Finishes_bind.
  - destruct set_of; [apply Finishes_subquery | apply Hev]; apply Hargs; now left.
  - intros res. apply Finishes_bind; [| intros rest; apply Finishes_ret].
    apply IH. intros a Ha. apply Hargs. now right.
Qed.

Lemma Finishes_eval_func_or_op (op : string) (args : list expr) (typ : string)
      (ctx : EvalContext) :
  (forall a, In a args -> (expr_depth a <= n)%nat) ->
  Finishes (eval_func_or_op ev op args typ ctx).
Proof.
  intros Hargs. unfold eval_func_or_op.
  apply Finishes_bind; [now apply Finishes_eval_args |]. intros results.
  destruct (impls_get typ op BASIS_IMPLS) as [f |] eqn:Hf; [| apply Finishes_raise].
  now apply (Finishes_basis typ op).
Qed.
End Termination.

Section TerminationNodes.
Variable ev : expr -> EvalContext -> M (list Data).
Variable n : nat.
Hypothesis Hev : forall e ctx, (expr_depth e <= n)%nat -> Finishes (ev e ctx).

Lemma Finishes_eval_node (node : expr) (ctx : EvalContext) :
  (expr_depth node <= S n)%nat -> Finishes (eval_node ev node ctx).
Proof.
  intros H.
  destruct node as [al result where_ orderby offset limit ra | ia iterator result
                   | op lhs rhs | op operand | func args | x c y
                   | v | v neg | v | v neg | es | es | es | typ x
                   | partial steps | ks];
    cbn [eval_node].
  - now apply (@Finishes_eval_Select ev n Hev).
  - now apply (@Finishes_eval_For ev n Hev).
  - cbn [expr_depth] in H. apply (@Finishes_eval_func_or_op ev n Hev).
    intros a [<- | [<- | []]]; lia.
  - cbn [expr_depth] in H. apply (@Finishes_eval_func_or_op ev n Hev).
    intros a [<- | []]; lia.
  - cbn [expr_depth] in H. apply le_S_n in H.
    apply (@Finishes_eval_func_or_op ev n Hev). now apply list_max_map_le.
  - cbn [expr_depth] in H. apply le_S_n, list_max_le in H.
    apply (@Finishes_eval_func_or_op ev n Hev).
    rewrite Forall_forall in H. intros a Ha. apply H.
    destruct Ha as [<- | [<- | [<- | []]]]; simpl; auto.
  - apply Finishes_ret.
  - apply Finishes_bind; [apply Finishes_liftO | intros k; apply Finishes_ret].
  - apply Finishes_ret.
  - apply Finishes_liftO.
  - cbn [expr_depth] in H. apply le_S_n in H.
    apply Finishes_concatM. intros elem Hin. apply Hev.
    now apply (list_max_map_le expr_depth es).
  - cbn [expr_depth] in H. apply le_S_n in H.
    apply Finishes_bind.
    + apply Finishes_mapM. intros arg Hin. apply Hev.
      now apply (list_max_map_le expr_depth es).
    + intros args. apply Finishes_lift. intros va. apply Finishes_ret.
  - cbn [expr_depth] in H. apply le_S_n in H.
    apply Finishes_bind.
    + apply Finishes_mapM. intros arg Hin. apply Hev.
      now apply (list_max_map_le (fun a => expr_depth (snd a)) es).
    + intros args. apply Finishes_lift. intros va. apply Finishes_ret.
  - cbn [expr_depth] in H.
    destruct (impls_get "cast" typ BASIS_IMPLS) as [f |] eqn:Hf;
      [| apply Finishes_raise].
    apply Finishes_bind; [apply Hev; lia |]. intros vals.
    now apply (Finishes_basis "cast" typ).
  - cbn [expr_depth] in H. apply le_S_n in H.
    apply Finishes_bind_liftO. intros path Hpath.
    apply (@Finishes_eval_path ev n Hev). intros e tl ->.
    apply (list_max_map_le
             (fun s => match s with ExprStep x => expr_depth x | _ => 0%nat end)
             steps H (ExprStep e)).
    apply (simplify_path_exprs _ _ e Hpath). now left.
  - apply Finishes_raise.
Qed.
End TerminationNodes.

Lemma expr_depth_pos (e : expr) : (1 <= expr_depth e)%nat.
Proof. destruct e; cbn [expr_depth]; lia. Qed.

Lemma Finishes_eval (fuel : nat) :
  forall e ctx, (expr_depth e <= fuel)%nat -> Finishes (eval fuel e ctx).
Proof.
  induction fuel as [| fuel IH]; intros e ctx He.
  - pose proof (expr_depth_pos e). lia.
  - cbn [eval]. now apply (@Finishes_eval_node (eval fuel) fuel IH).
Qed.

(** The bound that [go] puts on the recursion of [eval], the depth of
    the query, is never hit, and neither is any larger one. *)
Lemma go_fuel_enough (q : expr) (d : DB) (r : Rng) :
  fst (go q d r) <> OutOfFuel
  /\ forall fuel, (expr_depth q <= fuel)%nat -> fst (go_fuel fuel q d r) <> OutOfFuel.
Proof.
  assert (Hfuel : forall fuel, (expr_depth q <= fuel)%nat ->
                               fst (go_fuel fuel q d r) <> OutOfFuel).
  { intros fuel Hle.
    assert (Hfin : Finishes (go_fuel fuel q d)).
    { unfold go_fuel. apply Finishes_bind; [| intros out; apply Finishes_ret].
      apply (@Finishes_subquery (eval fuel) fuel (@Finishes_eval fuel)). exact Hle. }
    exact (Hfin r). }
  split; [apply Hfuel; lia | exact Hfuel].
Qed.

(** ** Nested queries *)

Lemma omap_list_last_col_snoc (row : Row) (vals : list Data) :
  omap_list last_col (map (fun val => row ++ [val]) vals) = Ok vals.
Proof.
  induction vals as [| v vals IH]; [reflexivity |].
  cbn [map omap_list]. rewrite last_col_snoc. cbn [obind]. now rewrite IH.
Qed.

Lemma with_input_same (ctx : EvalContext) :
  with_input ctx (query_input_list ctx ++ []) (input_tuple ctx) = ctx.
Proof. destruct ctx. unfold with_input. simpl. now rewrite app_nil_r. Qed.

Section NestedQueries.
Variable ev : expr -> EvalContext -> M (list Data).

(** An expression without direct paths binds nothing: its subquery
    evaluates it once, in the context as it is. *)
Lemma subquery_no_direct_paths (q : expr) (ctx : EvalContext)
      (subquery_paths never_optional : list EPath) (r : Rng) :
  analyze_paths q [] = Ok ([], subquery_paths, never_optional) ->
  subquery ev q ctx r = ev q ctx r.
Proof.
  intros Han. unfold subquery, subquery_full. rewrite Han.
  cbv [bind liftO].
  change (make_query_input_list expr_eqb [] subquery_paths (query_input_list ctx))
    with (@Ok (list EPath) []).
  cbv [bind liftO ret build_input_tuples build_columns concatM].
  rewrite with_input_same.
  destruct (ev q ctx r) as [[[vals | e |] |] r']; try reflexivity.
  rewrite app_nil_r, omap_list_last_col_snoc. reflexivity.
Qed.

(** X23.  A [SELECT] or [FOR] node met as a subquery adds nothing to the
    query input list of the enclosing query: its subquery is one
    evaluation of the node in the context of the enclosing row, with the
    same result, the same exception and the same use of the generator. *)
Theorem nested_query_once (q : expr) (ctx : EvalContext)
        (direct_paths subquery_paths never_optional : list EPath) (r : Rng) :
  is_query q = true ->
  analyze_paths q [] = Ok (direct_paths, subquery_paths, never_optional) ->
  direct_paths = [] /\ subquery ev q ctx r = ev q ctx r.
Proof.
  intros Hq Han.
  destruct (analyze_paths_classified _ _ Han)
    as (found & paths_opt & _ & _ & _ & _ & _ & Hquery).
  destruct (Hquery Hq) as [-> _]. split; [reflexivity |].
  eapply subquery_no_direct_paths. exact Han.
Qed.
End NestedQueries.

Lemma nested_query_once_witness :
  subquery (eval 3) (select (path_of "Person" ["name"])) (empty_ctx DB1) rng0
  = eval 3 (select (path_of "Person" ["name"])) (empty_ctx DB1) rng0.
Proof.
  destruct (@nested_query_once (eval 3) (select (path_of "Person" ["name"]))
              (empty_ctx DB1) []
              [[IORef expr "Person"; IPtr expr "name" (Some ">")]] [] rng0
              eq_refl eq_refl) as [_ H].
  exact H.
Defined.

(** ** The variable of a FOR *)

Section PathIndexApp.
Variable node : Type.
Variable node_eqb : node -> node -> bool.

Lemma path_index_app (p : IPath node) (l m : list (IPath node)) :
  path_index node_eqb p (l ++ m)
  = if path_in node_eqb p l then path_index node_eqb p l
    else (List.length l + path_index node_eqb p m)%nat.
Proof.
  induction l as [| q l IH]; [reflexivity |].
  unfold path_in in *. simpl.
  destruct (path_eqb node_eqb p q); [reflexivity |]. simpl.
  rewrite IH. now destruct (existsb (path_eqb node_eqb p) l).
Qed.
End PathIndexApp.

Lemma epath_in_self (a : string) (qil : list EPath) :
  epath_in [IORef expr a] (qil ++ [[IORef expr a]]) = true.
Proof.
  unfold epath_in, path_in. rewrite existsb_app. apply orb_true_iff. right.
  simpl. unfold path_eqb, elem_eqb. simpl. now rewrite String.eqb_refl.
Qed.

Lemma path_index_self (a : string) :
  path_index expr_eqb [IORef expr a] [[IORef expr a]] = 0%nat.
Proof.
  simpl. unfold path_eqb, elem_eqb. simpl. now rewrite String.eqb_refl.
Qed.

Lemma make_query_input_list_bound (a : string) (old : list EPath) :
  epath_in [IORef expr a] old = true ->
  make_query_input_list expr_eqb [[IORef expr a]] [] old = Ok [].
Proof.
  intros Hin. unfold make_query_input_list. cbn [filter_objref_paths obind].
  unfold find_common_prefixes. cbn [find_common_prefixes_from app].
  unfold scan_peers. cbn [fold_left longest_common_prefix].
  assert (Heq : elem_eqb expr_eqb (IORef expr a) (IORef expr a) = true)
    by (unfold elem_eqb; simpl; now rewrite String.eqb_refl).
  rewrite Heq. cbn [is_nonempty fst snd set_add path_in existsb app filter].
  unfold epath_in in Hin. rewrite Hin. reflexivity.
Qed.

Lemma subquery_variable (fuel : nat) (a : string) (ctx : EvalContext)
      (obj : Data) (r : Rng) :
  epath_in [IORef expr a] (query_input_list ctx) = true ->
  nth_error (input_tuple ctx)
    (path_index expr_eqb [IORef expr a] (query_input_list ctx)) = Some obj ->
  subquery (eval (S fuel)) (Path false [ObjectRef a]) ctx r
  = (Done (Ok (bound_value obj)), r).
Proof.
  intros Hin Hslot. unfold subquery, subquery_full.
  change (analyze_paths (Path false [ObjectRef a]) [])
    with (@Ok (list EPath * list EPath * list EPath)
            ([[IORef expr a]], [], [[IORef expr a]])).
  cbv [bind liftO]. unfold IPath.
  pose proof (make_query_input_list_bound _ _ Hin) as Hqil.
  unfold IPath in Hqil. rewrite Hqil.
  cbv [bind liftO ret build_input_tuples build_columns concatM].
  rewrite with_input_same.
  assert (Hev : eval (S fuel) (Path false [ObjectRef a]) ctx r
                = (Done (Ok (bound_value obj)), r)).
  { cbn [eval eval_node]. unfold bind, liftO.
    change (simplify_path false [ObjectRef a]) with (@Ok EPath [IORef expr a]).
    cbv iota beta. rewrite eval_path_bound by exact Hin. now rewrite Hslot. }
  rewrite Hev, app_nil_r, omap_list_last_col_snoc. reflexivity.
Qed.

(** X24.  [FOR x IN s UNION x] yields the values of [s] other than
    [None], in order - unless [x] is already bound in the enclosing
    context, by an enclosing FOR of the same name for instance: the
    reference then reads the enclosing binding, once for each value of
    [s], and the new binding is never seen. *)
Theorem for_variable (fuel : nat) (a : string) (iterator : expr)
        (ctx : EvalContext) (r r1 : Rng) (iter_vals : list Data) :
  List.length (input_tuple ctx) = List.length (query_input_list ctx) ->
  subquery (eval (S fuel)) iterator ctx r = (Done (Ok iter_vals), r1) ->
  (epath_in [IORef expr a] (query_input_list ctx) = false ->
   eval_For (eval (S fuel)) a iterator (Path false [ObjectRef a]) ctx r
   = (Done (Ok (flat_map bound_value iter_vals)), r1))
  /\ (forall obj,
         epath_in [IORef expr a] (query_input_list ctx) = true ->
         nth_error (input_tuple ctx)
           (path_index expr_eqb [IORef expr a] (query_input_list ctx)) = Some obj ->
         eval_For (eval (S fuel)) a iterator (Path false [ObjectRef a]) ctx r
         = (Done (Ok (flat_map (fun _ => bound_value obj) iter_vals)), r1)).
Proof.
  intros Hlen Hiter. unfold IPath in *. split.
  - intros Hfree. unfold eval_For, bind. rewrite Hiter.
    apply concatM_ok. intros val r2 _.
    apply subquery_variable; cbn [query_input_list input_tuple with_input].
    + apply epath_in_self.
    + rewrite path_index_app. unfold epath_in in Hfree. rewrite Hfree.
      rewrite path_index_self, Nat.add_0_r. unfold IPath. rewrite <- Hlen.
      rewrite nth_error_app2, Nat.sub_diag by lia. reflexivity.
  - intros obj Hbound Hslot. unfold eval_For, bind. rewrite Hiter.
    apply concatM_ok. intros val r2 _.
    apply subquery_variable; cbn [query_input_list input_tuple with_input].
    + apply epath_in_self.
    + rewrite path_index_app. unfold epath_in in Hbound. rewrite Hbound.
      rewrite nth_error_app1; [exact Hslot |].
      apply nth_error_Some. now rewrite Hslot.
Qed.

Lemma for_variable_witness :
  eval_For (eval 2) "x" (SetLit [IntegerConstant "2" false; IntegerConstant "3" false])
    (Path false [ObjectRef "x"])
    (mkCtx [[IORef expr "x"]] [DInt 1] [] []) rng0
  = (Done (Ok (flat_map (fun _ => bound_value (DInt 1)) [DInt 2; DInt 3])), rng0)
  /\ eval_For (eval 2) "x"
       (SetLit [IntegerConstant "2" false; IntegerConstant "3" false])
       (Path false [ObjectRef "x"]) (empty_ctx []) rng0
     = (Done (Ok (flat_map bound_value [DInt 2; DInt 3])), rng0).
Proof.
  split.
  - apply (@for_variable 1 "x"
             (SetLit [IntegerConstant "2" false; IntegerConstant "3" false])
             (mkCtx [[IORef expr "x"]] [DInt 1] [] []) rng0 rng0 [DInt 2; DInt 3]);
      reflexivity.
  - apply (@for_variable 1 "x"
             (SetLit [IntegerConstant "2" false; IntegerConstant "3" false])
             (empty_ctx []) rng0 rng0 [DInt 2; DInt 3]);
      reflexivity.
Defined.

(** ** Aggregates of integers *)

Lemma sum_from_integers (zs : list Z) :
  forall acc, sum_from (DInt acc) (map DInt zs)
              = Ok (DInt (acc + fold_right Z.add 0 zs)).
Proof.
  induction zs as [| z zs IH]; intros acc; simpl.
  - now rewrite Z.add_0_r.
  - rewrite IH. now rewrite Z.add_assoc.
Qed.

Lemma py_cmp_integers (op : cmpop) (x y : Z) :
  py_cmp op (DInt x) (DInt y) = Ok (cmp_holds op (Z.compare x y)).
Proof.
  simpl. now rewrite !Z.mul_1_r.
Qed.

Lemma extreme_from_min (zs : list Z) :
  forall cur, exists m,
    extreme_from OpLt (DInt cur) (map DInt zs) = Ok (DInt m)
    /\ In m (cur :: zs) /\ Forall (fun x => m <= x) (cur :: zs).
Proof.
  induction zs as [| z zs IH]; intros cur.
  - exists cur. split; [reflexivity |]. split; [now left |].
    constructor; [lia | constructor].
  - cbn [map extreme_from]. rewrite py_cmp_integers. cbn [obind].
    destruct (Z.compare_spec z cur) as [Heq | Hlt | Hgt]; cbn [cmp_holds].
    + destruct (IH cur) as (m & Hm & Hin & Hle). exists m.
      split; [exact Hm |]. inversion Hle; subst. split.
      * destruct Hin as [<- | Hin]; [now left | now right; right].
      * repeat constructor; auto.
    + destruct (IH z) as (m & Hm & Hin & Hle). exists m.
      split; [exact Hm |]. inversion Hle; subst. split.
      * destruct Hin as [<- | Hin]; [now right; left | now right; right].
      * constructor; [lia |]. constructor; auto.
    + destruct (IH cur) as (m & Hm & Hin & Hle). exists m.
      split; [exact Hm |]. inversion Hle; subst. split.
      * destruct Hin as [<- | Hin]; [now left | now right; right].
      * constructor; [auto |]. constructor; [lia | auto].
Qed.

Lemma extreme_from_max (zs : list Z) :
  forall cur, exists m,
    extreme_from OpGt (DInt cur) (map DInt zs) = Ok (DInt m)
    /\ In m (cur :: zs) /\ Forall (fun x => x <= m) (cur :: zs).
Proof.
  induction zs as [| z zs IH]; intros cur.
  - exists cur. split; [reflexivity |]. split; [now left |].
    constructor; [lia | constructor].
  - cbn [map extreme_from]. rewrite py_cmp_integers. cbn [obind].
    destruct (Z.compare_spec z cur) as [Heq | Hlt | Hgt]; cbn [cmp_holds].
    + destruct (IH cur) as (m & Hm & Hin & Hle). exists m.
      split; [exact Hm |]. inversion Hle; subst. split.
      * destruct Hin as [<- | Hin]; [now left | now right; right].
      * repeat constructor; auto.
    + destruct (IH cur) as (m & Hm & Hin & Hle). exists m.
      split; [exact Hm |]. inversion Hle; subst. split.
      * destruct Hin as [<- | Hin]; [now left | now right; right].
      * constructor; [auto |]. constructor; [lia | auto].
    + destruct (IH z) as (m & Hm & Hin & Hle). exists m.
      split; [exact Hm |]. inversion Hle; subst. split.
      * destruct Hin as [<- | Hin]; [now right; left | now right; right].
      * constructor; [lia |]. constructor; auto.
Qed.

(** X25.  On integers the aggregates compute what their names say:
    [sum] yields the sum, zero for no value; [min] and [max] of at least
    one value yield an element that is the least and the greatest. *)
Theorem aggregates_on_integers (z : Z) (zs : list Z) (r : Rng) :
  lift_set_of agg_sum [map DInt zs] r
  = (Done (Ok [DInt (fold_right Z.add 0 zs)]), r)
  /\ (exists m, lift_set_of agg_min [map DInt (z :: zs)] r = (Done (Ok [DInt m]), r)
                /\ In m (z :: zs) /\ Forall (fun x => m <= x) (z :: zs))
  /\ (exists m, lift_set_of agg_max [map DInt (z :: zs)] r = (Done (Ok [DInt m]), r)
                /\ In m (z :: zs) /\ Forall (fun x => x <= m) (z :: zs)).
Proof.
  split; [| split].
  - unfold lift_set_of, bind, liftO, ret. cbn [agg_sum].
    now rewrite sum_from_integers.
  - destruct (extreme_from_min zs z) as (m & Hm & Hin & Hle). exists m.
    split; [| split; assumption].
    unfold lift_set_of, bind, liftO, ret, agg_min. cbn [agg_extreme map extreme].
    now rewrite Hm.
  - destruct (extreme_from_max zs z) as (m & Hm & Hin & Hle). exists m.
    split; [| split; assumption].
    unfold lift_set_of, bind, liftO, ret, agg_max. cbn [agg_extreme map extreme].
    now rewrite Hm.
Qed.

(** ** Components of tuples and of named tuples *)

Lemma py_index_nonneg {A : Type} (l : list A) (i : Z) :
  (0 <= i)%Z ->
  py_index l i = match nth_error l (Z.to_nat i) with
                 | Some x => Ok x
                 | None => Raise IndexError
                 end.
Proof.
  intros Hi. unfold py_index. cbv zeta.
  destruct (Z.ltb_spec i 0) as [Hlt | _]; [lia |].
  destruct (Z.ltb_spec i 0) as [Hlt | _]; [lia |]. cbn [orb].
  destruct (Z.leb_spec (Z.of_nat (List.length l)) i) as [Hle | Hgt].
  - assert (Hnone : nth_error l (Z.to_nat i) = None)
      by (apply nth_error_None; lia).
    now rewrite Hnone.
  - reflexivity.
Qed.

Definition is_letter (c : ascii) : bool :=
  let n := N_of_ascii c in
  (((65 <=? n) && (n <=? 90)) || ((97 <=? n) && (n <=? 122)))%N.

Fixpoint string_existsb (f : ascii -> bool) (s : string) : bool :=
  match s with
  | EmptyString => false
  | String c s' => f c || string_existsb f s'
  end.

Lemma is_letter_not_numeric (c : ascii) :
  is_letter c = true -> is_digit c || is_int_punct c || negb (is_ascii c) = false.
Proof.
  unfold is_letter, is_digit, is_int_punct, is_ascii. cbv zeta.
  generalize (N_of_ascii c). intros n H.
  repeat match goal with
         | |- context [(?x <=? ?y)%N] => destruct (N.leb_spec x y)
         | |- context [(?x =? ?y)%N] => destruct (N.eqb_spec x y)
         | |- context [(?x <? ?y)%N] => destruct (N.ltb_spec x y)
         | H : context [(?x <=? ?y)%N] |- _ => destruct (N.leb_spec x y)
         end; simpl in *; try reflexivity; try discriminate; lia.
Qed.

Lemma int_of_str_letter (s : string) :
  string_existsb is_letter s = true -> int_of_str s = Raise ValueError.
Proof.
  intros Hs. unfold int_of_str. destruct s as [| c s]; [discriminate |].
  assert (Hall : forall t, string_existsb is_letter t = true ->
                           string_forallb is_digit t = false
                           /\ string_forallb
                                (fun c => is_digit c || is_int_punct c
                                          || negb (is_ascii c)) t
                              = false).
  { clear. induction t as [| c t IH]; simpl; [discriminate |].
    intros H. apply orb_true_iff in H. destruct H as [H | H].
    - pose proof (is_letter_not_numeric c H) as Hc. rewrite Hc.
      apply orb_false_iff in Hc. destruct Hc as [Hc _].
      apply orb_false_iff in Hc. destruct Hc as [-> _]. auto.
    - destruct (IH H) as [-> ->]. now rewrite !andb_false_r. }
  destruct (Hall _ Hs) as [-> ->]. reflexivity.
Qed.

(** X26.  A pointer whose name is the decimal numeral of [i], of at most
    4300 digits, selects component [i] of a tuple, counting from zero, and
    raises [IndexError] past the end; a longer numeral raises
    [ValueError], as the conversion to [int] refuses it, and so does a
    name with a letter in it. *)
Theorem tuple_component (l : list Data) (i : Z) (ptr : string) (ctx : EvalContext) :
  ((0 <= i)%Z -> (num_digits i <= int_max_str_digits)%Z ->
   eval_fwd_ptr (DTuple l) (numeral i) ctx
   = match nth_error l (Z.to_nat i) with
     | Some x => Ok [x]
     | None => Raise IndexError
     end)
  /\ ((0 <= i)%Z -> (int_max_str_digits < num_digits i)%Z ->
      eval_fwd_ptr (DTuple l) (numeral i) ctx = Raise ValueError)
  /\ (string_existsb is_letter ptr = true ->
      eval_fwd_ptr (DTuple l) ptr ctx = Raise ValueError).
Proof.
  split; [| split].
  - intros Hi Hd. cbn [eval_fwd_ptr]. rewrite (int_of_str_decimal Hi Hd).
    cbn [obind].
    rewrite (py_index_nonneg l Hi). now destruct (nth_error l (Z.to_nat i)).
  - intros Hi Hd. cbn [eval_fwd_ptr]. now rewrite (int_of_str_too_long Hi Hd).
  - intros Hptr. cbn [eval_fwd_ptr]. now rewrite (int_of_str_letter _ Hptr).
Qed.

Lemma tuple_component_witness :
  eval_fwd_ptr (DTuple [DStr "a"; DStr "b"]) (numeral 1) (empty_ctx [])
  = match nth_error [DStr "a"; DStr "b"] (Z.to_nat 1) with
    | Some x => Ok [x]
    | None => Raise IndexError
    end
  /\ eval_fwd_ptr (DTuple [DStr "a"; DStr "b"]) "name" (empty_ctx [])
     = Raise ValueError.
Proof.
  split.
  - apply (@tuple_component [DStr "a"; DStr "b"] 1 "name" (empty_ctx []));
      [lia | apply Z.leb_le; reflexivity].
  - apply (@tuple_component [DStr "a"; DStr "b"] 1 "name" (empty_ctx [])).
    reflexivity.
Defined.

(** [dict(zip(names, va))] *)
Definition named_dict (names : list string) (va : list Data) : list (string * Data) :=
  fold_left (fun d kv => dict_set (fst kv) (snd kv) d) (combine names va) [].

Lemma dict_get_set_same {A : Type} (k : string) (v : A) (d : list (string * A)) :
  dict_get k (dict_set k v d) = Some v.
Proof.
  induction d as [| [k' v'] d IH]; simpl.
  - now rewrite String.eqb_refl.
  - destruct (String.eqb k k') eqn:Hk; simpl; now rewrite Hk.
Qed.

Lemma dict_get_set_other {A : Type} (k k' : string) (v : A) (d : list (string * A)) :
  String.eqb k' k = false -> dict_get k' (dict_set k v d) = dict_get k' d.
Proof.
  intros Hk. induction d as [| [k0 v0] d IH]; simpl.
  - now rewrite Hk.
  - destruct (String.eqb_spec k k0) as [<- | Hne]; simpl.
    + now rewrite Hk.
    + now rewrite IH.
Qed.

Lemma dict_get_fold_set (l : list (string * Data)) :
  forall acc k,
    dict_get k (fold_left (fun d kv => dict_set (fst kv) (snd kv) d) l acc)
    = match find (fun kv => String.eqb k (fst kv)) (rev l) with
      | Some kv => Some (snd kv)
      | None => dict_get k acc
      end.
Proof.
  induction l as [| [k0 v0] l IH]; intros acc k; [reflexivity |].
  cbn [fold_left rev fst snd]. rewrite IH, find_app.
  destruct (find (fun kv => String.eqb k (fst kv)) (rev l)); [reflexivity |].
  cbn [find fst snd]. destruct (String.eqb k k0) eqn:Hk.
  - apply String.eqb_eq in Hk. subst. apply dict_get_set_same.
  - now apply dict_get_set_other.
Qed.

(** X27.  The values of a named tuple expression are dicts built from
    the names and the Cartesian product of the values of the elements; a
    pointer selects from such a value the component of that name - the
    last one, should the name occur twice - and raises [KeyError] for a
    name that the tuple does not have. *)
Theorem named_tuple_component
        (ev : expr -> EvalContext -> M (list Data))
        (elements : list (string * expr)) (names : list string) (va : list Data)
        (k : string) (ctx : EvalContext) (r r' : Rng) (vs : list Data) :
  (eval_node ev (NamedTuple elements) ctx r = (Done (Ok vs), r') ->
   exists args,
     Forall2 (fun e vals => exists ra rb, ev (snd e) ctx ra = (Done (Ok vals), rb))
             elements args
     /\ vs = map (fun va => DDict (named_dict (map fst elements) va)) (product args))
  /\ eval_fwd_ptr (DDict (named_dict names va)) k ctx
     = match find (fun kv => String.eqb k (fst kv)) (rev (combine names va)) with
       | Some kv => Ok [snd kv]
       | None => Raise KeyError
       end.
Proof.
  split.
  - cbn [eval_node]. intros H.
    apply bind_Ok in H. destruct H as (args & r1 & Hargs & H).
    apply mapM_ok in Hargs.
    rewrite (lift_ok _ (fun va => DDict (named_dict (map fst elements) va))) in H
      by reflexivity.
    assert (Hmap : flat_map
                     (fun a => splice (DDict (named_dict (map fst elements) a)))
                     (product args)
                   = map (fun va => DDict (named_dict (map fst elements) va))
                       (product args))
      by (rewrite <- flat_map_map_singleton; reflexivity).
    rewrite Hmap in H. inversion H; subst. now exists args.
  - cbn [eval_fwd_ptr]. unfold named_dict. rewrite dict_get_fold_set.
    now destruct (find _ _).
Qed.

Lemma named_tuple_component_witness :
  (exists args,
      Forall2 (fun e vals => exists ra rb,
                   eval 1 (snd e) (empty_ctx []) ra = (Done (Ok vals), rb))
              [("a", IntegerConstant "1" false); ("b", StringConstant "x")] args
      /\ [DDict [("a", DInt 1); ("b", DStr "x")]]
         = map (fun va => DDict (named_dict (map fst [("a", IntegerConstant "1" false);
                                                      ("b", StringConstant "x")]) va))
             (product args))
  /\ eval_fwd_ptr (DDict (named_dict ["a"; "b"] [DInt 1; DStr "x"])) "b" (empty_ctx [])
     = Ok [DStr "x"].
Proof.
  split.
  - apply (@named_tuple_component (eval 1)
             [("a", IntegerConstant "1" false); ("b", StringConstant "x")]
             [] [] "" (empty_ctx []) rng0 rng0).
    reflexivity.
  - apply (@named_tuple_component (eval 1) [] ["a"; "b"] [DInt 1; DStr "x"] "b"
             (empty_ctx []) rng0 rng0 []).
Defined.

(** * Correlation

    A context is a row: its query input list names the columns and its
    input tuple holds their values.  An operand is in a correlated
    position when it is evaluated in the context of the expression it
    belongs to: the elements of a tuple, of a named tuple and of a set,
    the operand of a cast, and the operands of an operator or function
    that are not declared [SET_OF]. *)

Section RowValues.
Variable ctx : EvalContext.

(** None of the first [n] operands of [op] is a subquery. *)
Definition all_correlated (op : string) (n : nat) : Prop :=
  forall i, (i < n)%nat -> arg_is_set_of (dict_get op BASIS) i = Ok false.

(** [row_value e r out r']: in the row [ctx], the expression [e] has the
    values [out], every part of it being taken in that same row, while
    the generator goes from [r] to [r'].  A path of the query input list
    stands for the value of its column. *)
Inductive row_value : expr -> Rng -> list Data -> Rng -> Prop :=
| rv_Path (partial : bool) (steps : list (step expr)) (q : EPath) (x : Data) (r : Rng) :
    simplify_path partial steps = Ok q ->
    epath_in q (query_input_list ctx) = true ->
    nth_error (input_tuple ctx) (path_index expr_eqb q (query_input_list ctx))
    = Some x ->
    row_value (Path partial steps) r (bound_value x) r
| rv_StringConstant (s : string) (r : Rng) :
    row_value (StringConstant s) r [DStr s] r
| rv_IntegerConstant (s : string) (neg : bool) (n : Z) (r : Rng) :
    int_of_str s = Ok n ->
    row_value (IntegerConstant s neg) r [DInt (n * sign neg)] r
| rv_BooleanConstant (s : string) (r : Rng) :
    row_value (BooleanConstant s) r [DBool (String.eqb s "true")] r
| rv_SetLit (es : list expr) (r : Rng) (vals : list (list Data)) (r' : Rng) :
    row_values es r vals r' ->
    row_value (SetLit es) r (List.concat vals) r'
| rv_Tuple (es : list expr) (r : Rng) (vals : list (list Data)) (r' : Rng) :
    row_values es r vals r' ->
    row_value (Tuple es) r (map DTuple (product vals)) r'
| rv_NamedTuple (es : list (string * expr)) (r : Rng) (vals : list (list Data))
                (r' : Rng) :
    row_values (map snd es) r vals r' ->
    row_value (NamedTuple es) r
      (map (fun va => DDict (named_dict (map fst es) va)) (product vals)) r'
| rv_TypeCast (typ : string) (e : expr) (f : LiftedFunc) (r : Rng)
              (vals : list Data) (r1 : Rng) (out : list Data) (r2 : Rng) :
    impls_get "cast" typ BASIS_IMPLS = Some f ->
    row_value e r vals r1 ->
    f [vals] r1 = (Done (Ok out), r2) ->
    row_value (TypeCast typ e) r out r2
| rv_BinOp (op : string) (lhs rhs : expr) (f : LiftedFunc) (r : Rng)
           (vals : list (list Data)) (r1 : Rng) (out : list Data) (r2 : Rng) :
    all_correlated (upper op) 2 ->
    impls_get "binop" (upper op) BASIS_IMPLS = Some f ->
    row_values [lhs; rhs] r vals r1 ->
    f vals r1 = (Done (Ok out), r2) ->
    row_value (BinOp op lhs rhs) r out r2
| rv_UnaryOp (op : string) (operand : expr) (f : LiftedFunc) (r : Rng)
             (vals : list (list Data)) (r1 : Rng) (out : list Data) (r2 : Rng) :
    all_correlated (upper op) 1 ->
    impls_get "unop" (upper op) BASIS_IMPLS = Some f ->
    row_values [operand] r vals r1 ->
    f vals r1 = (Done (Ok out), r2) ->
    row_value (UnaryOp op operand) r out r2
| rv_FunctionCall (func : string) (args : list expr) (f : LiftedFunc) (r : Rng)
                  (vals : list (list Data)) (r1 : Rng) (out : list Data) (r2 : Rng) :
    all_correlated func (List.length args) ->
    impls_get "func" func BASIS_IMPLS = Some f ->
    row_values args r vals r1 ->
    f vals r1 = (Done (Ok out), r2) ->
    row_value (FunctionCall func args) r out r2
with row_values : list expr -> Rng -> list (list Data) -> Rng -> Prop :=
| rvs_nil (r : Rng) : row_values [] r [] r
| rvs_cons (e : expr) (es : list expr) (r : Rng) (v : list Data) (r1 : Rng)
           (vs : list (list Data)) (r2 : Rng) :
    row_value e r v r1 ->
    row_values es r1 vs r2 ->
    row_values (e :: es) r (v :: vs) r2.

Section Operands.
Variable fuel : nat.
Hypothesis sound :
  forall e r out r',
    (expr_depth e <= fuel)%nat -> row_value e r out r' ->
    eval fuel e ctx r = (Done (Ok out), r').

Lemma row_values_mapM (es : list expr) :
  forall r vals r',
    Forall (fun e => (expr_depth e <= fuel)%nat) es ->
    row_values es r vals r' ->
    mapM (fun e => eval fuel e ctx) es r = (Done (Ok vals), r').
Proof.
  induction es as [| e es IH]; intros r vals r' Hd H;
    inversion H as [| ? ? ? v r1 vs ? He Hes]; subst.
  - reflexivity.
  - inversion Hd as [| ? ? Hde Hdes]; subst. cbn [mapM]. unfold bind.
    rewrite (sound Hde He). rewrite (IH _ _ _ Hdes Hes). reflexivity.
Qed.

Lemma row_values_mapM_snd (es : list (string * expr)) :
  forall r vals r',
    Forall (fun e => (expr_depth (snd e) <= fuel)%nat) es ->
    row_values (map snd es) r vals r' ->
    mapM (fun e => eval fuel (snd e) ctx) es r = (Done (Ok vals), r').
Proof.
  induction es as [| e es IH]; intros r vals r' Hd H;
    inversion H as [| ? ? ? v r1 vs ? He Hes]; subst.
  - reflexivity.
  - inversion Hd as [| ? ? Hde Hdes]; subst. cbn [mapM]. unfold bind.
    rewrite (sound Hde He). rewrite (IH _ _ _ Hdes Hes). reflexivity.
Qed.

Lemma row_values_concatM (es : list expr) :
  forall r vals r',
    Forall (fun e => (expr_depth e <= fuel)%nat) es ->
    row_values es r vals r' ->
    concatM (fun e => eval fuel e ctx) es r = (Done (Ok (List.concat vals)), r').
Proof.
  induction es as [| e es IH]; intros r vals r' Hd H;
    inversion H as [| ? ? ? v r1 vs ? He Hes]; subst.
  - reflexivity.
  - inversion Hd as [| ? ? Hde Hdes]; subst. cbn [concatM List.concat].
    unfold bind.
    rewrite (sound Hde He). rewrite (IH _ _ _ Hdes Hes). reflexivity.
Qed.

Lemma row_values_eval_args (specs : option (list TypeModifier)) (es : list expr) :
  forall i r vals r',
    (forall k, (k < List.length es)%nat -> arg_is_set_of specs (i + k) = Ok false) ->
    Forall (fun e => (expr_depth e <= fuel)%nat) es ->
    row_values es r vals r' ->
    eval_args (eval fuel) specs i es ctx r = (Done (Ok vals), r').
Proof.
  induction es as [| e es IH]; intros i r vals r' Hc Hd H;
    inversion H as [| ? ? ? v r1 vs ? He Hes]; subst.
  - reflexivity.
  - inversion Hd as [| ? ? Hde Hdes]; subst. cbn [eval_args].
    assert (H0 : arg_is_set_of specs i = Ok false).
    { rewrite <- (Nat.add_0_r i). apply Hc. simpl. lia. }
    assert (Hc' : forall k, (k < List.length es)%nat ->
                            arg_is_set_of specs (S i + k) = Ok false).
    { intros k Hk. replace (S i + k)%nat with (i + S k)%nat by lia.
      apply Hc. simpl. lia. }
    unfold bind, liftO. rewrite H0.
    rewrite (sound Hde He).
    pose proof (IH (S i) _ _ _ Hc' Hdes Hes) as Hrest.
    unfold bind, liftO in Hrest. rewrite Hrest. reflexivity.
Qed.
End Operands.
End RowValues.

Lemma depth_elements (es : list expr) (fuel : nat) :
  (S (list_max (map expr_depth es)) <= S fuel)%nat ->
  Forall (fun e => (expr_depth e <= fuel)%nat) es.
Proof.
  intros H. apply Forall_forall. intros e He.
  assert (Hle : (list_max (map expr_depth es) <= fuel)%nat) by lia.
  apply list_max_le in Hle. rewrite Forall_forall in Hle.
  apply Hle. now apply in_map.
Qed.

(** The evaluator computes the value that an expression has in the row. *)
Lemma row_value_sound (ctx : EvalContext) (fuel : nat) :
  forall e r out r',
    (expr_depth e <= fuel)%nat -> row_value ctx e r out r' ->
    eval fuel e ctx r = (Done (Ok out), r').
Proof.
  induction fuel as [| fuel IH]; intros e r out r' Hd H.
  - pose proof (expr_depth_pos e). lia.
  - cbn [eval].
    inversion H as [partial steps q x r0 Hq Hin Hslot
                   | s r0 | s neg n r0 Hn | s r0
                   | es r0 vals r0' Hes | es r0 vals r0' Hes | es r0 vals r0' Hes
                   | typ e0 f r0 vals r1 out0 r2 Hf He Hout
                   | op lhs rhs f r0 vals r1 out0 r2 Hc Hf Hes Hout
                   | op operand f r0 vals r1 out0 r2 Hc Hf Hes Hout
                   | func args f r0 vals r1 out0 r2 Hc Hf Hes Hout];
      subst; cbn [eval_node].
    + unfold bind, liftO. rewrite Hq.
      rewrite eval_path_bound by exact Hin. now rewrite Hslot.
    + reflexivity.
    + unfold bind, liftO. now rewrite Hn.
    + reflexivity.
    + apply (@row_values_concatM ctx fuel IH es r vals r'); [| exact Hes].
      apply depth_elements. exact Hd.
    + unfold bind.
      rewrite (@row_values_mapM ctx fuel IH es r vals r'
                 (depth_elements es Hd) Hes).
      rewrite (lift_ok (fun va => ret (DTuple va)) DTuple) by reflexivity.
      rewrite <- flat_map_map_singleton. reflexivity.
    + assert (Hds : Forall (fun a => (expr_depth (snd a) <= fuel)%nat) es).
      { cbn [expr_depth] in Hd.
        assert (Hle : (list_max (map (fun a => expr_depth (snd a)) es) <= fuel)%nat)
          by lia.
        apply list_max_le in Hle. rewrite Forall_forall in Hle.
        apply Forall_forall. intros a Ha. apply Hle.
        now apply (in_map (fun a => expr_depth (snd a))). }
      unfold bind.
      rewrite (@row_values_mapM_snd ctx fuel IH es r vals r' Hds Hes).
      fold (named_dict (map fst es)).
      rewrite (lift_ok _ (fun va => DDict (named_dict (map fst es) va)))
        by reflexivity.
      rewrite <- flat_map_map_singleton. reflexivity.
    + rewrite Hf. unfold bind.
      assert (Hde : (expr_depth e0 <= fuel)%nat) by (cbn [expr_depth] in Hd; lia).
      rewrite (IH e0 r vals r1 Hde He). exact Hout.
    + unfold eval_func_or_op, bind.
      assert (Hds : Forall (fun e => (expr_depth e <= fuel)%nat) [lhs; rhs]).
      { cbn [expr_depth] in Hd. repeat constructor; lia. }
      rewrite (@row_values_eval_args ctx fuel IH (dict_get (upper op) BASIS)
                 [lhs; rhs] 0%nat r vals r1 Hc Hds Hes).
      rewrite Hf. exact Hout.
    + unfold eval_func_or_op, bind.
      assert (Hds : Forall (fun e => (expr_depth e <= fuel)%nat) [operand]).
      { cbn [expr_depth] in Hd. repeat constructor; lia. }
      rewrite (@row_values_eval_args ctx fuel IH (dict_get (upper op) BASIS)
                 [operand] 0%nat r vals r1 Hc Hds Hes).
      rewrite Hf. exact Hout.
    + unfold eval_func_or_op, bind.
      rewrite (@row_values_eval_args ctx fuel IH (dict_get func BASIS)
                 args 0%nat r vals r1 Hc (depth_elements args Hd) Hes).
      rewrite Hf. exact Hout.
Qed.

(** An operand that refers to a bound path and is not a subquery hands
    the value of the column to the operator, whatever the other operands
    are. *)
Lemma eval_args_reference (fuel : nat) (ctx : EvalContext) (p : EPath) (v : Data)
      (specs : option (list TypeModifier)) :
  epath_in p (query_input_list ctx) = true ->
  nth_error (input_tuple ctx) (path_index expr_eqb p (query_input_list ctx)) = Some v ->
  v <> DNone ->
  forall args i r results r',
    eval_args (eval (S fuel)) specs i args ctx r = (Done (Ok results), r') ->
    forall k partial steps,
      nth_error args k = Some (Path partial steps) ->
      simplify_path partial steps = Ok p ->
      arg_is_set_of specs (i + k) = Ok false ->
      nth_error results k = Some [v].
Proof.
  intros Hin Hslot Hv.
  induction args as [| arg args IH]; intros i r results r' H k partial steps Hk Hp Hc.
  - destruct k; discriminate.
  - cbn [eval_args] in H.
    apply bind_Ok in H. destruct H as (set_of & r1 & Hset & H).
    apply liftO_Ok in Hset. destruct Hset as [Hset ->].
    apply bind_Ok in H. destruct H as (res & r2 & Hres & H).
    apply bind_Ok in H. destruct H as (rest & r3 & Hrest & H).
    apply ret_Ok in H. destruct H as [-> ->].
    destruct k as [| k].
    + cbn [nth_error] in Hk. inversion Hk; subst arg.
      rewrite Nat.add_0_r in Hc. rewrite Hc in Hset. inversion Hset; subst set_of.
      rewrite (eval_Path_bound fuel partial steps ctx r Hp Hin Hslot Hv) in Hres.
      inversion Hres; subst. reflexivity.
    + cbn [nth_error] in Hk |- *.
      apply (IH (S i) r2 rest r3 Hrest k partial steps Hk Hp).
      now replace (S i + k)%nat with (i + S k)%nat by lia.
Qed.

(** [SELECT Person.name ++ Person.name] *)
Definition q_name_twice : expr :=
  select (BinOp "++" (path_of "Person" ["name"]) (path_of "Person" ["name"])).


